(** * A shallow embedding of the lexer and recursive-descent parser of [test.py]

    The Python classes [Lexer] and [Parser] are state machines over one
    in-memory buffer.  Each method becomes a function on the object's record
    of fields; a method that can raise returns in the result type [res],
    whose third outcome stands for a loop that has not finished within the
    given number of iterations. *)

From Stdlib Require Import Ascii String List Bool Arith ZArith QArith Qabs
  Qpower Lia.
Import ListNotations.
Import Corelib.Init.Datatypes.
Local Close Scope Q_scope.

Set Implicit Arguments.

(** ** Outcomes of a call *)

(** The exceptions the code can raise: the two [Exception(...)] messages of
    [Lexer.error] and [Parser.error], and the two built-in ones that reach the
    caller from [int]/[float] and from [str += None]. *)
Inductive exn : Set :=
| InvalidCharacter
| InvalidSyntax
| ValueError
| TypeError.

Inductive res (A : Type) : Type :=
| Ret (a : A)
| Raise (e : exn)
| Diverge.

Arguments Raise {A} e.
Arguments Diverge {A}.

(** A method of an object with fields [S]: state in, value and state out. *)
Definition M (S A : Type) : Type := S -> res (A * S).

Definition ret {S A : Type} (a : A) : M S A := fun s => Ret (a, s).

Definition bind {S A B : Type} (m : M S A) (k : A -> M S B) : M S B :=
  fun s =>
    match m s with
    | Ret (a, s') => k a s'
    | Raise e => Raise e
    | Diverge => Diverge
    end.

Definition raise {S A : Type} (e : exn) : M S A := fun _ => Raise e.

Definition diverge {S A : Type} : M S A := fun _ => Diverge.

Declare Scope py_scope.
Delimit Scope py_scope with py.
Notation "x <- m ;; k" := (bind m (fun x => k))
  (at level 61, m at next level, right associativity) : py_scope.
Notation "m ;;; k" := (bind m (fun _ => k))
  (at level 61, right associativity) : py_scope.
Local Open Scope py_scope.

(** [refines m m']: wherever [m] finishes, [m'] finishes with the same
    outcome.  More fuel refines less fuel. *)
Definition refines {S A : Type} (m m' : M S A) : Prop :=
  forall s, m s <> Diverge -> m' s = m s.

(** ** Characters and strings *)

(** A Python [str] is a sequence of code points.  The model keeps the code
    points below 256, and the four classification methods of [str] are given
    on that range as CPython 3 computes them. *)
Definition pystr : Type := list ascii.

Definition str (s : string) : pystr := list_ascii_of_string s.

Definition code (c : ascii) : nat := nat_of_ascii c.

Definition in_range (lo hi n : nat) : bool := (lo <=? n) && (n <=? hi).

(** [c.isspace()] *)
Definition isspace (c : ascii) : bool :=
  let n := code c in
  in_range 9 13 n || in_range 28 32 n || (n =? 133) || (n =? 160).

(** [c.isdigit()]: the ten decimal digits and the superscripts 1, 2 and 3. *)
Definition isdigit (c : ascii) : bool :=
  let n := code c in
  in_range 48 57 n || (n =? 178) || (n =? 179) || (n =? 185).

(** [c.isalpha()] *)
Definition isalpha (c : ascii) : bool :=
  let n := code c in
  in_range 65 90 n || in_range 97 122 n
  || (n =? 170) || (n =? 181) || (n =? 186)
  || in_range 192 214 n || in_range 216 246 n || in_range 248 255 n.

(** [c.isalnum()]: alphabetic, digit, or one of the vulgar fractions. *)
Definition isalnum (c : ascii) : bool :=
  isalpha c || isdigit c || in_range 188 190 (code c).

(** The characters [0] to [9], the only ones [int] and [float] convert. *)
Definition is_decimal (c : ascii) : bool := in_range 48 57 (code c).

Definition digit_value (c : ascii) : Z := Z.of_nat (code c) - 48.

Definition decimal_value (s : pystr) : Z :=
  fold_left (fun acc c => 10 * acc + digit_value c)%Z s 0%Z.

(** [sys.int_info.default_max_str_digits]: the number of digits from which
    on CPython 3.11 and later refuse, in their default setting, to convert a
    decimal numeral to an [int]. *)
Definition int_max_str_digits : nat := 4300.

(** [int(s)] for the strings [get_number] passes to it (runs of [isdigit]
    characters): a non-empty run of decimal digits converts, anything else is
    a [ValueError].  Python's integers are unbounded, hence [Z]; a numeral of
    more than [int_max_str_digits] digits, leading zeros counted, is not
    converted and is a [ValueError] too. *)
Definition py_int (s : pystr) : res Z :=
  match s with
  | [] => Raise ValueError
  | _ =>
      if forallb is_decimal s then
        if length s <=? int_max_str_digits then Ret (decimal_value s)
        else Raise ValueError
      else Raise ValueError
  end.

(** The part of [s] before its first dot, and the part after it. *)
Fixpoint split_dot (s : pystr) : pystr * option pystr :=
  match s with
  | [] => ([], None)
  | c :: s' =>
      if Ascii.eqb c "." then ([], Some s')
      else let (ip, fp) := split_dot s' in (c :: ip, fp)
  end.

(** A Python [float] is an IEEE 754 binary64 number.  The ones a numeral
    without sign converts to are zero, the positive numbers [m * 2 ^ e] with
    a mantissa [m] of at most 53 bits, and infinity. *)
Inductive float64 : Set :=
| F_finite (m e : Z)
| F_inf.

(** The integer nearest to [n / d], the even one of the two where [n / d]
    lies halfway between them. *)
Definition round_half_even (n d : Z) : Z :=
  (let q := n / d in
   match 2 * (n mod d) ?= d with
   | Lt => q
   | Gt => q + 1
   | Eq => if Z.even q then q else q + 1
   end)%Z.

(** The binary64 number that [n / d] rounds to, for [0 <= n] and [0 < d].
    In units of [2 ^ -1074], the least positive number of the format, the
    integer part [t] of [n / d] has [Z.log2 t + 1] bits; the [k] bits beyond
    the first 53 are rounded away, and a mantissa that rounds up to [2 ^ 53]
    is [2 ^ 52] one exponent higher.  An exponent beyond 971 is an
    overflow. *)
Definition round_binary64 (n d : Z) : float64 :=
  (let t := n * 2 ^ 1074 / d in
   let k := Z.max 0 (Z.log2 t - 52) in
   let m := round_half_even (n * 2 ^ 1074) (d * 2 ^ k) in
   let (m', k') := if m =? 2 ^ 53 then (2 ^ 52, k + 1) else (m, k) in
   if 2045 <? k' then F_inf else F_finite m' (k' - 1074))%Z.

(** [float(s)] for the strings [get_number] passes to it (runs of [isdigit]
    characters and dots): digits, then optionally a dot and digits, with a
    digit on at least one side, anything else being a [ValueError].  The
    value is the decimal that the text denotes, correctly rounded: the
    nearest binary64 number, the one with the even mantissa in a tie, and
    infinity on overflow; no numeral is too long for [float]. *)
Definition py_float (s : pystr) : res float64 :=
  let (ip, ofp) := split_dot s in
  let fp := match ofp with Some fp => fp | None => [] end in
  if forallb is_decimal ip && forallb is_decimal fp
     && negb ((length ip =? 0) && (length fp =? 0))
  then Ret (round_binary64 (decimal_value (ip ++ fp))
                           (10 ^ Z.of_nat (length fp)))
  else Raise ValueError.

(** ** Tokens *)

Inductive token_type : Set :=
| INTEGER | FLOAT | STRING | CHAR
| PLUS | MINUS | MULTIPLY | DIVIDE | MODULO
| LPAREN | RPAREN
| IDENTIFIER | ASSIGN
| KEYWORD | BOOLEAN
| EOF
| COMMA.

Definition token_type_eq_dec (a b : token_type) : {a = b} + {a <> b}.
Proof. decide equality. Defined.

Definition type_eqb (a b : token_type) : bool :=
  if token_type_eq_dec a b then true else false.

(** What [Token.value] can hold: [None], an [int], a [float], a [str]. *)
Inductive value : Type :=
| VNone
| VInt (z : Z)
| VFloat (x : float64)
| VStr (s : pystr).

Record Token : Type := mkToken { type : token_type; tvalue : value }.

Definition pystr_eqb (a b : pystr) : bool :=
  if list_eq_dec ascii_dec a b then true else false.

(** [v == s] for a string constant [s]. *)
Definition value_is (v : value) (s : string) : bool :=
  match v with
  | VStr t => pystr_eqb t (str s)
  | _ => false
  end.

(** ** Lexer *)

Record Lexer : Type := mkLexer {
  text : pystr;
  position : nat;
  current_char : option ascii
}.

(** [Lexer.__init__] *)
Definition Lexer_init (t : pystr) : Lexer :=
  mkLexer t 0 (match t with [] => None | _ => nth_error t 0 end).

(** [Lexer.advance] *)
Definition advance (l : Lexer) : Lexer :=
  let p := S (position l) in
  mkLexer (text l) p
          (if p <? length (text l) then nth_error (text l) p else None).

(** No loop of the lexer runs more often than there are characters left, plus
    once; [lexer_fuel] is that bound (see [get_next_token_total]). *)
Definition lexer_fuel (l : Lexer) : nat :=
  S (S (length (text l) - position l)).

(** The loop shared by [skip_whitespace], [get_number] and [get_identifier]:
    [while self.current_char is not None and test(self.current_char):
       result += self.current_char; self.advance()]. *)
Fixpoint while_char (test : ascii -> bool) (fuel : nat) (result : pystr)
  : M Lexer pystr :=
  fun l =>
    match current_char l with
    | Some c =>
        if test c then
          match fuel with
          | O => Diverge
          | S f => while_char test f (result ++ [c]) (advance l)
          end
        else Ret (result, l)
    | None => Ret (result, l)
    end.

(** [Lexer.skip_whitespace] *)
Definition skip_whitespace : M Lexer unit :=
  fun l => (_ <- while_char isspace (lexer_fuel l) [] ;; ret tt) l.

(** [Lexer.get_number] *)
Definition get_number : M Lexer Token :=
  fun l =>
    (result <- while_char (fun c => isdigit c || Ascii.eqb c ".")
                          (lexer_fuel l) [] ;;
     if existsb (Ascii.eqb ".") result then
       match py_float result with
       | Ret x => ret (mkToken FLOAT (VFloat x))
       | Raise e => raise e
       | Diverge => diverge
       end
     else
       match py_int result with
       | Ret z => ret (mkToken INTEGER (VInt z))
       | Raise e => raise e
       | Diverge => diverge
       end) l.

Definition newline : ascii := ascii_of_nat 10.
Definition tab : ascii := ascii_of_nat 9.
Definition backslash : ascii := ascii_of_nat 92.
Definition dquote : ascii := ascii_of_nat 34.
Definition squote : ascii := ascii_of_nat 39.

(** The loop of [Lexer.get_string].  After a backslash at the end of the
    buffer [current_char] is [None] and [result += self.current_char] is a
    [TypeError]. *)
Fixpoint get_string_loop (fuel : nat) (result : pystr) : M Lexer pystr :=
  fun l =>
    match current_char l with
    | None => Ret (result, l)
    | Some c =>
        if Ascii.eqb c dquote then Ret (result, l)
        else
          match fuel with
          | O => Diverge
          | S f =>
              if Ascii.eqb c backslash then
                let l1 := advance l in
                match current_char l1 with
                | Some c1 =>
                    if Ascii.eqb c1 "n" then
                      get_string_loop f (result ++ [newline]) (advance l1)
                    else if Ascii.eqb c1 "t" then
                      get_string_loop f (result ++ [tab]) (advance l1)
                    else
                      get_string_loop f (result ++ [c1]) (advance l1)
                | None => Raise TypeError
                end
              else get_string_loop f (result ++ [c]) (advance l)
          end
    end.

(** [Lexer.get_string] *)
Definition get_string : M Lexer Token :=
  fun l =>
    let l0 := advance l in
    match get_string_loop (lexer_fuel l) [] l0 with
    | Ret (result, l1) => Ret (mkToken STRING (VStr result), advance l1)
    | Raise e => Raise e
    | Diverge => Diverge
    end.

Definition char_value (c : option ascii) : value :=
  match c with
  | Some c => VStr [c]
  | None => VNone
  end.

(** [Lexer.get_char] *)
Definition get_char : M Lexer Token :=
  fun l =>
    let l0 := advance l in
    let (result, l1) :=
      match current_char l0 with
      | Some c =>
          if Ascii.eqb c backslash then
            let l' := advance l0 in
            match current_char l' with
            | Some c1 =>
                if Ascii.eqb c1 "n" then (VStr [newline], l')
                else if Ascii.eqb c1 "t" then (VStr [tab], l')
                else (VStr [c1], l')
            | None => (VNone, l')
            end
          else (VStr [c], l0)
      | None => (VNone, l0)
      end in
    Ret (mkToken CHAR result, advance l1).

Definition keywords : list string :=
  ["if"; "elif"; "else"; "match"; "case"; "for"; "while"; "fun"; "var";
   "const"; "bool"; "char"; "int"; "float"; "string"; "enum"; "struct";
   "list"; "array"; "True"; "False"; "return"]%string.

(** [Lexer.get_identifier] *)
Definition get_identifier : M Lexer Token :=
  fun l =>
    (result <- while_char (fun c => isalnum c || Ascii.eqb c "_")
                          (lexer_fuel l) [] ;;
     if existsb (fun k => pystr_eqb result (str k)) keywords
     then ret (mkToken KEYWORD (VStr result))
     else ret (mkToken IDENTIFIER (VStr result))) l.

(** One-character token: [self.advance(); return Token(ty, c)]. *)
Definition punct (ty : token_type) (c : ascii) : M Lexer Token :=
  fun l => Ret (mkToken ty (VStr [c]), advance l).

(** The [while] loop of [Lexer.get_next_token]; only the whitespace branch
    goes round the loop again. *)
Fixpoint get_next_token_loop (fuel : nat) : M Lexer Token :=
  fun l =>
    match current_char l with
    | None => Ret (mkToken EOF VNone, l)
    | Some c =>
        if isspace c then
          match fuel with
          | O => Diverge
          | S f => (skip_whitespace ;;; get_next_token_loop f) l
          end
        else if isdigit c then get_number l
        else if Ascii.eqb c "+" then punct PLUS c l
        else if Ascii.eqb c "-" then punct MINUS c l
        else if Ascii.eqb c "*" then punct MULTIPLY c l
        else if Ascii.eqb c "/" then punct DIVIDE c l
        else if Ascii.eqb c "%" then punct MODULO c l
        else if Ascii.eqb c "(" then punct LPAREN c l
        else if Ascii.eqb c ")" then punct RPAREN c l
        else if Ascii.eqb c "=" then punct ASSIGN c l
        else if Ascii.eqb c dquote then get_string l
        else if Ascii.eqb c squote then get_char l
        else if Ascii.eqb c "," then punct COMMA c l
        else if isalpha c || Ascii.eqb c "_" then get_identifier l
        else Raise InvalidCharacter
    end.

(** [Lexer.get_next_token] *)
Definition get_next_token : M Lexer Token :=
  fun l => get_next_token_loop (lexer_fuel l) l.

(** ** States of the lexer *)

(** The lexer over [t] with its cursor on index [k]. *)
Definition at_pos (t : pystr) (k : nat) : Lexer := mkLexer t k (nth_error t k).

(** The invariant between the two cursor fields. *)
Definition consistent (l : Lexer) : Prop :=
  current_char l = nth_error (text l) (position l).

(** What stops a loop: the end of the buffer, or a character failing the
    test. *)
Definition stops (test : ascii -> bool) (suf : pystr) : Prop :=
  match suf with
  | [] => True
  | c :: _ => test c = false
  end.

(** ** Abstract syntax tree *)

(** One constructor per node class.  [NoneNode] is Python's [None] where the
    code puts it in the place of a node: the absent step of a [for], and the
    result of [Parser.statement] when it falls off its end. *)
#[warnings="-register-all"]
Inductive node : Type :=
| NoneNode
| NumberNode (token : Token)
| StringNode (token : Token)
| CharNode (token : Token)
| VariableNode (token : Token)
| AssignNode (left : node) (op : Token) (right : node)
| BinOpNode (left : node) (op : Token) (right : node)
| UnaryOpNode (op : Token) (operand : node)
| IfNode (condition : node) (body : list node) (elif_nodes : list node)
         (else_body : option (list node))
| ElifNode (condition : node) (body : list node)
| WhileNode (condition : node) (body : list node)
| ForNode (var_name : value) (start : node) (end_ : node) (step : node)
          (body : list node)
| FunctionDefNode (name : value) (params : list value) (body : list node)
| FunctionCallNode (name : node) (arguments : list node)
| ReturnNode (value_node : node).

(** ** Parser *)

Record Parser : Type := mkParser {
  lexer : Lexer;
  current_token : Token
}.

(** [Parser.__init__] *)
Definition Parser_init (l : Lexer) : res Parser :=
  match get_next_token l with
  | Ret (tok, l') => Ret (mkParser l' tok)
  | Raise e => Raise e
  | Diverge => Diverge
  end.

(** [Parser.error] *)
Definition error {A : Type} : M Parser A := raise InvalidSyntax.

(** [self.current_token = self.lexer.get_next_token()] *)
Definition next_token : M Parser unit :=
  fun p =>
    match get_next_token (lexer p) with
    | Ret (tok, l') => Ret (tt, mkParser l' tok)
    | Raise e => Raise e
    | Diverge => Diverge
    end.

(** [Parser.eat] *)
Definition eat (token_type : token_type) : M Parser unit :=
  fun p =>
    if type_eqb (type (current_token p)) token_type then next_token p
    else error p.

Definition cur_is (ty : token_type) (p : Parser) : bool :=
  type_eqb (type (current_token p)) ty.

(** [Parser.factor], [Parser.term] and [Parser.expr], with the two [while]
    loops as functions of their own.  [fuel] bounds the depth of calls and
    the number of loop iterations. *)
Fixpoint factor (fuel : nat) : M Parser node :=
  match fuel with
  | O => diverge
  | S f => fun p =>
      let token := current_token p in
      if type_eqb (type token) INTEGER then
        (eat INTEGER ;;; ret (NumberNode token)) p
      else if type_eqb (type token) FLOAT then
        (eat FLOAT ;;; ret (NumberNode token)) p
      else if type_eqb (type token) STRING then
        (eat STRING ;;; ret (StringNode token)) p
      else if type_eqb (type token) CHAR then
        (eat CHAR ;;; ret (CharNode token)) p
      else if type_eqb (type token) IDENTIFIER then
        (eat IDENTIFIER ;;; ret (VariableNode token)) p
      else if type_eqb (type token) LPAREN then
        (eat LPAREN ;;; nd <- expr f ;; eat RPAREN ;;; ret nd) p
      else error p
  end

with term (fuel : nat) : M Parser node :=
  match fuel with
  | O => diverge
  | S f => nd <- factor f ;; term_loop f nd
  end

with term_loop (fuel : nat) (nd : node) : M Parser node :=
  match fuel with
  | O => diverge
  | S f => fun p =>
      if cur_is MULTIPLY p || cur_is DIVIDE p || cur_is MODULO p then
        let op_token := current_token p in
        ((if type_eqb (type op_token) MULTIPLY then eat MULTIPLY
          else if type_eqb (type op_token) DIVIDE then eat DIVIDE
          else if type_eqb (type op_token) MODULO then eat MODULO
          else ret tt) ;;;
         right <- factor f ;;
         term_loop f (BinOpNode nd op_token right)) p
      else ret nd p
  end

with expr (fuel : nat) : M Parser node :=
  match fuel with
  | O => diverge
  | S f => nd <- term f ;; expr_loop f nd
  end

with expr_loop (fuel : nat) (nd : node) : M Parser node :=
  match fuel with
  | O => diverge
  | S f => fun p =>
      if cur_is PLUS p || cur_is MINUS p then
        let op_token := current_token p in
        ((if type_eqb (type op_token) PLUS then eat PLUS
          else if type_eqb (type op_token) MINUS then eat MINUS
          else ret tt) ;;;
         right <- term f ;;
         expr_loop f (BinOpNode nd op_token right)) p
      else ret nd p
  end.

(** [Parser.variable] *)
Definition variable : M Parser node :=
  fun p => (eat IDENTIFIER ;;; ret (VariableNode (current_token p))) p.

(** [VariableNode.name] *)
Definition name_of (n : node) : value :=
  match n with
  | VariableNode token => tvalue token
  | _ => VNone
  end.

(** [Parser.return_statement] *)
Definition return_statement (fuel : nat) : M Parser node :=
  eat KEYWORD ;;; value_node <- expr fuel ;; ret (ReturnNode value_node).

(** The [while] loop of [Parser.argument_list]. *)
Fixpoint argument_list_loop (fuel : nat) (args : list node)
  : M Parser (list node) :=
  match fuel with
  | O => diverge
  | S f => fun p =>
      if cur_is COMMA p then
        (eat COMMA ;;; a <- expr f ;; argument_list_loop f (args ++ [a])) p
      else ret args p
  end.

(** [Parser.argument_list] *)
Definition argument_list (fuel : nat) : M Parser (list node) :=
  fun p =>
    if negb (cur_is RPAREN p) then
      (a <- expr fuel ;; argument_list_loop fuel [a]) p
    else ret [] p.

(** [Parser.function_call] *)
Definition function_call (fuel : nat) : M Parser node :=
  name <- variable ;;
  eat LPAREN ;;;
  arguments <- argument_list fuel ;;
  eat RPAREN ;;;
  ret (FunctionCallNode name arguments).

(** The [while] loop of [Parser.parameter_list]. *)
Fixpoint parameter_list_loop (fuel : nat) (params : list value)
  : M Parser (list value) :=
  match fuel with
  | O => diverge
  | S f => fun p =>
      if cur_is COMMA p then
        (eat COMMA ;;; v <- variable ;;
         parameter_list_loop f (params ++ [name_of v])) p
      else ret params p
  end.

(** [Parser.parameter_list] *)
Definition parameter_list (fuel : nat) : M Parser (list value) :=
  fun p =>
    if cur_is IDENTIFIER p then
      (v <- variable ;; parameter_list_loop fuel [name_of v]) p
    else ret [] p.

(** [Parser.assignment_statement] *)
Definition assignment_statement (fuel : nat) : M Parser node :=
  left <- variable ;;
  fun p =>
    let op := current_token p in
    (eat ASSIGN ;;; right <- expr fuel ;; ret (AssignNode left op right)) p.

Definition cur_keyword (s : string) (p : Parser) : bool :=
  cur_is KEYWORD p && value_is (tvalue (current_token p)) s.

(** [Parser.statement], [Parser.block] and the three statements that contain
    a block.  A keyword other than [if], [while], [for] and [return] matches
    no branch of the inner [if]/[elif] chain of [statement], which then
    returns [None] and leaves the token where it is. *)
Fixpoint statement (fuel : nat) : M Parser node :=
  match fuel with
  | O => diverge
  | S f => fun p =>
      if cur_is KEYWORD p then
        if value_is (tvalue (current_token p)) "if" then if_statement f p
        else if value_is (tvalue (current_token p)) "while" then
          while_statement f p
        else if value_is (tvalue (current_token p)) "for" then
          for_statement f p
        else if value_is (tvalue (current_token p)) "return" then
          return_statement f p
        else ret NoneNode p
      else if cur_is IDENTIFIER p then
        if match current_char (lexer p) with
           | Some c => Ascii.eqb c "("
           | None => false
           end
        then function_call f p
        else assignment_statement f p
      else error p
  end

with block_loop (fuel : nat) (statements : list node)
  : M Parser (list node) :=
  match fuel with
  | O => diverge
  | S f => fun p =>
      if negb (cur_is EOF p) then
        (s <- statement f ;; block_loop f (statements ++ [s])) p
      else ret statements p
  end

with elif_loop (fuel : nat) (elif_nodes : list node)
  : M Parser (list node) :=
  match fuel with
  | O => diverge
  | S f => fun p =>
      if cur_keyword "elif" p then
        (eat KEYWORD ;;;
         elif_condition <- expr f ;;
         elif_body <- block_loop f [] ;;
         elif_loop f (elif_nodes ++ [ElifNode elif_condition elif_body])) p
      else ret elif_nodes p
  end

with if_statement (fuel : nat) : M Parser node :=
  match fuel with
  | O => diverge
  | S f =>
      eat KEYWORD ;;;
      condition <- expr f ;;
      body <- block_loop f [] ;;
      elif_nodes <- elif_loop f [] ;;
      else_body <- (fun p =>
                      if cur_keyword "else" p then
                        (eat KEYWORD ;;; b <- block_loop f [] ;; ret (Some b)) p
                      else ret None p) ;;
      ret (IfNode condition body elif_nodes else_body)
  end

with while_statement (fuel : nat) : M Parser node :=
  match fuel with
  | O => diverge
  | S f =>
      eat KEYWORD ;;;
      condition <- expr f ;;
      body <- block_loop f [] ;;
      ret (WhileNode condition body)
  end

with for_statement (fuel : nat) : M Parser node :=
  match fuel with
  | O => diverge
  | S f =>
      eat KEYWORD ;;;
      eat LPAREN ;;;
      v <- variable ;;
      let var_name := name_of v in
      eat ASSIGN ;;;
      start <- expr f ;;
      eat COMMA ;;;
      end_ <- expr f ;;
      step <- (fun p =>
                 if cur_is COMMA p then (eat COMMA ;;; expr f) p
                 else ret NoneNode p) ;;
      eat RPAREN ;;;
      body <- block_loop f [] ;;
      ret (ForNode var_name start end_ step body)
  end.

(** [Parser.block] *)
Definition block (fuel : nat) : M Parser (list node) := block_loop fuel [].

(** [Parser.function_definition] *)
Definition function_definition (fuel : nat) : M Parser node :=
  eat KEYWORD ;;;
  v <- variable ;;
  let name := name_of v in
  eat LPAREN ;;;
  params <- parameter_list fuel ;;
  eat RPAREN ;;;
  body <- block fuel ;;
  ret (FunctionDefNode name params body).

(** The [while] loop of [Parser.program]. *)
Fixpoint program_loop (fuel : nat) (nodes : list node)
  : M Parser (list node) :=
  match fuel with
  | O => diverge
  | S f => fun p =>
      if negb (cur_is EOF p) then
        if cur_keyword "fun" p then
          (n <- function_definition f ;; program_loop f (nodes ++ [n])) p
        else
          (n <- statement f ;; program_loop f (nodes ++ [n])) p
      else ret nodes p
  end.

(** [Parser.program] *)
Definition program (fuel : nat) : M Parser (list node) := program_loop fuel [].

(** The three lines of the example usage:
    [lexer = Lexer(code); parser = Parser(lexer); ast = parser.program()]. *)
Definition parse (fuel : nat) (code : pystr) : res (list node) :=
  match Parser_init (Lexer_init code) with
  | Ret p =>
      match program fuel p with
      | Ret (ast, _) => Ret ast
      | Raise e => Raise e
      | Diverge => Diverge
      end
  | Raise e => Raise e
  | Diverge => Diverge
  end.

(** * Vocabulary of the statements *)

(** ** What a decimal numeral denotes *)



(** ** What a float stands for *)





(** The characters [get_number] collects. *)
Definition number_char (c : ascii) : bool := isdigit c || Ascii.eqb c ".".

(** ** What a quoted literal denotes *)

(** The character an escape [\c] stands for. *)
Definition escape_char (c : ascii) : ascii :=
  if Ascii.eqb c "n" then newline
  else if Ascii.eqb c "t" then tab
  else c.

(** The value of the text between the quotes of a string literal: [\n] and
    [\t] are newline and tab, any other character after a backslash stands
    for itself.  There is no value when the text holds a quote that no
    backslash precedes, or ends in the middle of an escape. *)
Fixpoint decode (s : pystr) : option pystr :=
  match s with
  | [] => Some []
  | c :: s' =>
      if Ascii.eqb c dquote then None
      else if Ascii.eqb c backslash then
        match s' with
        | [] => None
        | c1 :: s'' => option_map (cons (escape_char c1)) (decode s'')
        end
      else option_map (cons c) (decode s')
  end.

(** What ends the body of a string literal: the closing quote or the end of
    the buffer. *)
Definition closes (suf : pystr) : Prop :=
  match suf with
  | [] => True
  | c :: _ => c = dquote
  end.

(** [n] calls of [get_next_token] in a row, with the tokens they return. *)
Fixpoint calls (n : nat) : M Lexer (list Token) :=
  match n with
  | O => ret []
  | S n' => tok <- get_next_token ;; toks <- calls n' ;; ret (tok :: toks)
  end.

(** The lexer states a caller can see: the fresh lexer, and the state after
    each call that returned. *)
Inductive reachable (t : pystr) : Lexer -> Prop :=
| reach_init : reachable t (Lexer_init t)
| reach_call l tok l' :
    reachable t l -> get_next_token l = Ret (tok, l') -> reachable t l'.

(** The chain of tests [get_next_token] makes on a character that is not
    whitespace. *)
Definition token_at (c : ascii) : M Lexer Token :=
  fun l =>
    if isdigit c then get_number l
    else if Ascii.eqb c "+" then punct PLUS c l
    else if Ascii.eqb c "-" then punct MINUS c l
    else if Ascii.eqb c "*" then punct MULTIPLY c l
    else if Ascii.eqb c "/" then punct DIVIDE c l
    else if Ascii.eqb c "%" then punct MODULO c l
    else if Ascii.eqb c "(" then punct LPAREN c l
    else if Ascii.eqb c ")" then punct RPAREN c l
    else if Ascii.eqb c "=" then punct ASSIGN c l
    else if Ascii.eqb c dquote then get_string l
    else if Ascii.eqb c squote then get_char l
    else if Ascii.eqb c "," then punct COMMA c l
    else if isalpha c || Ascii.eqb c "_" then get_identifier l
    else Raise InvalidCharacter.

(** ** Chains of operators *)

(** The tokens [factor] turns into a leaf, and the leaf it makes of each. *)
Definition atom (t : Token) : bool :=
  match type t with
  | INTEGER | FLOAT | STRING | CHAR | IDENTIFIER => true
  | _ => false
  end.

Definition leaf (t : Token) : node :=
  match type t with
  | INTEGER | FLOAT => NumberNode t
  | STRING => StringNode t
  | CHAR => CharNode t
  | _ => VariableNode t
  end.

Definition additive (t : Token) : bool :=
  type_eqb (type t) PLUS || type_eqb (type t) MINUS.

Definition multiplicative (t : Token) : bool :=
  type_eqb (type t) MULTIPLY || type_eqb (type t) DIVIDE
  || type_eqb (type t) MODULO.

(** A chain [op1 a1 op2 a2 ...] after a first operand: its tokens in source
    order, and the tree that nests it to the left,
    [((first op1 a1) op2 a2) ...]. *)
Definition chain_tokens (chain : list (Token * Token)) : list Token :=
  flat_map (fun oa => [fst oa; snd oa]) chain.

Definition left_nested (first : node) (chain : list (Token * Token)) : node :=
  fold_left (fun acc oa => BinOpNode acc (fst oa) (leaf (snd oa))) chain first.

(** Every link of the chain has an operator of the given level and an atom
    for operand. *)
Definition chain_of (level : Token -> bool) (chain : list (Token * Token))
  : bool :=
  forallb (fun oa => level (fst oa) && atom (snd oa)) chain.

(** [Parser(Lexer(code)).m()] for a method [m] of the parser, keeping the
    value it returns. *)
Definition run {A : Type} (m : M Parser A) (code : pystr) : res A :=
  match Parser_init (Lexer_init code) with
  | Ret p =>
      match m p with
      | Ret (a, _) => Ret a
      | Raise e => Raise e
      | Diverge => Diverge
      end
  | Raise e => Raise e
  | Diverge => Diverge
  end.

(** ** The statements up to the end of the stream *)

(** [statements_to_eof p ss p']: from the parser state [p] on, [ss] are the
    statements that follow one another up to the end of the stream, each one
    read by [statement] from where the one before it ended, and [p'] is the
    state on the end-of-stream token. *)
Inductive statements_to_eof : Parser -> list node -> Parser -> Prop :=
| to_eof_nil p :
    cur_is EOF p = true -> statements_to_eof p [] p
| to_eof_cons p f s p1 ss p' :
    cur_is EOF p = false ->
    statement f p = Ret (s, p1) ->
    statements_to_eof p1 ss p' ->
    statements_to_eof p (s :: ss) p'.

(** ** Headers of the statements that have a body *)

(** What [while_statement] and [if_statement] do before they call [block]. *)
Definition condition_header (fuel : nat) : M Parser node :=
  eat KEYWORD ;;; expr fuel.

(** What [for_statement] does before it calls [block]. *)
Definition for_header (fuel : nat) : M Parser (value * node * node * node) :=
  eat KEYWORD ;;;
  eat LPAREN ;;;
  v <- variable ;;
  eat ASSIGN ;;;
  start <- expr fuel ;;
  eat COMMA ;;;
  end_ <- expr fuel ;;
  step <- (fun p =>
             if cur_is COMMA p then (eat COMMA ;;; expr fuel) p
             else ret NoneNode p) ;;
  eat RPAREN ;;;
  ret (name_of v, start, end_, step).

(** What [function_definition] does before it calls [block]. *)
Definition function_header (fuel : nat) : M Parser (value * list value) :=
  eat KEYWORD ;;;
  v <- variable ;;
  eat LPAREN ;;;
  params <- parameter_list fuel ;;
  eat RPAREN ;;;
  ret (name_of v, params).

(** Shorthands for tokens as the lexer builds them. *)
Definition identifier_token (s : string) : Token :=
  mkToken IDENTIFIER (VStr (str s)).

Definition integer_token (z : Z) : Token := mkToken INTEGER (VInt z).

Definition punct_token (ty : token_type) (s : string) : Token :=
  mkToken ty (VStr (str s)).

(** The characters on which [get_next_token] starts a token. *)
Definition token_start (c : ascii) : bool :=
  isdigit c
  || existsb (Ascii.eqb c)
       ["+"; "-"; "*"; "/"; "%"; "("; ")"; "="; dquote; squote; ","]%char
  || isalpha c || Ascii.eqb c "_".

(** The characters [get_identifier] collects. *)
Definition ident_char (c : ascii) : bool := isalnum c || Ascii.eqb c "_".

(** A character of no class at all: not whitespace, not the start of a
    token, and not one a number or an identifier would take in. *)
Definition stray (c : ascii) : bool :=
  negb (isspace c) && negb (token_start c)
  && negb (number_char c) && negb (ident_char c).

Definition no_quote (c : ascii) : bool :=
  negb (Ascii.eqb c dquote) && negb (Ascii.eqb c squote).

(** The lexer is over [t], with its cursor at or before index [k]. *)
Definition before (t : pystr) (k : nat) (l : Lexer) : Prop :=
  consistent l /\ text l = t /\ position l <= k.

(** One call: it raises, or it returns and the cursor has moved on, but not
    past index [k]. *)
Definition raises_or_passes (t : pystr) (k : nat) (l : Lexer) : Prop :=
  (exists e, get_next_token l = Raise e
             /\ (e = InvalidCharacter \/ e = ValueError))
  \/ (exists tok l', get_next_token l = Ret (tok, l')
                     /\ before t k l' /\ position l < position l').

(** The parser reads a chain from its current token on: as long as the token
    is an operator of the level, it takes the operator and the operand that
    [operand] parses behind it. *)
Inductive parses_chain (level : Token -> bool) (operand : M Parser node)
  : Parser -> list (Token * node) -> Parser -> Prop :=
| chain_end p :
    level (current_token p) = false ->
    parses_chain level operand p [] p
| chain_link p p1 r p2 links p' :
    level (current_token p) = true ->
    next_token p = Ret (tt, p1) ->
    operand p1 = Ret (r, p2) ->
    parses_chain level operand p2 links p' ->
    parses_chain level operand p ((current_token p, r) :: links) p'.

(** The tree that takes the operands of a chain in from left to right. *)
Definition nest (first : node) (links : list (Token * node)) : node :=
  fold_left (fun acc link => BinOpNode acc (fst link) (snd link)) links first.

(** * Vocabulary of the further properties *)

(** The token type of a one-character token. *)
Definition punct_type (c : ascii) : option token_type :=
  if Ascii.eqb c "+" then Some PLUS
  else if Ascii.eqb c "-" then Some MINUS
  else if Ascii.eqb c "*" then Some MULTIPLY
  else if Ascii.eqb c "/" then Some DIVIDE
  else if Ascii.eqb c "%" then Some MODULO
  else if Ascii.eqb c "(" then Some LPAREN
  else if Ascii.eqb c ")" then Some RPAREN
  else if Ascii.eqb c "=" then Some ASSIGN
  else if Ascii.eqb c "," then Some COMMA
  else None.

(** The word is one of the reserved words. *)
Definition is_keyword (s : pystr) : bool :=
  existsb (fun k => pystr_eqb s (str k)) keywords.

(** The value of a token fits its type: a number for a numeric literal, the
    text for a string, a name that is not reserved for an identifier, a
    reserved word for a keyword, the character itself for a one-character
    token, one character or [None] for a char literal, nothing for the end
    of the stream.  A [BOOLEAN] token fits no value. *)
Definition token_ok (tok : Token) : bool :=
  match type tok, tvalue tok with
  | INTEGER, VInt z => (0 <=? z)%Z
  | FLOAT, VFloat _ => true
  | STRING, VStr _ => true
  | CHAR, VStr [_] => true
  | CHAR, VNone => true
  | IDENTIFIER, VStr s => negb (is_keyword s)
  | KEYWORD, VStr s => is_keyword s
  | EOF, VNone => true
  | BOOLEAN, _ => false
  | ty, VStr [c] =>
      match punct_type c with
      | Some ty' => type_eqb ty ty'
      | None => false
      end
  | _, _ => false
  end.

(** The source text of a character inside a string literal: newline, tab,
    the double quote and the backslash are written with a backslash, every
    other character as itself. *)
Definition encode_char (c : ascii) : pystr :=
  if Ascii.eqb c newline then [backslash; "n"%char]
  else if Ascii.eqb c tab then [backslash; "t"%char]
  else if Ascii.eqb c dquote then [backslash; dquote]
  else if Ascii.eqb c backslash then [backslash; backslash]
  else [c].

(** The body of a string literal for the value [v]. *)
Definition encode (v : pystr) : pystr := flat_map encode_char v.

(** A character [isdigit] accepts and [int] and [float] reject. *)
Definition odd_digit (c : ascii) : bool := isdigit c && negb (is_decimal c).

(** The keywords [statement] has a branch for. *)
Definition starts_statement (v : value) : bool :=
  value_is v "if" || value_is v "while" || value_is v "for"
  || value_is v "return".

(** The nodes that end in a block. *)
Definition has_body (n : node) : bool :=
  match n with
  | IfNode _ _ _ _ | WhileNode _ _ | ForNode _ _ _ _ _
  | FunctionDefNode _ _ _ => true
  | _ => false
  end.

(** The nodes of an expression: leaves of the four kinds, and binary nodes
    over them whose operator is one of the five arithmetic tokens. *)
Fixpoint is_expression (n : node) : bool :=
  match n with
  | NumberNode t => type_eqb (type t) INTEGER || type_eqb (type t) FLOAT
  | StringNode t => type_eqb (type t) STRING
  | CharNode t => type_eqb (type t) CHAR
  | VariableNode t => type_eqb (type t) IDENTIFIER
  | BinOpNode l op r =>
      is_expression l && (additive op || multiplicative op)
      && is_expression r
  | _ => false
  end.

(** The nodes a loop adds behind a node with a body: none. *)
Definition body_is_last (added : list node) : Prop :=
  forall pre n post,
    added = pre ++ n :: post -> has_body n = true -> post = [].

Definition is_comma (t : Token) : bool := type_eqb (type t) COMMA.

Definition is_identifier (t : Token) : bool := type_eqb (type t) IDENTIFIER.

(** A chain of commas each followed by an identifier. *)
Definition names_chain (chain : list (Token * Token)) : bool :=
  forallb (fun oa => is_comma (fst oa) && is_identifier (snd oa)) chain.

(** * Properties *)

Unset Implicit Arguments.

(** ** The monad *)

Lemma refines_refl {S A : Type} (m : M S A) : refines m m.
Proof. intros s _. reflexivity. Qed.

Lemma refines_diverge {S A : Type} (m : M S A) : refines diverge m.
Proof. intros s H. exfalso. apply H. reflexivity. Qed.

Lemma refines_bind {S A B : Type} (m m' : M S A) (k k' : A -> M S B) :
  refines m m' -> (forall a, refines (k a) (k' a)) ->
  refines (bind m k) (bind m' k').
Proof.
  intros Hm Hk s. unfold bind. intros H.
  destruct (m s) as [[a s1] | e |] eqn:E.
  - rewrite (Hm s), E by (rewrite E; discriminate). apply Hk. exact H.
  - rewrite (Hm s), E by (rewrite E; discriminate). reflexivity.
  - exfalso. apply H. reflexivity.
Qed.

(** ** Characters *)

Ltac ascii_cases c :=
  let b0 := fresh in let b1 := fresh in let b2 := fresh in
  let b3 := fresh in let b4 := fresh in let b5 := fresh in
  let b6 := fresh in let b7 := fresh in
  destruct c as [b0 b1 b2 b3 b4 b5 b6 b7];
  destruct b0, b1, b2, b3, b4, b5, b6, b7.


Lemma is_decimal_not_space c : is_decimal c = true -> isspace c = false.
Proof. ascii_cases c; intros H; try discriminate H; reflexivity. Qed.


(** ** The cursor *)

Lemma consistent_at_pos l : consistent l -> l = at_pos (text l) (position l).
Proof.
  destruct l as [t k c]. unfold consistent, at_pos. simpl.
  intros ->. reflexivity.
Qed.

Lemma at_pos_consistent t k : consistent (at_pos t k).
Proof. reflexivity. Qed.

Lemma Lexer_init_at_pos t : Lexer_init t = at_pos t 0.
Proof. destruct t; reflexivity. Qed.

Lemma advance_at_pos l : advance l = at_pos (text l) (S (position l)).
Proof.
  unfold advance, at_pos. f_equal.
  destruct (Nat.ltb_spec (S (position l)) (length (text l))) as [H | H].
  - reflexivity.
  - symmetry. apply nth_error_None. exact H.
Qed.

Lemma advance_consistent l : consistent (advance l).
Proof. rewrite advance_at_pos. apply at_pos_consistent. Qed.

Lemma text_at_pos t k : text (at_pos t k) = t.
Proof. reflexivity. Qed.

Lemma position_at_pos t k : position (at_pos t k) = k.
Proof. reflexivity. Qed.

Lemma current_char_advance_end l :
  length (text l) <= S (position l) -> current_char (advance l) = None.
Proof.
  intros H. rewrite advance_at_pos. unfold at_pos. cbn [current_char].
  apply nth_error_None. exact H.
Qed.

Lemma text_advance l : text (advance l) = text l.
Proof. reflexivity. Qed.

Lemma position_advance l : position (advance l) = S (position l).
Proof. reflexivity. Qed.

Lemma current_char_at_pos_app pre suf :
  current_char (at_pos (pre ++ suf) (length pre)) = hd_error suf.
Proof.
  simpl. rewrite nth_error_app2 by lia. rewrite Nat.sub_diag.
  destruct suf; reflexivity.
Qed.

Lemma at_pos_step pre c suf :
  advance (at_pos (pre ++ c :: suf) (length pre))
  = at_pos ((pre ++ [c]) ++ suf) (length (pre ++ [c])).
Proof.
  rewrite advance_at_pos. simpl. rewrite <- app_assoc. simpl.
  rewrite length_app. simpl. f_equal. lia.
Qed.

(** ** The character loop *)

Lemma while_char_eq test fuel acc l :
  while_char test fuel acc l
  = match current_char l with
    | Some c =>
        if test c then
          match fuel with
          | O => Diverge
          | S f => while_char test f (acc ++ [c]) (advance l)
          end
        else Ret (acc, l)
    | None => Ret (acc, l)
    end.
Proof. destruct fuel; reflexivity. Qed.

Lemma while_char_run test run :
  forall pre rest fuel acc,
    forallb test run = true -> stops test rest -> length run <= fuel ->
    while_char test fuel acc (at_pos (pre ++ run ++ rest) (length pre))
    = Ret (acc ++ run,
           at_pos (pre ++ run ++ rest) (length pre + length run)).
Proof.
  induction run as [| c run IH]; intros pre rest fuel acc Hrun Hstop Hfuel;
    rewrite while_char_eq, current_char_at_pos_app.
  - simpl app. rewrite Nat.add_0_r, app_nil_r.
    destruct rest as [| d rest]; simpl; [reflexivity |].
    simpl in Hstop. rewrite Hstop. reflexivity.
  - simpl in Hrun. apply andb_prop in Hrun. destruct Hrun as [Hc Hrun].
    destruct fuel as [| fuel]; [simpl in Hfuel; lia |].
    simpl hd_error. cbv iota. rewrite Hc.
    change ((c :: run) ++ rest) with (c :: run ++ rest).
    rewrite at_pos_step.
    rewrite (IH (pre ++ [c]) rest fuel (acc ++ [c]) Hrun Hstop)
      by (simpl in Hfuel; lia).
    rewrite <- !app_assoc. simpl. rewrite length_app. simpl.
    rewrite <- Nat.add_assoc. reflexivity.
Qed.

(** Where the loop stops, the test fails. *)
Lemma while_char_stops test fuel :
  forall acc l r l',
    while_char test fuel acc l = Ret (r, l') ->
    match current_char l' with
    | Some c => test c = false
    | None => True
    end.
Proof.
  induction fuel as [| fuel IH]; intros acc l r l'; rewrite while_char_eq;
    destruct (current_char l) as [c |] eqn:Ec.
  - destruct (test c) eqn:Et; [discriminate |].
    intros H. injection H as <- <-. rewrite Ec. exact Et.
  - intros H. injection H as <- <-. rewrite Ec. exact I.
  - destruct (test c) eqn:Et; [apply IH |].
    intros H. injection H as <- <-. rewrite Ec. exact Et.
  - intros H. injection H as <- <-. rewrite Ec. exact I.
Qed.

(** The loop keeps the buffer, never moves the cursor back, and keeps the
    cursor fields consistent. *)
Lemma while_char_keeps test fuel :
  forall acc l r l',
    while_char test fuel acc l = Ret (r, l') ->
    text l' = text l /\ position l <= position l'
    /\ (consistent l -> consistent l').
Proof.
  induction fuel as [| fuel IH]; intros acc l r l'; rewrite while_char_eq;
    destruct (current_char l) as [c |] eqn:Ec;
    try (destruct (test c) eqn:Et);
    try discriminate;
    try (intros H; injection H as <- <-; auto).
  intros H. apply IH in H. destruct H as (Ht & Hp & Hc).
  rewrite text_advance, position_advance in *.
  repeat split; [exact Ht | lia |].
  intros _. apply Hc, advance_consistent.
Qed.

(** The loop never raises, and within [lexer_fuel] it finishes. *)
Lemma while_char_finishes test fuel :
  forall acc l,
    length (text l) - position l < fuel ->
    exists r l', while_char test fuel acc l = Ret (r, l').
Proof.
  induction fuel as [| fuel IH]; intros acc l Hf; [lia |].
  rewrite while_char_eq.
  destruct (current_char l) as [c |]; [| eauto].
  destruct (test c); [| eauto].
  destruct (Nat.le_gt_cases (length (text l)) (S (position l))) as [Hend | Hin].
  - rewrite while_char_eq, (current_char_advance_end l Hend). eauto.
  - apply IH. rewrite text_advance, position_advance. lia.
Qed.

(** ** Numerals *)







(** ** Rounding to binary64 *)

Section Rounding.

Local Open Scope Z_scope.







End Rounding.












(** [split_dot] cuts at the first dot. *)
Lemma split_dot_spec s :
  count_occ ascii_dec (fst (split_dot s)) "."%char = 0
  /\ s = fst (split_dot s)
         ++ match snd (split_dot s) with
            | Some fp => "."%char :: fp
            | None => []
            end.
Proof.
  induction s as [| c s [IHc IHs]]; [split; reflexivity |].
  cbn [split_dot]. destruct (Ascii.eqb_spec c ".") as [-> | Hne].
  - split; reflexivity.
  - destruct (split_dot s) as [ip ofp]. simpl in *. split.
    + destruct (ascii_dec c "."); [contradiction | exact IHc].
    + f_equal. exact IHs.
Qed.


Lemma odd_digit_not_decimal s :
  existsb odd_digit s = true -> forallb is_decimal s = false.
Proof.
  induction s as [| c s IH]; [discriminate |].
  cbn [existsb forallb]. intros H. apply orb_prop in H.
  destruct H as [H | H].
  - unfold odd_digit in H. apply andb_prop in H. destruct H as [_ H].
    apply negb_true_iff in H. rewrite H. reflexivity.
  - rewrite (IH H). apply andb_false_r.
Qed.

Lemma fold_decimal_nonneg s :
  forallb is_decimal s = true ->
  forall a, (0 <= a)%Z ->
    (0 <= fold_left (fun acc c => 10 * acc + digit_value c) s a)%Z.
Proof.
  induction s as [| c s IH]; intros Hd a Ha; [exact Ha |].
  cbn [forallb] in Hd. apply andb_prop in Hd. destruct Hd as [Hc Hs].
  cbn [fold_left]. apply (IH Hs).
  unfold is_decimal, in_range in Hc. apply andb_prop in Hc.
  destruct Hc as [Hlo _]. apply Nat.leb_le in Hlo.
  unfold digit_value. lia.
Qed.







(** Neither conversion takes a superscript digit. *)
Lemma py_float_odd_digit s :
  existsb odd_digit s = true -> py_float s = Raise ValueError.
Proof.
  intros Hodd. unfold py_float.
  destruct (split_dot_spec s) as [_ Hs].
  destruct (split_dot s) as [ip ofp]. cbn [fst snd] in Hs.
  rewrite Hs, existsb_app in Hodd. apply orb_prop in Hodd.
  destruct Hodd as [Hodd | Hodd].
  - rewrite (odd_digit_not_decimal ip Hodd). reflexivity.
  - destruct ofp as [fp |]; [| discriminate].
    cbn [existsb] in Hodd.
    change (odd_digit ".") with false in Hodd. cbn [orb] in Hodd.
    rewrite (odd_digit_not_decimal fp Hodd), andb_false_r. reflexivity.
Qed.

Lemma py_int_odd_digit s :
  existsb odd_digit s = true -> py_int s = Raise ValueError.
Proof.
  intros Hodd. unfold py_int. rewrite (odd_digit_not_decimal s Hodd).
  destruct s; reflexivity.
Qed.

(** ** Numeric tokens *)

Lemma isdigit_not_space c : isdigit c = true -> isspace c = false.
Proof. ascii_cases c; intros H; try discriminate H; reflexivity. Qed.

Lemma get_next_token_digit l c :
  current_char l = Some c -> isdigit c = true ->
  get_next_token l = get_number l.
Proof.
  intros Hc Hd. unfold get_next_token, lexer_fuel. cbn [get_next_token_loop].
  rewrite Hc, (isdigit_not_space c Hd), Hd. reflexivity.
Qed.

(** [get_number] takes the whole run and hands it to the conversion. *)
Lemma get_number_run pre run rest :
  forallb number_char run = true -> stops number_char rest ->
  get_number (at_pos (pre ++ run ++ rest) (length pre))
  = let l' := at_pos (pre ++ run ++ rest) (length pre + length run) in
    if existsb (Ascii.eqb ".") run then
      match py_float run with
      | Ret q => Ret (mkToken FLOAT (VFloat q), l')
      | Raise e => Raise e
      | Diverge => Diverge
      end
    else
      match py_int run with
      | Ret z => Ret (mkToken INTEGER (VInt z), l')
      | Raise e => Raise e
      | Diverge => Diverge
      end.
Proof.
  intros Hrun Hstop. unfold get_number, bind.
  fold number_char.
  rewrite (while_char_run number_char run pre rest _ [] Hrun Hstop).
  - cbn [app]. cbv zeta.
    destruct (existsb (Ascii.eqb ".") run);
      [destruct (py_float run) | destruct (py_int run)]; reflexivity.
  - unfold lexer_fuel, at_pos. cbn [text position].
    rewrite !length_app. lia.
Qed.





Lemma current_char_run pre c run rest :
  current_char (at_pos (pre ++ (c :: run) ++ rest) (length pre)) = Some c.
Proof. apply current_char_at_pos_app. Qed.






Lemma lex_odd_digit pre run rest c tl :
  run = c :: tl ->
  isdigit c = true ->
  forallb number_char run = true ->
  stops number_char rest ->
  existsb odd_digit run = true ->
  get_next_token (at_pos (pre ++ run ++ rest) (length pre))
  = Raise ValueError.
Proof.
  intros Hrun Hc Hall Hstop Hodd.
  assert (Hcur : current_char (at_pos (pre ++ run ++ rest) (length pre))
                 = Some c)
    by (rewrite Hrun; apply current_char_run).
  rewrite (get_next_token_digit _ c Hcur Hc).
  rewrite get_number_run by assumption. cbv zeta.
  rewrite (py_float_odd_digit run Hodd), (py_int_odd_digit run Hodd).
  destruct (existsb (Ascii.eqb ".") run); reflexivity.
Qed.


(** ** String and character tokens *)

Lemma get_string_loop_eq fuel acc l :
  get_string_loop fuel acc l
  = match current_char l with
    | None => Ret (acc, l)
    | Some c =>
        if Ascii.eqb c dquote then Ret (acc, l)
        else
          match fuel with
          | O => Diverge
          | S f =>
              if Ascii.eqb c backslash then
                match current_char (advance l) with
                | Some c1 =>
                    get_string_loop f (acc ++ [escape_char c1])
                                    (advance (advance l))
                | None => Raise TypeError
                end
              else get_string_loop f (acc ++ [c]) (advance l)
          end
    end.
Proof.
  destruct fuel; cbn [get_string_loop]; [reflexivity |].
  destruct (current_char l) as [c |]; [| reflexivity].
  destruct (Ascii.eqb c dquote); [reflexivity |].
  destruct (Ascii.eqb c backslash); [| reflexivity].
  destruct (current_char (advance l)) as [c1 |]; [| reflexivity].
  unfold escape_char.
  destruct (Ascii.eqb c1 "n"); [reflexivity |].
  destruct (Ascii.eqb c1 "t"); reflexivity.
Qed.

Lemma at_pos_shift pre mid suf :
  at_pos (pre ++ mid ++ suf) (length pre + length mid)
  = at_pos ((pre ++ mid) ++ suf) (length (pre ++ mid)).
Proof. rewrite <- app_assoc, length_app. reflexivity. Qed.

Lemma get_string_loop_run n :
  forall body v pre rest fuel acc,
    length body <= n -> decode body = Some v -> closes rest ->
    length body <= fuel ->
    get_string_loop fuel acc (at_pos (pre ++ body ++ rest) (length pre))
    = Ret (acc ++ v,
           at_pos (pre ++ body ++ rest) (length pre + length body)).
Proof.
  induction n as [| n IH]; intros body v pre rest fuel acc Hn Hdec Hcl Hfuel;
    rewrite get_string_loop_eq, current_char_at_pos_app.
  - destruct body; [| simpl in Hn; lia].
    injection Hdec as <-. cbn [app length]. rewrite Nat.add_0_r, app_nil_r.
    destruct rest as [| d rest]; [reflexivity |].
    simpl in Hcl. subst d. cbn [hd_error]. rewrite Ascii.eqb_refl. reflexivity.
  - destruct body as [| c body].
    + injection Hdec as <-. cbn [app length]. rewrite Nat.add_0_r, app_nil_r.
      destruct rest as [| d rest]; [reflexivity |].
      simpl in Hcl. subst d. cbn [hd_error]. rewrite Ascii.eqb_refl.
      reflexivity.
    + cbn [app hd_error]. cbn [decode] in Hdec.
      destruct (Ascii.eqb c dquote); [discriminate |].
      destruct fuel as [| fuel]; [simpl in Hfuel; lia |].
      destruct (Ascii.eqb c backslash).
      * destruct body as [| c1 body]; [discriminate |].
        destruct (decode body) as [w |] eqn:Hw; [| discriminate].
        injection Hdec as <-.
        change (c :: (c1 :: body) ++ rest) with (c :: c1 :: body ++ rest).
        rewrite at_pos_step, current_char_at_pos_app. cbn [hd_error].
        rewrite at_pos_step.
        rewrite (IH body w ((pre ++ [c]) ++ [c1]) rest fuel
                    (acc ++ [escape_char c1]));
          [| simpl in Hn; lia | exact Hw | exact Hcl | simpl in Hfuel; lia].
        rewrite <- !app_assoc. cbn [app]. rewrite !length_app. cbn [length].
        do 2 f_equal. f_equal. lia.
      * destruct (decode body) as [w |] eqn:Hw; [| discriminate].
        injection Hdec as <-.
        rewrite at_pos_step.
        rewrite (IH body w (pre ++ [c]) rest fuel (acc ++ [c]));
          [| simpl in Hn; lia | exact Hw | exact Hcl | simpl in Hfuel; lia].
        rewrite <- !app_assoc. cbn [app]. rewrite !length_app. cbn [length].
        do 2 f_equal. f_equal. lia.
Qed.

Lemma get_next_token_dquote l :
  current_char l = Some dquote -> get_next_token l = get_string l.
Proof.
  intros Hc. unfold get_next_token, lexer_fuel. cbn [get_next_token_loop].
  rewrite Hc. reflexivity.
Qed.

Lemma get_next_token_squote l :
  current_char l = Some squote -> get_next_token l = get_char l.
Proof.
  intros Hc. unfold get_next_token, lexer_fuel. cbn [get_next_token_loop].
  rewrite Hc. reflexivity.
Qed.

(** A string literal whose body decodes, closed by a quote or cut off by the
    end of the buffer. *)
Lemma lex_string pre body v rest :
  decode body = Some v -> closes rest ->
  get_next_token (at_pos (pre ++ dquote :: body ++ rest) (length pre))
  = Ret (mkToken STRING (VStr v),
         at_pos (pre ++ dquote :: body ++ rest)
                (S (S (length pre + length body)))).
Proof.
  intros Hdec Hcl.
  rewrite get_next_token_dquote
    by (apply (current_char_at_pos_app pre (dquote :: body ++ rest))).
  unfold get_string. rewrite at_pos_step.
  rewrite (get_string_loop_run (length body) body v (pre ++ [dquote]) rest _ []
             (le_n _) Hdec Hcl).
  - rewrite advance_at_pos, text_at_pos, position_at_pos.
    rewrite <- app_assoc, length_app. cbn [app length].
    do 2 f_equal. f_equal. lia.
  - unfold lexer_fuel. rewrite text_at_pos, position_at_pos.
    rewrite !length_app. cbn [length]. rewrite length_app. lia.
Qed.

(** [get_char] stops one character after the one it returns: on the closing
    quote, not behind it. *)
Lemma lex_char_plain pre c rest :
  c <> backslash ->
  get_next_token (at_pos (pre ++ squote :: c :: rest) (length pre))
  = Ret (mkToken CHAR (VStr [c]),
         at_pos (pre ++ squote :: c :: rest) (length pre + 2)).
Proof.
  intros Hc.
  rewrite get_next_token_squote
    by (apply (current_char_at_pos_app pre (squote :: c :: rest))).
  unfold get_char. rewrite at_pos_step, current_char_at_pos_app.
  cbn [hd_error].
  destruct (Ascii.eqb_spec c backslash) as [E | _]; [contradiction |].
  rewrite advance_at_pos, text_at_pos, position_at_pos.
  rewrite <- app_assoc, length_app. cbn [app length].
  do 2 f_equal. f_equal. lia.
Qed.

Lemma lex_char_escape pre c rest :
  get_next_token (at_pos (pre ++ squote :: backslash :: c :: rest) (length pre))
  = Ret (mkToken CHAR (VStr [escape_char c]),
         at_pos (pre ++ squote :: backslash :: c :: rest) (length pre + 3)).
Proof.
  rewrite get_next_token_squote
    by (apply (current_char_at_pos_app pre (squote :: backslash :: c :: rest))).
  unfold get_char. rewrite at_pos_step, current_char_at_pos_app.
  cbn [hd_error]. rewrite Ascii.eqb_refl.
  rewrite at_pos_step, current_char_at_pos_app. cbn [hd_error].
  assert (E : forall X (k : value * Lexer -> X) l,
             (let (result, l1) :=
                if Ascii.eqb c "n" then (VStr [newline], l)
                else if Ascii.eqb c "t" then (VStr [tab], l)
                else (VStr [c], l) in k (result, l1))
             = k (VStr [escape_char c], l)).
  { intros X k l. unfold escape_char.
    destruct (Ascii.eqb c "n"); [reflexivity |].
    destruct (Ascii.eqb c "t"); reflexivity. }
  rewrite (E _ (fun rl => Ret (mkToken CHAR (fst rl), advance (snd rl)))).
  cbn [fst snd].
  rewrite advance_at_pos, text_at_pos, position_at_pos.
  rewrite <- !app_assoc, !length_app. cbn [app length].
  do 2 f_equal. f_equal. lia.
Qed.

(** ** Every call of the lexer *)

Lemma get_next_token_loop_eq fuel l :
  get_next_token_loop fuel l
  = match current_char l with
    | None => Ret (mkToken EOF VNone, l)
    | Some c =>
        if isspace c then
          match fuel with
          | O => Diverge
          | S f => (skip_whitespace ;;; get_next_token_loop f) l
          end
        else token_at c l
    end.
Proof. destruct fuel; reflexivity. Qed.

Lemma get_string_loop_keeps fuel :
  forall acc l r l',
    get_string_loop fuel acc l = Ret (r, l') ->
    text l' = text l /\ (consistent l -> consistent l').
Proof.
  induction fuel as [| fuel IH]; intros acc l r l';
    rewrite get_string_loop_eq;
    destruct (current_char l) as [c |];
    try (destruct (Ascii.eqb c dquote));
    try discriminate;
    try (intros H; injection H as <- <-; auto).
  destruct (Ascii.eqb c backslash).
  - destruct (current_char (advance l)); [| discriminate].
    intros H. apply IH in H. destruct H as [Ht Hc]. split; [exact Ht |].
    intros _. apply Hc, advance_consistent.
  - intros H. apply IH in H. destruct H as [Ht Hc]. split; [exact Ht |].
    intros _. apply Hc, advance_consistent.
Qed.

Lemma get_string_loop_finishes fuel :
  forall acc l,
    length (text l) - position l < fuel ->
    get_string_loop fuel acc l <> Diverge.
Proof.
  induction fuel as [| fuel IH]; intros acc l Hf; [lia |].
  rewrite get_string_loop_eq.
  destruct (current_char l) as [c |]; [| discriminate].
  destruct (Ascii.eqb c dquote); [discriminate |].
  destruct (Ascii.eqb c backslash).
  - destruct (current_char (advance l)) as [c1 |] eqn:E1; [| discriminate].
    assert (S (position l) < length (text l)).
    { rewrite advance_at_pos in E1. unfold at_pos in E1.
      cbn [current_char] in E1. apply nth_error_Some. congruence. }
    apply IH. rewrite !text_advance, !position_advance. lia.
  - destruct (Nat.le_gt_cases (length (text l)) (S (position l)))
      as [Hend | Hin].
    + rewrite get_string_loop_eq, (current_char_advance_end l Hend).
      discriminate.
    + apply IH. rewrite text_advance, position_advance. lia.
Qed.

Lemma token_at_keeps c l tok l' :
  token_at c l = Ret (tok, l') ->
  text l' = text l /\ (consistent l -> consistent l').
Proof.
  unfold token_at, punct.
  repeat match goal with
         | |- context [if ?b then _ else _] => destruct b
         end;
    try discriminate;
    try (intros H; injection H as <- <-; split;
         [reflexivity | intros _; apply advance_consistent]).
  - unfold get_number, bind.
    destruct (while_char _ _ _ l) as [[r l1] | |] eqn:E; try discriminate.
    apply while_char_keeps in E. destruct E as (Ht & _ & Hc).
    destruct (existsb _ r);
      [destruct (py_float r) | destruct (py_int r)];
      try discriminate; intros H; injection H as <- <-; auto.
  - unfold get_string.
    destruct (get_string_loop _ _ _) as [[r l1] | |] eqn:E; try discriminate.
    apply get_string_loop_keeps in E. destruct E as [Ht _].
    intros H. injection H as <- <-.
    split; [rewrite text_advance, Ht; reflexivity |].
    intros _. apply advance_consistent.
  - unfold get_char.
    destruct (current_char (advance l)) as [d |].
    + destruct (Ascii.eqb d backslash).
      * destruct (current_char (advance (advance l))) as [d1 |];
          [destruct (Ascii.eqb d1 "n"); [| destruct (Ascii.eqb d1 "t")] |];
          intros H; injection H as <- <-;
          (split; [reflexivity | intros _; apply advance_consistent]).
      * intros H; injection H as <- <-;
          (split; [reflexivity | intros _; apply advance_consistent]).
    + intros H; injection H as <- <-;
        (split; [reflexivity | intros _; apply advance_consistent]).
  - unfold get_identifier, bind.
    destruct (while_char _ _ _ l) as [[r l1] | |] eqn:E; try discriminate.
    apply while_char_keeps in E. destruct E as (Ht & _ & Hc).
    destruct (existsb _ keywords); intros H; injection H as <- <-; auto.
Qed.

Lemma token_at_finishes c l : token_at c l <> Diverge.
Proof.
  unfold token_at, punct.
  repeat match goal with
         | |- context [if ?b then _ else _] => destruct b
         end;
    try discriminate.
  - unfold get_number, bind.
    destruct (while_char_finishes (fun c => isdigit c || Ascii.eqb c ".")
                (lexer_fuel l) [] l) as (r & l1 & ->);
      [unfold lexer_fuel; lia |].
    destruct (existsb _ r);
      [destruct (py_float r) eqn:E | destruct (py_int r) eqn:E];
      try discriminate.
    + unfold py_float in E. destruct (split_dot r).
      destruct (_ && _); discriminate.
    + unfold py_int in E. destruct r; [discriminate |].
      destruct (forallb _ _); [destruct (_ <=? _) |]; discriminate.
  - unfold get_string.
    pose proof (get_string_loop_finishes (lexer_fuel l) [] (advance l)) as H.
    destruct (get_string_loop _ _ _) as [[r l1] | |]; try discriminate.
    exfalso. apply H; [| reflexivity].
    unfold lexer_fuel. rewrite text_advance, position_advance. lia.
  - unfold get_char.
    destruct (match current_char (advance l) with Some _ => _ | None => _ end).
    discriminate.
  - unfold get_identifier, bind.
    destruct (while_char_finishes (fun c => isalnum c || Ascii.eqb c "_")
                (lexer_fuel l) [] l) as (r & l1 & ->);
      [unfold lexer_fuel; lia |].
    destruct (existsb _ keywords); discriminate.
Qed.

(** A call of [get_next_token] that returns leaves the buffer as it is and
    the cursor fields consistent. *)
Lemma get_next_token_keeps l tok l' :
  get_next_token l = Ret (tok, l') ->
  text l' = text l /\ (consistent l -> consistent l').
Proof.
  unfold get_next_token. rewrite get_next_token_loop_eq.
  destruct (current_char l) as [c |];
    [| intros H; injection H as <- <-; auto].
  destruct (isspace c); [| apply token_at_keeps].
  unfold lexer_fuel, skip_whitespace, bind.
  destruct (while_char isspace _ [] l) as [[r l1] | |] eqn:E;
    try discriminate.
  unfold ret. rewrite get_next_token_loop_eq.
  pose proof (while_char_stops _ _ _ _ _ _ E) as Hs.
  apply while_char_keeps in E. destruct E as (Ht & _ & Hc).
  destruct (current_char l1) as [d |].
  - rewrite Hs. intros H. apply token_at_keeps in H.
    destruct H as [Ht' Hc']. split; [congruence | auto].
  - intros H; injection H as <- <-; auto.
Qed.

(** The bound [lexer_fuel] is never reached: a call returns or raises. *)
Lemma get_next_token_total l : get_next_token l <> Diverge.
Proof.
  unfold get_next_token. rewrite get_next_token_loop_eq.
  destruct (current_char l) as [c |]; [| discriminate].
  destruct (isspace c); [| apply token_at_finishes].
  unfold lexer_fuel at 1. unfold skip_whitespace, bind.
  destruct (while_char_finishes isspace (lexer_fuel l) [] l) as (r & l1 & E);
    [unfold lexer_fuel; lia |].
  rewrite E. unfold ret. rewrite get_next_token_loop_eq.
  pose proof (while_char_stops _ _ _ _ _ _ E) as Hs.
  destruct (current_char l1) as [d |]; [| discriminate].
  rewrite Hs. apply token_at_finishes.
Qed.

Lemma Lexer_init_consistent t : consistent (Lexer_init t).
Proof. rewrite Lexer_init_at_pos. apply at_pos_consistent. Qed.

Lemma reachable_consistent t l :
  reachable t l -> text l = t /\ consistent l.
Proof.
  induction 1 as [| l tok l' _ [IHt IHc] Hcall].
  - split; [reflexivity | apply Lexer_init_consistent].
  - apply get_next_token_keeps in Hcall. destruct Hcall as [Ht Hc].
    split; [congruence | auto].
Qed.

Lemma get_next_token_at_end l :
  consistent l -> length (text l) <= position l ->
  get_next_token l = Ret (mkToken EOF VNone, l).
Proof.
  intros Hc Hend. unfold get_next_token. rewrite get_next_token_loop_eq.
  rewrite Hc, (proj2 (nth_error_None _ _) Hend). reflexivity.
Qed.

Lemma calls_at_end l n :
  consistent l -> length (text l) <= position l ->
  calls n l = Ret (repeat (mkToken EOF VNone) n, l).
Proof.
  intros Hc Hend. induction n as [| n IH]; [reflexivity |].
  cbn [calls repeat]. unfold bind at 1.
  rewrite (get_next_token_at_end l Hc Hend).
  unfold bind. rewrite IH. reflexivity.
Qed.

(** ** Claims about the lexer *)








(** C9.  In every state the lexer can be in with its cursor at or behind the
    end of the buffer, any number of further calls return the end-of-stream
    token each and leave the lexer, cursor included, as it is. *)
Theorem eof_forever (t : pystr) (l : Lexer) (n : nat) :
  reachable t l ->
  length t <= position l ->
  calls n l = Ret (repeat (mkToken EOF VNone) n, l)
  /\ get_next_token l = Ret (mkToken EOF VNone, l).
Proof.
  intros Hr Hend. destruct (reachable_consistent t l Hr) as [Ht Hc].
  rewrite <- Ht in Hend. split.
  - apply calls_at_end; assumption.
  - apply get_next_token_at_end; assumption.
Qed.

(** C9, witness: after the one token of [ab ]. *)
Lemma eof_forever_witness :
  calls 3 (at_pos (str "ab ") 3)
  = Ret (repeat (mkToken EOF VNone) 3, at_pos (str "ab ") 3)
  /\ get_next_token (at_pos (str "ab ") 3)
     = Ret (mkToken EOF VNone, at_pos (str "ab ") 3).
Proof.
  assert (H1 : reachable (str "ab ") (at_pos (str "ab ") 2)).
  { exact (@reach_call (str "ab ") (Lexer_init (str "ab "))
             (mkToken IDENTIFIER (VStr (str "ab")))
             (at_pos (str "ab ") 2) (@reach_init _) eq_refl). }
  assert (H2 : reachable (str "ab ") (at_pos (str "ab ") 3)).
  { exact (@reach_call (str "ab ") (at_pos (str "ab ") 2)
             (mkToken EOF VNone) (at_pos (str "ab ") 3) H1 eq_refl). }
  exact (eof_forever (str "ab ") (at_pos (str "ab ") 3) 3 H2 (le_n 3)).
Defined.

(** C8.  The values are as claimed: the six characters of the string
    literal with body [a\nb] lex to [a], newline, [b] and the next token is
    the end of the stream; the four characters of the char literal
    with body [\t] lex to a tab.  But [get_char] stops on the closing quote
    instead of behind it, and the next call reads that quote as the opening
    of a second char literal; an assignment of the char literal to a
    variable is a syntax error for that reason. *)
Theorem char_literal_leaves_quote :
  let string_lit := dquote :: str "a" ++ backslash :: str "nb" ++ [dquote] in
  let char_lit := squote :: backslash :: str "t" ++ [squote] in
  calls 2 (Lexer_init string_lit)
  = Ret ([mkToken STRING (VStr ["a"%char; newline; "b"%char]);
          mkToken EOF VNone],
         at_pos string_lit 6)
  /\ get_next_token (Lexer_init char_lit)
     = Ret (mkToken CHAR (VStr [tab]), at_pos char_lit 3)
  /\ current_char (at_pos char_lit 3) = Some squote
  /\ calls 2 (Lexer_init char_lit)
     = Ret ([mkToken CHAR (VStr [tab]); mkToken CHAR VNone],
            at_pos char_lit 5)
  /\ parse 8 (str "c = " ++ char_lit) = Raise InvalidSyntax.
Proof. repeat split. Qed.

(** C10.  A string literal cut off by the end of the buffer right after a
    backslash raises [TypeError]. *)
Theorem unterminated_string_backslash :
  get_next_token (Lexer_init [dquote; "a"%char; backslash]) = Raise TypeError.
Proof. reflexivity. Qed.

(** Any other unterminated string literal is returned as a token, and the
    lexer is then at the end of the stream. *)
Lemma unterminated_string_token pre body v :
  decode body = Some v ->
  let l := at_pos (pre ++ dquote :: body) (length pre) in
  exists l',
    get_next_token l = Ret (mkToken STRING (VStr v), l')
    /\ get_next_token l' = Ret (mkToken EOF VNone, l').
Proof.
  intros Hdec l. subst l.
  pose proof (lex_string pre body v [] Hdec I) as H.
  rewrite app_nil_r in H. eexists. split; [exact H |].
  apply get_next_token_at_end; [apply at_pos_consistent |].
  rewrite text_at_pos, position_at_pos, length_app. cbn [length]. lia.
Qed.

(** ** Fuel *)

Lemma bind_fuel {S A B : Type} (m m' : M S A) (k k' : A -> M S B) s :
  refines m m' ->
  (forall a s1, k a s1 <> Diverge -> k' a s1 = k a s1) ->
  bind m k s <> Diverge -> bind m' k' s = bind m k s.
Proof. intros Hm Hk. apply (refines_bind m m' k k' Hm). exact Hk. Qed.

(** One step of a proof that more fuel refines less: through a sequence,
    through a test on the state, down to a call covered by a hypothesis. *)
Ltac fuel_step :=
  match goal with
  | |- refines diverge _ => apply refines_diverge
  | |- refines ?m ?m => apply refines_refl
  | H : refines ?m ?m' |- refines ?m ?m' => exact H
  | H : forall x, refines (?m x) (?m' x) |- refines (?m _) (?m' _) => apply H
  | |- refines (bind _ _) (bind _ _) => apply refines_bind; [| intro]
  | |- refines _ _ => let p := fresh "p" in intros p; cbv beta zeta
  | |- ?x <> Diverge -> ?x = ?x => intros _; reflexivity
  | |- bind _ _ _ <> Diverge -> bind _ _ _ = bind _ _ _ =>
      apply bind_fuel; [| intros ? ?]
  | H : refines ?m ?m' |- ?m ?p <> Diverge -> ?m' ?p = ?m ?p => apply H
  | H : forall x, refines (?m x) (?m' x)
    |- ?m ?y ?p <> Diverge -> ?m' ?y ?p = ?m ?y ?p => apply H
  | |- context [if ?b then _ else _] => destruct b
  | |- _ => progress cbv beta zeta
  end.

Ltac fuel_auto := repeat fuel_step.

Lemma expr_fuel f :
  forall f', f <= f' ->
    refines (factor f) (factor f')
    /\ refines (term f) (term f')
    /\ (forall nd, refines (term_loop f nd) (term_loop f' nd))
    /\ refines (expr f) (expr f')
    /\ (forall nd, refines (expr_loop f nd) (expr_loop f' nd)).
Proof.
  induction f as [| f IH]; intros f' Hle.
  - repeat split; intros; apply refines_diverge.
  - destruct f' as [| f']; [lia |].
    destruct (IH f' ltac:(lia)) as (Hfactor & Hterm & Htl & Hexpr & Hel).
    repeat split; intros; cbn [factor term term_loop expr expr_loop];
      fuel_auto.
Qed.

Lemma expr_refines f f' : f <= f' -> refines (expr f) (expr f').
Proof. intros H. apply (expr_fuel f f' H). Qed.

Lemma term_refines f f' : f <= f' -> refines (term f) (term f').
Proof. intros H. apply (expr_fuel f f' H). Qed.

Lemma argument_list_loop_fuel f :
  forall f' args, f <= f' ->
    refines (argument_list_loop f args) (argument_list_loop f' args).
Proof.
  induction f as [| f IH]; intros f' args Hle; [apply refines_diverge |].
  destruct f' as [| f']; [lia |].
  pose proof (expr_refines f f' ltac:(lia)) as He.
  pose proof (fun a => IH f' a ltac:(lia)) as Hl.
  cbn [argument_list_loop]. fuel_auto.
Qed.

Lemma argument_list_fuel f f' :
  f <= f' -> refines (argument_list f) (argument_list f').
Proof.
  intros Hle.
  pose proof (expr_refines f f' Hle) as He.
  pose proof (fun a => argument_list_loop_fuel f f' a Hle) as Hl.
  unfold argument_list. fuel_auto.
Qed.

Lemma function_call_fuel f f' :
  f <= f' -> refines (function_call f) (function_call f').
Proof.
  intros Hle. pose proof (argument_list_fuel f f' Hle) as Ha.
  unfold function_call. fuel_auto.
Qed.

Lemma parameter_list_loop_fuel f :
  forall f' params, f <= f' ->
    refines (parameter_list_loop f params) (parameter_list_loop f' params).
Proof.
  induction f as [| f IH]; intros f' params Hle; [apply refines_diverge |].
  destruct f' as [| f']; [lia |].
  pose proof (fun a => IH f' a ltac:(lia)) as Hl.
  cbn [parameter_list_loop]. fuel_auto.
Qed.

Lemma parameter_list_fuel f f' :
  f <= f' -> refines (parameter_list f) (parameter_list f').
Proof.
  intros Hle.
  pose proof (fun a => parameter_list_loop_fuel f f' a Hle) as Hl.
  unfold parameter_list. fuel_auto.
Qed.

Lemma assignment_statement_fuel f f' :
  f <= f' -> refines (assignment_statement f) (assignment_statement f').
Proof.
  intros Hle. pose proof (expr_refines f f' Hle) as He.
  unfold assignment_statement. fuel_auto.
Qed.

Lemma return_statement_fuel f f' :
  f <= f' -> refines (return_statement f) (return_statement f').
Proof.
  intros Hle. pose proof (expr_refines f f' Hle) as He.
  unfold return_statement. fuel_auto.
Qed.

Lemma statement_fuel f :
  forall f', f <= f' ->
    refines (statement f) (statement f')
    /\ (forall ss, refines (block_loop f ss) (block_loop f' ss))
    /\ (forall es, refines (elif_loop f es) (elif_loop f' es))
    /\ refines (if_statement f) (if_statement f')
    /\ refines (while_statement f) (while_statement f')
    /\ refines (for_statement f) (for_statement f').
Proof.
  induction f as [| f IH]; intros f' Hle.
  - repeat split; intros; apply refines_diverge.
  - destruct f' as [| f']; [lia |].
    destruct (IH f' ltac:(lia)) as (Hst & Hbl & Hel & Hif & Hwh & Hfor).
    pose proof (expr_refines f f' ltac:(lia)) as He.
    pose proof (function_call_fuel f f' ltac:(lia)) as Hfc.
    pose proof (assignment_statement_fuel f f' ltac:(lia)) as Has.
    pose proof (return_statement_fuel f f' ltac:(lia)) as Hrs.
    repeat split; intros;
      cbn [statement block_loop elif_loop if_statement while_statement
           for_statement];
      fuel_auto.
Qed.

Lemma block_fuel f f' : f <= f' -> refines (block f) (block f').
Proof. intros H. apply (statement_fuel f f' H). Qed.

Lemma function_definition_fuel f f' :
  f <= f' -> refines (function_definition f) (function_definition f').
Proof.
  intros Hle.
  pose proof (parameter_list_fuel f f' Hle) as Hp.
  pose proof (block_fuel f f' Hle) as Hb.
  unfold function_definition. fuel_auto.
Qed.

Lemma program_loop_fuel f :
  forall f' nodes, f <= f' ->
    refines (program_loop f nodes) (program_loop f' nodes).
Proof.
  induction f as [| f IH]; intros f' nodes Hle; [apply refines_diverge |].
  destruct f' as [| f']; [lia |].
  pose proof (fun a => IH f' a ltac:(lia)) as Hl.
  pose proof (function_definition_fuel f f' ltac:(lia)) as Hfd.
  pose proof (proj1 (statement_fuel f f' ltac:(lia))) as Hst.
  cbn [program_loop]. fuel_auto.
Qed.

(** A parse that returns or raises with some fuel does the same with any
    more. *)
Lemma parse_fuel f f' code :
  f <= f' -> parse f code <> Diverge -> parse f' code = parse f code.
Proof.
  intros Hle. unfold parse, program.
  destruct (Parser_init (Lexer_init code)) as [p | e |]; try reflexivity.
  pose proof (program_loop_fuel f f' [] Hle p) as H.
  destruct (program_loop f [] p) as [[ast p'] | e |] eqn:E.
  - rewrite H by discriminate. reflexivity.
  - rewrite H by discriminate. reflexivity.
  - intros Hd. exfalso. apply Hd. reflexivity.
Qed.

(** ** Statements that match no branch *)

Lemma statement_falls_through f p :
  cur_is KEYWORD p = true ->
  value_is (tvalue (current_token p)) "if" = false ->
  value_is (tvalue (current_token p)) "while" = false ->
  value_is (tvalue (current_token p)) "for" = false ->
  value_is (tvalue (current_token p)) "return" = false ->
  statement (S f) p = Ret (NoneNode, p).
Proof.
  intros Hk Hif Hwhile Hfor Hreturn. cbn [statement].
  rewrite Hk, Hif, Hwhile, Hfor, Hreturn. reflexivity.
Qed.

Lemma cur_is_exclusive ty ty' p :
  cur_is ty p = true -> ty <> ty' -> cur_is ty' p = false.
Proof.
  unfold cur_is, type_eqb. intros H Hne.
  destruct (token_type_eq_dec (type (current_token p)) ty) as [E | _];
    [| discriminate].
  destruct (token_type_eq_dec (type (current_token p)) ty') as [E' | _];
    [congruence | reflexivity].
Qed.

(** On such a keyword the loop of [program] goes round for ever: the
    statement returns [None] and the token stays. *)
Lemma program_stuck_on_keyword p :
  cur_is KEYWORD p = true ->
  value_is (tvalue (current_token p)) "if" = false ->
  value_is (tvalue (current_token p)) "while" = false ->
  value_is (tvalue (current_token p)) "for" = false ->
  value_is (tvalue (current_token p)) "return" = false ->
  value_is (tvalue (current_token p)) "fun" = false ->
  forall fuel nodes, program_loop fuel nodes p = Diverge.
Proof.
  intros Hk Hif Hwhile Hfor Hreturn Hfun.
  induction fuel as [| f IH]; intros nodes; [reflexivity |].
  cbn [program_loop]. unfold cur_keyword.
  rewrite (cur_is_exclusive KEYWORD EOF p Hk) by discriminate.
  rewrite Hfun, andb_false_r. cbn [negb]. unfold bind.
  destruct f as [| f]; [reflexivity |].
  rewrite (statement_falls_through f p Hk Hif Hwhile Hfor Hreturn).
  apply IH.
Qed.

(** The same inside a block. *)
Lemma block_stuck_on_keyword p :
  cur_is KEYWORD p = true ->
  value_is (tvalue (current_token p)) "if" = false ->
  value_is (tvalue (current_token p)) "while" = false ->
  value_is (tvalue (current_token p)) "for" = false ->
  value_is (tvalue (current_token p)) "return" = false ->
  forall fuel statements, block_loop fuel statements p = Diverge.
Proof.
  intros Hk Hif Hwhile Hfor Hreturn.
  induction fuel as [| f IH]; intros statements; [reflexivity |].
  cbn [block_loop].
  rewrite (cur_is_exclusive KEYWORD EOF p Hk) by discriminate.
  cbn [negb]. unfold bind.
  destruct f as [| f]; [reflexivity |].
  rewrite (statement_falls_through f p Hk Hif Hwhile Hfor Hreturn).
  apply IH.
Qed.

(** C1.  On the first line of the example at the end of the file,
    [var x = 10], [Parser.program] neither returns nor raises: whatever the
    number of steps allowed, it has not finished. *)
Theorem program_diverges_on_var :
  forall fuel, parse fuel (str "var x = 10") = Diverge.
Proof.
  intros fuel. unfold parse.
  change (Parser_init (Lexer_init (str "var x = 10")))
    with (Ret (mkParser (at_pos (str "var x = 10") 3)
                        (mkToken KEYWORD (VStr (str "var"))))).
  unfold program.
  rewrite program_stuck_on_keyword; reflexivity.
Qed.

(** ** Claims about the parser *)

Lemma run_from {A : Type} (m : nat -> M Parser A) f code r :
  (forall f', f <= f' -> refines (m f) (m f')) ->
  run (m f) code = r -> r <> Diverge -> forall k, run (m (f + k)) code = r.
Proof.
  intros Hm H Hr k. rewrite <- H in *. unfold run in *.
  destruct (Parser_init (Lexer_init code)) as [p | e |]; try reflexivity.
  pose proof (Hm (f + k) ltac:(lia) p) as Hp.
  destruct (m f p) as [[a p'] | e |] eqn:E.
  - rewrite Hp by discriminate. reflexivity.
  - rewrite Hp by discriminate. reflexivity.
  - exfalso. apply Hr. reflexivity.
Qed.

Lemma parse_from f code r :
  parse f code = r -> r <> Diverge -> forall k, parse (f + k) code = r.
Proof.
  intros H Hr k. rewrite <- H. apply parse_fuel; [lia | congruence].
Qed.

Lemma calls_cons n l tok toks l' :
  calls (S n) l = Ret (tok :: toks, l') ->
  exists l1, get_next_token l = Ret (tok, l1) /\ calls n l1 = Ret (toks, l').
Proof.
  cbn [calls]. unfold bind.
  destruct (get_next_token l) as [[t1 l1] | |]; try discriminate.
  destruct (calls n l1) as [[ts l2] | |] eqn:E; try discriminate.
  unfold ret. intros H. injection H as -> -> ->. eauto.
Qed.

Lemma eat_current p :
  eat (type (current_token p)) p = next_token p.
Proof.
  unfold eat, type_eqb.
  destruct (token_type_eq_dec _ _) as [_ | n]; [reflexivity | contradiction].
Qed.

Lemma next_token_ret l a tok l1 :
  get_next_token l = Ret (tok, l1) ->
  next_token (mkParser l a) = Ret (tt, mkParser l1 tok).
Proof. intros H. unfold next_token. cbn [lexer]. rewrite H. reflexivity. Qed.

(** [factor] on an atom: the leaf, and the parser on the next token. *)
Lemma factor_atom f l a tok l1 :
  atom a = true -> get_next_token l = Ret (tok, l1) ->
  factor (S f) (mkParser l a) = Ret (leaf a, mkParser l1 tok).
Proof.
  intros Ha Hn. cbn [factor]. cbv zeta. cbn [current_token].
  unfold atom in Ha. unfold leaf.
  destruct a as [ty v]. cbn [type] in *.
  destruct ty; try discriminate Ha; cbn [type_eqb token_type_eq_dec];
    unfold bind;
    match goal with
    | |- context [eat ?ty ?p] =>
        change (eat ty p) with (eat (type (current_token p)) p)
    end;
    rewrite eat_current, (next_token_ret _ _ _ _ Hn); reflexivity.
Qed.

Lemma multiplicative_cur l t :
  cur_is MULTIPLY (mkParser l t) || cur_is DIVIDE (mkParser l t)
  || cur_is MODULO (mkParser l t) = multiplicative t.
Proof. reflexivity. Qed.

Lemma additive_cur l t :
  cur_is PLUS (mkParser l t) || cur_is MINUS (mkParser l t) = additive t.
Proof. reflexivity. Qed.

Lemma eat_multiplicative op p :
  current_token p = op -> multiplicative op = true ->
  (if type_eqb (type op) MULTIPLY then eat MULTIPLY
   else if type_eqb (type op) DIVIDE then eat DIVIDE
   else if type_eqb (type op) MODULO then eat MODULO
   else ret tt) p = next_token p.
Proof.
  intros <- Hm. rewrite <- eat_current. unfold multiplicative in Hm.
  destruct (type (current_token p)); try discriminate Hm; reflexivity.
Qed.

Lemma eat_additive op p :
  current_token p = op -> additive op = true ->
  (if type_eqb (type op) PLUS then eat PLUS
   else if type_eqb (type op) MINUS then eat MINUS
   else ret tt) p = next_token p.
Proof.
  intros <- Hm. rewrite <- eat_current. unfold additive in Hm.
  destruct (type (current_token p)); try discriminate Hm; reflexivity.
Qed.

(** The head of what follows an operand: an operator of the chain, or the
    token that stops it. *)
Lemma chain_head level chain stop t ts :
  chain_of level chain = true ->
  t :: ts = chain_tokens chain ++ [stop] ->
  level t = true \/ t = stop.
Proof.
  destruct chain as [| [op a] chain];
    cbn [chain_of forallb chain_tokens flat_map app].
  - intros _ H. injection H as -> _. right. reflexivity.
  - intros H E. injection E as -> _. cbn [fst] in H.
    apply andb_prop in H. destruct H as [H _].
    apply andb_prop in H. left. tauto.
Qed.

Lemma term_loop_chain chain :
  forall acc t ts l l' stop f,
    chain_of multiplicative chain = true ->
    multiplicative stop = false ->
    t :: ts = chain_tokens chain ++ [stop] ->
    calls (length ts) l = Ret (ts, l') ->
    length chain + 2 <= f ->
    term_loop f acc (mkParser l t)
    = Ret (left_nested acc chain, mkParser l' stop).
Proof.
  induction chain as [| [op a] chain IH];
    intros acc t ts l l' stop f Hchain Hstop Hts Hcalls Hf;
    (destruct f as [| f]; [lia |]); cbn [term_loop];
    rewrite multiplicative_cur.
  - cbn [chain_tokens flat_map app] in Hts. injection Hts as -> ->.
    cbn [length calls] in Hcalls. unfold ret in Hcalls.
    injection Hcalls as <-. rewrite Hstop. reflexivity.
  - cbn [chain_tokens flat_map app fst snd] in Hts.
    injection Hts as -> ->.
    cbn [chain_of forallb fst snd] in Hchain.
    apply andb_prop in Hchain. destruct Hchain as [Hopa Hchain].
    apply andb_prop in Hopa. destruct Hopa as [Hop Ha].
    rewrite Hop. cbv zeta. cbn [current_token].
    cbn [length] in Hcalls. apply calls_cons in Hcalls.
    destruct Hcalls as (l1 & Hn1 & Hcalls).
    destruct (flat_map (fun oa => [fst oa; snd oa]) chain ++ [stop])
      as [| t2 ts2] eqn:Etail;
      [destruct chain; discriminate Etail |].
    cbn [length] in Hcalls. apply calls_cons in Hcalls.
    destruct Hcalls as (l2 & Hn2 & Hcalls).
    unfold bind at 1.
    rewrite (eat_multiplicative op (mkParser l op) eq_refl Hop).
    rewrite (next_token_ret l op a l1 Hn1).
    unfold bind at 1.
    destruct f as [| f]; [cbn [length] in Hf; lia |].
    rewrite (factor_atom f l1 a t2 l2 Ha Hn2).
    rewrite (IH (BinOpNode acc op (leaf a)) t2 ts2 l2 l' stop (S f)
                Hchain Hstop (eq_sym Etail) Hcalls)
      by (cbn [length] in Hf; lia).
    reflexivity.
Qed.

Lemma term_chain a0 chain l l' stop f :
  atom a0 = true ->
  chain_of multiplicative chain = true ->
  multiplicative stop = false ->
  calls (length (chain_tokens chain ++ [stop])) l
  = Ret (chain_tokens chain ++ [stop], l') ->
  length chain + 4 <= f ->
  term f (mkParser l a0)
  = Ret (left_nested (leaf a0) chain, mkParser l' stop).
Proof.
  intros Ha Hchain Hstop Hcalls Hf.
  destruct f as [| [| f]]; try lia. cbn [term]. unfold bind.
  destruct (chain_tokens chain ++ [stop]) as [| t ts] eqn:Etoks;
    [destruct chain; discriminate Etoks |].
  cbn [length] in Hcalls. apply calls_cons in Hcalls.
  destruct Hcalls as (l1 & Hn1 & Hcalls).
  rewrite (factor_atom f l a0 t l1 Ha Hn1).
  apply (term_loop_chain chain (leaf a0) t ts l1 l' stop (S f));
    auto; lia.
Qed.

Lemma additive_not_multiplicative t :
  additive t = true -> multiplicative t = false.
Proof.
  unfold additive, multiplicative.
  destruct (type t); try discriminate; reflexivity.
Qed.

Lemma calls_one l t l1 :
  get_next_token l = Ret (t, l1) -> calls 1 l = Ret ([t], l1).
Proof. intros H. cbn [calls]. unfold bind. rewrite H. reflexivity. Qed.

(** [term] on an atom that no multiplicative operator follows. *)
Lemma term_atom f l a t l1 :
  atom a = true -> get_next_token l = Ret (t, l1) ->
  multiplicative t = false ->
  term (4 + f) (mkParser l a) = Ret (leaf a, mkParser l1 t).
Proof.
  intros Ha Hn Ht.
  apply (term_chain a [] l l1 t (4 + f) Ha eq_refl Ht (calls_one l t l1 Hn)).
  cbn [length]. lia.
Qed.

Lemma expr_loop_chain chain :
  forall acc t ts l l' stop f,
    chain_of additive chain = true ->
    additive stop = false ->
    multiplicative stop = false ->
    t :: ts = chain_tokens chain ++ [stop] ->
    calls (length ts) l = Ret (ts, l') ->
    length chain + 5 <= f ->
    expr_loop f acc (mkParser l t)
    = Ret (left_nested acc chain, mkParser l' stop).
Proof.
  induction chain as [| [op a] chain IH];
    intros acc t ts l l' stop f Hchain Hstop Hstop' Hts Hcalls Hf;
    (destruct f as [| f]; [lia |]); cbn [expr_loop];
    rewrite additive_cur.
  - cbn [chain_tokens flat_map app] in Hts. injection Hts as -> ->.
    cbn [length calls] in Hcalls. unfold ret in Hcalls.
    injection Hcalls as <-. rewrite Hstop. reflexivity.
  - cbn [chain_tokens flat_map app fst snd] in Hts.
    injection Hts as -> ->.
    cbn [chain_of forallb fst snd] in Hchain.
    apply andb_prop in Hchain. destruct Hchain as [Hopa Hchain].
    apply andb_prop in Hopa. destruct Hopa as [Hop Ha].
    rewrite Hop. cbv zeta. cbn [current_token].
    cbn [length] in Hcalls. apply calls_cons in Hcalls.
    destruct Hcalls as (l1 & Hn1 & Hcalls).
    destruct (flat_map (fun oa => [fst oa; snd oa]) chain ++ [stop])
      as [| t2 ts2] eqn:Etail;
      [destruct chain; discriminate Etail |].
    cbn [length] in Hcalls. apply calls_cons in Hcalls.
    destruct Hcalls as (l2 & Hn2 & Hcalls).
    assert (Ht2 : multiplicative t2 = false).
    { destruct (chain_head additive chain stop t2 ts2 Hchain (eq_sym Etail))
        as [H | ->]; [apply additive_not_multiplicative, H | exact Hstop']. }
    unfold bind at 1.
    rewrite (eat_additive op (mkParser l op) eq_refl Hop).
    rewrite (next_token_ret l op a l1 Hn1).
    unfold bind at 1.
    cbn [length] in Hf.
    replace f with (4 + (f - 4)) at 1 by lia.
    rewrite (term_atom (f - 4) l1 a t2 l2 Ha Hn2 Ht2).
    apply (IH (BinOpNode acc op (leaf a)) t2 ts2 l2 l' stop f
              Hchain Hstop Hstop' (eq_sym Etail) Hcalls).
    lia.
Qed.

Lemma expr_chain a0 chain l l' stop f :
  atom a0 = true ->
  chain_of additive chain = true ->
  additive stop = false ->
  multiplicative stop = false ->
  calls (length (chain_tokens chain ++ [stop])) l
  = Ret (chain_tokens chain ++ [stop], l') ->
  length chain + 6 <= f ->
  expr f (mkParser l a0)
  = Ret (left_nested (leaf a0) chain, mkParser l' stop).
Proof.
  intros Ha Hchain Hstop Hstop' Hcalls Hf.
  destruct f as [| f]; [lia |]. cbn [expr]. unfold bind.
  destruct (chain_tokens chain ++ [stop]) as [| t ts] eqn:Etoks;
    [destruct chain; discriminate Etoks |].
  cbn [length] in Hcalls. apply calls_cons in Hcalls.
  destruct Hcalls as (l1 & Hn1 & Hcalls).
  assert (Ht : multiplicative t = false).
  { destruct (chain_head additive chain stop t ts Hchain (eq_sym Etoks))
      as [H | ->]; [apply additive_not_multiplicative, H | exact Hstop']. }
  replace f with (4 + (f - 4)) at 1 by lia.
  rewrite (term_atom (f - 4) l a0 t l1 Ha Hn1 Ht).
  apply (expr_loop_chain chain (leaf a0) t ts l1 l' stop f); auto; lia.
Qed.

Lemma factor_refines f f' : f <= f' -> refines (factor f) (factor f').
Proof. intros H. apply (expr_fuel f f' H). Qed.

Lemma additive_cur_token p :
  cur_is PLUS p || cur_is MINUS p = additive (current_token p).
Proof. reflexivity. Qed.

Lemma multiplicative_cur_token p :
  cur_is MULTIPLY p || cur_is DIVIDE p || cur_is MODULO p
  = multiplicative (current_token p).
Proof. reflexivity. Qed.

(** Whatever operands [term] parses, [expr_loop] nests them to the left. *)
Lemma expr_loop_links f p links p' :
  parses_chain additive (term f) p links p' ->
  forall acc g, f + length links < g ->
    expr_loop g acc p = Ret (nest acc links, p').
Proof.
  induction 1 as [p Hend | p p1 r p2 links p' Hop Hnext Hterm _ IH];
    intros acc g Hg; (destruct g as [| g]; [lia |]);
    cbn [expr_loop]; rewrite additive_cur_token.
  - rewrite Hend. reflexivity.
  - rewrite Hop. cbv zeta. unfold bind at 1.
    rewrite (eat_additive (current_token p) p eq_refl Hop), Hnext.
    unfold bind at 1. cbn [length] in Hg.
    rewrite (term_refines f g ltac:(lia) p1), Hterm
      by (rewrite Hterm; discriminate).
    apply IH. lia.
Qed.

(** Whatever operands [factor] parses, [term_loop] nests them to the
    left. *)
Lemma term_loop_links f p links p' :
  parses_chain multiplicative (factor f) p links p' ->
  forall acc g, f + length links < g ->
    term_loop g acc p = Ret (nest acc links, p').
Proof.
  induction 1 as [p Hend | p p1 r p2 links p' Hop Hnext Hfactor _ IH];
    intros acc g Hg; (destruct g as [| g]; [lia |]);
    cbn [term_loop]; rewrite multiplicative_cur_token.
  - rewrite Hend. reflexivity.
  - rewrite Hop. cbv zeta. unfold bind at 1.
    rewrite (eat_multiplicative (current_token p) p eq_refl Hop), Hnext.
    unfold bind at 1. cbn [length] in Hg.
    rewrite (factor_refines f g ltac:(lia) p1), Hfactor
      by (rewrite Hfactor; discriminate).
    apply IH. lia.
Qed.

Lemma expr_links f p0 first p links p' g :
  term f p0 = Ret (first, p) ->
  parses_chain additive (term f) p links p' ->
  S (f + length links) < g ->
  expr g p0 = Ret (nest first links, p').
Proof.
  intros Hfirst Hchain Hg. destruct g as [| g]; [lia |].
  cbn [expr]. unfold bind.
  rewrite (term_refines f g ltac:(lia) p0), Hfirst
    by (rewrite Hfirst; discriminate).
  apply (expr_loop_links f p links p' Hchain). lia.
Qed.

Lemma term_links f p0 first p links p' g :
  factor f p0 = Ret (first, p) ->
  parses_chain multiplicative (factor f) p links p' ->
  S (f + length links) < g ->
  term g p0 = Ret (nest first links, p').
Proof.
  intros Hfirst Hchain Hg. destruct g as [| g]; [lia |].
  cbn [term]. unfold bind.
  rewrite (factor_refines f g ltac:(lia) p0), Hfirst
    by (rewrite Hfirst; discriminate).
  apply (term_loop_links f p links p' Hchain). lia.
Qed.

(** C6.  Chains of one level nest to the left.  The expression [1 - 2 - 3]
    parses to the subtraction whose left operand is the subtraction of 1 and
    2 and whose right operand is 3.  In general, whatever operands [term]
    parses between the operators [+] and [-], [expr] returns the tree that
    takes them in from left to right, and so does [term] with the operands
    [factor] parses between [*], [/] and [%].  In particular, when the tokens
    from the parser's position on are an atom, then operators of one level
    each followed by an atom, then a token that continues neither level,
    [expr] and [term] return the left-nested tree of the atoms and stop on
    that token. *)
Theorem left_associative_chains :
  (forall k,
      run (expr (6 + k)) (str "1 - 2 - 3")
      = Ret (BinOpNode
               (BinOpNode (NumberNode (mkToken INTEGER (VInt 1)))
                          (mkToken MINUS (VStr (str "-")))
                          (NumberNode (mkToken INTEGER (VInt 2))))
               (mkToken MINUS (VStr (str "-")))
               (NumberNode (mkToken INTEGER (VInt 3)))))
  /\ (forall a0 chain stop l l' k,
        atom a0 = true ->
        chain_of additive chain = true ->
        additive stop = false ->
        multiplicative stop = false ->
        calls (length (chain_tokens chain ++ [stop])) l
        = Ret (chain_tokens chain ++ [stop], l') ->
        expr (length chain + 6 + k) (mkParser l a0)
        = Ret (left_nested (leaf a0) chain, mkParser l' stop))
  /\ (forall a0 chain stop l l' k,
        atom a0 = true ->
        chain_of multiplicative chain = true ->
        multiplicative stop = false ->
        calls (length (chain_tokens chain ++ [stop])) l
        = Ret (chain_tokens chain ++ [stop], l') ->
        term (length chain + 4 + k) (mkParser l a0)
        = Ret (left_nested (leaf a0) chain, mkParser l' stop))
  /\ (forall f p0 first p links p' g,
        term f p0 = Ret (first, p) ->
        parses_chain additive (term f) p links p' ->
        S (f + length links) < g ->
        expr g p0 = Ret (nest first links, p'))
  /\ (forall f p0 first p links p' g,
        factor f p0 = Ret (first, p) ->
        parses_chain multiplicative (factor f) p links p' ->
        S (f + length links) < g ->
        term g p0 = Ret (nest first links, p')).
Proof.
  repeat apply conj.
  - apply (run_from expr 6); [apply expr_refines | reflexivity | discriminate].
  - intros a0 chain stop l l' k Ha Hchain Hstop Hstop' Hcalls.
    apply expr_chain; auto. lia.
  - intros a0 chain stop l l' k Ha Hchain Hstop Hcalls.
    apply term_chain; auto. lia.
  - apply expr_links.
  - apply term_links.
Qed.

(** C6, witness: [a + b - c] in front of a closing parenthesis,
    [a * b / c % d] in front of a plus, and [1 - 2 * 3 - 4], whose middle
    operand is a product. *)
Lemma left_associative_chains_witness :
  expr 8 (mkParser (at_pos (str "a + b - c)") 1) (identifier_token "a"))
  = Ret (BinOpNode
           (BinOpNode (VariableNode (identifier_token "a"))
                      (punct_token PLUS "+")
                      (VariableNode (identifier_token "b")))
           (punct_token MINUS "-")
           (VariableNode (identifier_token "c")),
         mkParser (at_pos (str "a + b - c)") 10) (punct_token RPAREN ")"))
  /\ term 7 (mkParser (at_pos (str "a * b / c % d + 1") 1)
                      (identifier_token "a"))
     = Ret (BinOpNode
              (BinOpNode
                 (BinOpNode (VariableNode (identifier_token "a"))
                            (punct_token MULTIPLY "*")
                            (VariableNode (identifier_token "b")))
                 (punct_token DIVIDE "/")
                 (VariableNode (identifier_token "c")))
              (punct_token MODULO "%")
              (VariableNode (identifier_token "d")),
            mkParser (at_pos (str "a * b / c % d + 1") 15)
                     (punct_token PLUS "+"))
  /\ expr 9 (mkParser (at_pos (str "1 - 2 * 3 - 4") 1) (integer_token 1))
     = Ret (BinOpNode
              (BinOpNode
                 (NumberNode (integer_token 1))
                 (punct_token MINUS "-")
                 (BinOpNode (NumberNode (integer_token 2))
                            (punct_token MULTIPLY "*")
                            (NumberNode (integer_token 3))))
              (punct_token MINUS "-")
              (NumberNode (integer_token 4)),
            mkParser (at_pos (str "1 - 2 * 3 - 4") 13) (mkToken EOF VNone)).
Proof.
  split; [| split].
  - exact (proj1 (proj2 left_associative_chains) (identifier_token "a")
             [(punct_token PLUS "+", identifier_token "b");
              (punct_token MINUS "-", identifier_token "c")]
             (punct_token RPAREN ")")
             (at_pos (str "a + b - c)") 1) (at_pos (str "a + b - c)") 10) 0
             eq_refl eq_refl eq_refl eq_refl eq_refl).
  - exact (proj1 (proj2 (proj2 left_associative_chains))
             (identifier_token "a")
             [(punct_token MULTIPLY "*", identifier_token "b");
              (punct_token DIVIDE "/", identifier_token "c");
              (punct_token MODULO "%", identifier_token "d")]
             (punct_token PLUS "+")
             (at_pos (str "a * b / c % d + 1") 1)
             (at_pos (str "a * b / c % d + 1") 15) 0
             eq_refl eq_refl eq_refl eq_refl).
  - refine (proj1 (proj2 (proj2 (proj2 left_associative_chains))) 5
              (mkParser (at_pos (str "1 - 2 * 3 - 4") 1) (integer_token 1))
              (NumberNode (integer_token 1))
              (mkParser (at_pos (str "1 - 2 * 3 - 4") 3)
                        (punct_token MINUS "-"))
              [(punct_token MINUS "-",
                BinOpNode (NumberNode (integer_token 2))
                          (punct_token MULTIPLY "*")
                          (NumberNode (integer_token 3)));
               (punct_token MINUS "-", NumberNode (integer_token 4))]
              (mkParser (at_pos (str "1 - 2 * 3 - 4") 13) (mkToken EOF VNone))
              9 eq_refl _ (le_n 9)).
    refine (@chain_link additive (term 5)
              (mkParser (at_pos (str "1 - 2 * 3 - 4") 3)
                        (punct_token MINUS "-"))
              (mkParser (at_pos (str "1 - 2 * 3 - 4") 5) (integer_token 2))
              _
              (mkParser (at_pos (str "1 - 2 * 3 - 4") 11)
                        (punct_token MINUS "-"))
              _ _ eq_refl eq_refl eq_refl _).
    refine (@chain_link additive (term 5)
              (mkParser (at_pos (str "1 - 2 * 3 - 4") 11)
                        (punct_token MINUS "-"))
              (mkParser (at_pos (str "1 - 2 * 3 - 4") 13) (integer_token 4))
              _
              (mkParser (at_pos (str "1 - 2 * 3 - 4") 13) (mkToken EOF VNone))
              _ _ eq_refl eq_refl eq_refl _).
    exact (@chain_end additive (term 5)
             (mkParser (at_pos (str "1 - 2 * 3 - 4") 13) (mkToken EOF VNone))
             eq_refl).
Defined.

(** ** Blocks *)

(** A block that returns has read up to the end of the stream. *)
Lemma block_loop_eof f :
  forall ss p body p',
    block_loop f ss p = Ret (body, p') -> cur_is EOF p' = true.
Proof.
  induction f as [| f IH]; intros ss p body p'; [discriminate |].
  cbn [block_loop]. destruct (cur_is EOF p) eqn:E; cbn [negb].
  - intros H. injection H as <- <-. exact E.
  - unfold bind. destruct (statement f p) as [[s p1] | |]; try discriminate.
    apply IH.
Qed.

Ltac split_bind :=
  unfold bind;
  repeat match goal with
         | |- match ?x with _ => _ end = _ =>
             destruct x as [[? ?] | ? |]; cbv beta iota; try reflexivity
         end.

Lemma for_statement_split f p :
  for_statement (S f) p
  = (h <- for_header f ;;
     body <- block f ;;
     ret (let '(var_name, start, end_, step) := h in
          ForNode var_name start end_ step body)) p.
Proof.
  cbn [for_statement]. unfold for_header, block. split_bind.
Qed.

Lemma while_statement_split f p :
  while_statement (S f) p
  = (condition <- condition_header f ;;
     body <- block f ;;
     ret (WhileNode condition body)) p.
Proof.
  cbn [while_statement]. unfold condition_header, block. split_bind.
Qed.

Lemma function_definition_split f p :
  function_definition f p
  = (h <- function_header f ;;
     body <- block f ;;
     ret (FunctionDefNode (fst h) (snd h) body)) p.
Proof.
  unfold function_definition, function_header, block. split_bind.
Qed.

(** After a block there is no [elif] and no [else] to see. *)
Lemma cur_keyword_eof s p : cur_is EOF p = true -> cur_keyword s p = false.
Proof.
  intros H. unfold cur_keyword.
  rewrite (cur_is_exclusive EOF KEYWORD p H) by discriminate. reflexivity.
Qed.

Lemma if_statement_split f p n p' :
  if_statement (S f) p = Ret (n, p') ->
  exists condition p1 body,
    condition_header f p = Ret (condition, p1)
    /\ block f p1 = Ret (body, p')
    /\ n = IfNode condition body [] None.
Proof.
  cbn [if_statement]. unfold condition_header, block, bind.
  destruct (eat KEYWORD p) as [[u p0] | |]; try discriminate.
  destruct (expr f p0) as [[condition p1] | |]; try discriminate.
  destruct (block_loop f [] p1) as [[body p2] | |] eqn:Eb; try discriminate.
  pose proof (block_loop_eof f [] p1 body p2 Eb) as Heof.
  destruct f as [| f]; [discriminate |]. cbn [elif_loop].
  rewrite (cur_keyword_eof "elif" p2 Heof). unfold ret. cbv beta iota.
  rewrite (cur_keyword_eof "else" p2 Heof).
  intros H. injection H as <- <-. eauto 6.
Qed.

(** What [block] returns is the row of statements up to the end of the
    stream. *)
Lemma block_loop_statements f :
  forall acc p body p',
    block_loop f acc p = Ret (body, p') ->
    exists ss, body = acc ++ ss /\ statements_to_eof p ss p'.
Proof.
  induction f as [| f IH]; intros acc p body p'; [discriminate |].
  cbn [block_loop]. destruct (cur_is EOF p) eqn:E; cbn [negb].
  - intros H. injection H as <- <-. exists []. rewrite app_nil_r.
    split; [reflexivity | apply to_eof_nil, E].
  - unfold bind. destruct (statement f p) as [[s p1] | |] eqn:Es;
      try discriminate.
    intros H. destruct (IH _ _ _ _ H) as (ss & -> & Hss).
    exists (s :: ss). rewrite <- app_assoc. split; [reflexivity |].
    exact (@to_eof_cons p f s p1 ss p' E Es Hss).
Qed.

(** And every such row is returned by [block], given fuel enough. *)
Lemma statements_block_loop p ss p' :
  statements_to_eof p ss p' ->
  exists f0, forall f acc,
      f0 <= f -> block_loop f acc p = Ret (acc ++ ss, p').
Proof.
  induction 1 as [p E | p f s p1 ss p' E Es Hss [f1 IH]].
  - exists 1. intros g acc Hg. destruct g as [| g]; [lia |].
    cbn [block_loop]. rewrite E, app_nil_r. reflexivity.
  - exists (S (Nat.max f f1)). intros g acc Hg. destruct g as [| g]; [lia |].
    cbn [block_loop]. rewrite E. cbn [negb]. unfold bind.
    rewrite (proj1 (statement_fuel f g ltac:(lia)) p), Es
      by (rewrite Es; discriminate).
    rewrite (IH g (acc ++ [s])) by lia.
    rewrite <- app_assoc. reflexivity.
Qed.

Lemma statements_to_eof_end p ss p' :
  statements_to_eof p ss p' -> cur_is EOF p' = true.
Proof. induction 1; assumption. Qed.

Lemma block_statements f p body p' :
  block f p = Ret (body, p') -> statements_to_eof p body p'.
Proof.
  intros H. destruct (block_loop_statements f [] p body p' H) as (ss & -> & Hss).
  exact Hss.
Qed.

(** C2 (amended).  A block ends only at the end of the stream, and the body
    of a construct is exactly the row of statements that stand between its
    header and the end of the stream.  What [block] returns is that row,
    every statement of it in its place, with the parser left on the
    end-of-stream token; the row is the only one there is, and [block]
    returns it whenever there is one.  So whenever a [for], [while], [if] or
    function definition parses, its body holds all the statements behind its
    header, and an [if] has no [elif] and no [else] branch.  A header the
    grammar accepts, [for (i = 0, 5, i + 1)], followed by three statements
    gives the for-node with variable [i], start 0, end 5, step [i + 1] and
    the three statements in its body. *)
Theorem body_runs_to_end_of_stream :
  (forall f p body p',
      block f p = Ret (body, p') -> statements_to_eof p body p')
  /\ (forall p ss p',
        statements_to_eof p ss p' ->
        cur_is EOF p' = true
        /\ (exists f0, forall k, block (f0 + k) p = Ret (ss, p'))
        /\ (forall ss2 p2,
               statements_to_eof p ss2 p2 -> ss2 = ss /\ p2 = p'))
  /\ (forall f p n p',
        for_statement (S f) p = Ret (n, p') ->
        exists var_name start end_ step p1 body,
          for_header f p = Ret ((var_name, start, end_, step), p1)
          /\ statements_to_eof p1 body p'
          /\ n = ForNode var_name start end_ step body)
  /\ (forall f p n p',
        while_statement (S f) p = Ret (n, p') ->
        exists condition p1 body,
          condition_header f p = Ret (condition, p1)
          /\ statements_to_eof p1 body p'
          /\ n = WhileNode condition body)
  /\ (forall f p n p',
        if_statement (S f) p = Ret (n, p') ->
        exists condition p1 body,
          condition_header f p = Ret (condition, p1)
          /\ statements_to_eof p1 body p'
          /\ n = IfNode condition body [] None)
  /\ (forall f p n p',
        function_definition f p = Ret (n, p') ->
        exists name params p1 body,
          function_header f p = Ret ((name, params), p1)
          /\ statements_to_eof p1 body p'
          /\ n = FunctionDefNode name params body)
  /\ (forall k,
        parse (10 + k) (str "for (i = 0, 5, i + 1) x = 1 y = 2 f(x)")
        = Ret [ForNode (VStr (str "i"))
                 (NumberNode (integer_token 0))
                 (NumberNode (integer_token 5))
                 (BinOpNode (VariableNode (identifier_token "i"))
                            (punct_token PLUS "+")
                            (NumberNode (integer_token 1)))
                 [AssignNode (VariableNode (identifier_token "x"))
                             (punct_token ASSIGN "=")
                             (NumberNode (integer_token 1));
                  AssignNode (VariableNode (identifier_token "y"))
                             (punct_token ASSIGN "=")
                             (NumberNode (integer_token 2));
                  FunctionCallNode (VariableNode (identifier_token "f"))
                                   [VariableNode (identifier_token "x")]]]).
Proof.
  repeat apply conj.
  - apply block_statements.
  - intros p ss p' Hss. split; [exact (statements_to_eof_end p ss p' Hss) |].
    destruct (statements_block_loop p ss p' Hss) as [f0 H0]. split.
    + exists f0. intros k. exact (H0 (f0 + k) [] ltac:(lia)).
    + intros ss2 p2 Hss2. destruct (statements_block_loop p ss2 p2 Hss2) as [f2 H2].
      pose proof (H0 (Nat.max f0 f2) [] ltac:(lia)) as Ha.
      pose proof (H2 (Nat.max f0 f2) [] ltac:(lia)) as Hb.
      rewrite Ha in Hb. cbn [app] in Hb. injection Hb as -> ->. auto.
  - intros f p n p'. rewrite for_statement_split. unfold bind.
    destruct (for_header f p) as [[[[[var_name start] end_] step] p1] | |];
      try discriminate.
    destruct (block f p1) as [[body p2] | |] eqn:Eb; try discriminate.
    unfold ret. intros H. injection H as <- <-.
    exists var_name, start, end_, step, p1, body.
    split; [reflexivity |]. split; [exact (block_statements f p1 body p2 Eb) | auto].
  - intros f p n p'. rewrite while_statement_split. unfold bind.
    destruct (condition_header f p) as [[condition p1] | |];
      try discriminate.
    destruct (block f p1) as [[body p2] | |] eqn:Eb; try discriminate.
    unfold ret. intros H. injection H as <- <-.
    exists condition, p1, body.
    split; [reflexivity |]. split; [exact (block_statements f p1 body p2 Eb) | auto].
  - intros f p n p' H.
    destruct (if_statement_split f p n p' H) as (c & p1 & body & Hh & Hb & Hn).
    exists c, p1, body.
    split; [exact Hh |]. split; [exact (block_statements f p1 body p' Hb) | exact Hn].
  - intros f p n p'. rewrite function_definition_split. unfold bind.
    destruct (function_header f p) as [[[name params] p1] | |];
      try discriminate.
    destruct (block f p1) as [[body p2] | |] eqn:Eb; try discriminate.
    unfold ret. intros H. injection H as <- <-.
    exists name, params, p1, body.
    split; [reflexivity |]. split; [exact (block_statements f p1 body p2 Eb) | auto].
  - apply parse_from; [reflexivity | discriminate].
Qed.

(** C2, witness: behind the header of [while x y = 1 z = 2] stand the two
    assignments, and they are what the block there returns. *)
Lemma body_runs_to_end_of_stream_witness :
  statements_to_eof
    (mkParser (at_pos (str "while x y = 1 z = 2") 9) (identifier_token "y"))
    [AssignNode (VariableNode (identifier_token "y"))
                (punct_token ASSIGN "=")
                (NumberNode (integer_token 1));
     AssignNode (VariableNode (identifier_token "z"))
                (punct_token ASSIGN "=")
                (NumberNode (integer_token 2))]
    (mkParser (at_pos (str "while x y = 1 z = 2") 19) (mkToken EOF VNone)).
Proof.
  exact (proj1 body_runs_to_end_of_stream 9
           (mkParser (at_pos (str "while x y = 1 z = 2") 9)
                     (identifier_token "y"))
           _ _ eq_refl).
Defined.

(** C2, counterexample: the header of the claim does not parse.  The lexer
    has no token for [<], and the call raises when it reaches it; and with a
    number in the place of the comparison, the step [i = i + 1] is no
    expression: [expr] stops in front of its [=], where the closing
    parenthesis is due. *)
Lemma for_header_of_claim_raises :
  parse 20 (str "for (i = 0, i < 5, i = i + 1) x = 1")
  = Raise InvalidCharacter
  /\ parse 20 (str "for (i = 0, 5, i = i + 1) x = 1") = Raise InvalidSyntax.
Proof. split; reflexivity. Qed.

(** ** Errors *)

Lemma token_at_unrecognized c l :
  token_start c = false -> token_at c l = Raise InvalidCharacter.
Proof.
  unfold token_start, token_at. cbn [existsb]. intros H.
  repeat match goal with
         | E : _ || _ = false |- _ =>
             apply orb_false_elim in E; destruct E
         end.
  repeat match goal with
         | E : _ = false |- _ => rewrite E; clear E
         end.
  reflexivity.
Qed.

Lemma skip_whitespace_run pre ws rest :
  forallb isspace ws = true -> stops isspace rest ->
  skip_whitespace (at_pos (pre ++ ws ++ rest) (length pre))
  = Ret (tt, at_pos (pre ++ ws ++ rest) (length pre + length ws)).
Proof.
  intros Hws Hstop. unfold skip_whitespace, bind.
  rewrite (while_char_run isspace ws pre rest _ [] Hws Hstop); [reflexivity |].
  unfold lexer_fuel. rewrite text_at_pos, position_at_pos, !length_app. lia.
Qed.

(** A character that is neither whitespace nor the start of a token, after
    any amount of whitespace. *)
Lemma lex_unrecognized pre ws c rest :
  forallb isspace ws = true ->
  isspace c = false -> token_start c = false ->
  get_next_token (at_pos (pre ++ ws ++ c :: rest) (length pre))
  = Raise InvalidCharacter.
Proof.
  intros Hws Hsp Hts. unfold get_next_token.
  rewrite get_next_token_loop_eq, current_char_at_pos_app.
  destruct ws as [| w ws].
  - cbn [app hd_error]. rewrite Hsp. apply token_at_unrecognized, Hts.
  - cbn [forallb] in Hws. apply andb_prop in Hws. destruct Hws as [Hw Hws'].
    cbn [app hd_error]. rewrite Hw. unfold lexer_fuel at 1.
    unfold bind.
    change (w :: ws ++ c :: rest) with ((w :: ws) ++ c :: rest).
    rewrite (skip_whitespace_run pre (w :: ws) (c :: rest));
      [| cbn [forallb]; rewrite Hw, Hws'; reflexivity | exact Hsp].
    rewrite get_next_token_loop_eq, at_pos_shift, current_char_at_pos_app.
    cbn [hd_error]. rewrite Hsp. apply token_at_unrecognized, Hts.
Qed.

(** Where the lexer and the parser raise.  When the next character after any
    whitespace is neither the start of a token nor whitespace,
    [get_next_token] raises the lexer's error and returns no token; when the
    current token is not of the type [eat] is asked for, [eat] raises the
    parser's error.  Nothing catches either one: a missing closing
    parenthesis and a stray [@] end the parse with the respective error, and
    of two errors in one input the first is the one the caller sees. *)
Lemma first_error_is_fatal :
  (forall pre ws c rest,
      forallb isspace ws = true ->
      isspace c = false -> token_start c = false ->
      get_next_token (at_pos (pre ++ ws ++ c :: rest) (length pre))
      = Raise InvalidCharacter)
  /\ (forall ty p,
        type (current_token p) <> ty -> eat ty p = Raise InvalidSyntax)
  /\ (forall k, parse (9 + k) (str "x = (1 + 2") = Raise InvalidSyntax)
  /\ (forall k, parse (6 + k) (str "x = 1 @ 2") = Raise InvalidCharacter)
  /\ (forall k, parse (6 + k) (str "x = ) @") = Raise InvalidSyntax)
  /\ (forall k, parse (6 + k) (str "x = @ )") = Raise InvalidCharacter).
Proof.
  repeat apply conj.
  - apply lex_unrecognized.
  - intros ty p Hne. unfold eat, type_eqb.
    destruct (token_type_eq_dec (type (current_token p)) ty) as [E | _];
      [contradiction | reflexivity].
  - apply parse_from; [reflexivity | discriminate].
  - apply parse_from; [reflexivity | discriminate].
  - apply parse_from; [reflexivity | discriminate].
  - apply parse_from; [reflexivity | discriminate].
Qed.

(** An [@] after two spaces, and [eat] asked for a closing parenthesis at
    the end of the stream. *)
Lemma first_error_examples :
  get_next_token (at_pos (str "x  @") 1) = Raise InvalidCharacter
  /\ eat RPAREN (mkParser (at_pos (str "(1") 2) (mkToken EOF VNone))
     = Raise InvalidSyntax.
Proof.
  split.
  - exact (proj1 first_error_is_fatal (str "x") (str "  ") "@"%char []
             eq_refl eq_refl eq_refl).
  - exact (proj1 (proj2 first_error_is_fatal) RPAREN
             (mkParser (at_pos (str "(1") 2) (mkToken EOF VNone))
             ltac:(discriminate)).
Qed.

(** C3.  An [@] right behind the char literal with body [a] raises nothing:
    [get_char] has left the cursor on the closing quote, the next call takes
    that quote for the opening of another char literal and returns the [@]
    as its value, and the call after it reports the end of the stream. *)
Theorem stray_character_read_as_char_literal :
  calls 3 (Lexer_init (squote :: str "a" ++ squote :: str "@"))
  = Ret ([mkToken CHAR (VStr (str "a")); mkToken CHAR (VStr (str "@"));
          mkToken EOF VNone],
         at_pos (squote :: str "a" ++ squote :: str "@") 4).
Proof. reflexivity. Qed.

Lemma get_next_token_nonspace l c :
  current_char l = Some c -> isspace c = false ->
  get_next_token l = token_at c l.
Proof.
  intros Hc Hsp. unfold get_next_token.
  rewrite get_next_token_loop_eq, Hc, Hsp. reflexivity.
Qed.

Lemma get_next_token_space l c r l1 c1 :
  current_char l = Some c -> isspace c = true ->
  while_char isspace (lexer_fuel l) [] l = Ret (r, l1) ->
  current_char l1 = Some c1 ->
  get_next_token l = token_at c1 l1.
Proof.
  intros Hc Hsp E Hc1. unfold get_next_token.
  rewrite get_next_token_loop_eq, Hc, Hsp. unfold lexer_fuel at 1.
  unfold skip_whitespace, bind. rewrite E. unfold ret.
  rewrite get_next_token_loop_eq, Hc1.
  pose proof (while_char_stops _ _ _ _ _ _ E) as Hs. rewrite Hc1 in Hs.
  rewrite Hs. reflexivity.
Qed.

(** ** A stray character in a text without quotes *)

Section Stray.

Variables (t : pystr) (k : nat) (c : ascii).
Hypothesis Hk : nth_error t k = Some c.
Hypothesis Hstray : stray c = true.
Hypothesis Hquotes : forallb no_quote t = true.

Lemma stray_classes :
  isspace c = false /\ token_start c = false
  /\ number_char c = false /\ ident_char c = false.
Proof.
  unfold stray in Hstray.
  repeat match goal with
         | H : _ && _ = true |- _ => apply andb_prop in H; destruct H
         end.
  repeat split; apply negb_true_iff; assumption.
Qed.

Lemma before_stray_char l :
  before t k l -> exists d, current_char l = Some d /\ In d t.
Proof.
  intros (Hc & Ht & Hp). rewrite Hc, Ht.
  destruct (nth_error t (position l)) as [d |] eqn:E.
  - exists d. split; [reflexivity |]. eapply nth_error_In, E.
  - apply nth_error_None in E.
    assert (k < length t) by (apply nth_error_Some; congruence). lia.
Qed.

Lemma before_stray_at_k l d :
  before t k l -> current_char l = Some d -> position l = k -> d = c.
Proof.
  intros (Hc & Ht & _) Hd E. rewrite Hc, Ht, E, Hk in Hd. congruence.
Qed.

Lemma before_stray_advance l d :
  before t k l -> current_char l = Some d -> d <> c ->
  before t k (advance l).
Proof.
  intros Hl Hd Hne. pose proof Hl as (Hc & Ht & Hp).
  repeat split;
    [apply advance_consistent | rewrite text_advance; exact Ht |].
  rewrite position_advance.
  destruct (Nat.eq_dec (position l) k) as [E | E]; [| lia].
  elim Hne. apply (before_stray_at_k l d Hl Hd E).
Qed.

(** A loop whose test the stray character fails stops before it or on
    it. *)
Lemma while_char_before_stray test fuel :
  test c = false ->
  forall acc l,
    before t k l -> length t - position l < fuel ->
    exists r l',
      while_char test fuel acc l = Ret (r, l')
      /\ before t k l'
      /\ position l <= position l'
      /\ (forall d, current_char l = Some d -> test d = true ->
                    position l < position l').
Proof.
  intros Htest. induction fuel as [| fuel IH]; intros acc l Hl Hf; [lia |].
  rewrite while_char_eq.
  destruct (before_stray_char l Hl) as (d & Hd & _). rewrite Hd.
  destruct (test d) eqn:Etd.
  - assert (Hne : d <> c) by (intros ->; congruence).
    pose proof (before_stray_advance l d Hl Hd Hne) as Hl1.
    pose proof Hl as (_ & Ht & Hp).
    destruct (IH (acc ++ [d]) (advance l) Hl1) as (r & l' & E & Hl' & Hle & _).
    { rewrite position_advance.
      assert (k < length t) by (apply nth_error_Some; congruence).
      destruct Hl1 as (_ & _ & Hp1). rewrite position_advance in Hp1. lia. }
    exists r, l'. rewrite position_advance in Hle.
    repeat split; try assumption; try apply Hl'; intros; lia.
  - exists acc, l. repeat split; try apply Hl; auto.
    intros d' Hd' Ht'. congruence.
Qed.

Lemma no_quote_in d : In d t -> no_quote d = true.
Proof. intros Hin. exact (proj1 (forallb_forall _ _) Hquotes d Hin). Qed.

Lemma token_at_before_stray l d from :
  before t k l -> current_char l = Some d -> from <= position l ->
  (exists e, token_at d l = Raise e
             /\ (e = InvalidCharacter \/ e = ValueError))
  \/ (exists tok l', token_at d l = Ret (tok, l')
                     /\ before t k l' /\ from < position l').
Proof.
  intros Hl Hd Hfrom.
  destruct stray_classes as (Hsp & Hts & Hnum & Hid).
  destruct (ascii_dec d c) as [-> | Hne].
  { left. exists InvalidCharacter.
    rewrite (token_at_unrecognized c l Hts). auto. }
  pose proof (before_stray_advance l d Hl Hd Hne) as Hadv.
  assert (Hq : no_quote d = true).
  { destruct (before_stray_char l Hl) as (d' & Hd' & Hin).
    assert (d' = d) by congruence. subst d'. apply no_quote_in, Hin. }
  unfold no_quote in Hq. apply andb_prop in Hq. destruct Hq as [Hdq Hsq].
  apply negb_true_iff in Hdq, Hsq.
  assert (Hpunct : forall ty,
             exists tok l', punct ty d l = Ret (tok, l')
                            /\ before t k l' /\ from < position l').
  { intros ty. unfold punct. do 2 eexists.
    split; [reflexivity |]. split; [exact Hadv |].
    rewrite position_advance. lia. }
  unfold token_at. rewrite Hdq, Hsq.
  destruct (isdigit d) eqn:Edig.
  { unfold get_number, bind.
    destruct (while_char_before_stray number_char (lexer_fuel l) Hnum [] l Hl)
      as (r & l' & E & Hl' & Hle & Hlt);
      [unfold lexer_fuel; destruct Hl as (_ & -> & _); lia |].
    fold number_char. rewrite E.
    specialize (Hlt d Hd). unfold number_char in Hlt at 1.
    rewrite Edig in Hlt. specialize (Hlt eq_refl).
    destruct (existsb (Ascii.eqb ".") r).
    - unfold py_float. destruct (split_dot r) as [ip ofp].
      destruct (_ && _).
      + right. do 2 eexists. split; [reflexivity |].
        split; [exact Hl' | lia].
      + left. exists ValueError. auto.
    - unfold py_int. destruct r as [| r0 r1]; [left; exists ValueError; auto |].
      destruct (forallb is_decimal (r0 :: r1));
        [destruct (length (r0 :: r1) <=? int_max_str_digits) |].
      + right. do 2 eexists. split; [reflexivity |].
        split; [exact Hl' | lia].
      + left. exists ValueError. auto.
      + left. exists ValueError. auto. }
  repeat match goal with
         | |- context [if Ascii.eqb d ?x then _ else _] =>
             destruct (Ascii.eqb d x); [right; apply Hpunct |]
         end.
  destruct (isalpha d || Ascii.eqb d "_") eqn:Ealpha.
  - unfold get_identifier, bind.
    destruct (while_char_before_stray ident_char (lexer_fuel l) Hid [] l Hl)
      as (r & l' & E & Hl' & Hle & Hlt);
      [unfold lexer_fuel; destruct Hl as (_ & -> & _); lia |].
    fold ident_char. rewrite E.
    assert (Htd : ident_char d = true).
    { unfold ident_char, isalnum.
      apply orb_prop in Ealpha. destruct Ealpha as [-> | ->];
        [reflexivity | apply orb_true_r]. }
    specialize (Hlt d Hd Htd).
    right. destruct (existsb _ keywords); do 2 eexists;
      (split; [reflexivity |]); (split; [exact Hl' | lia]).
  - left. exists InvalidCharacter. auto.
Qed.

Lemma call_before_stray l : before t k l -> raises_or_passes t k l.
Proof.
  intros Hl. unfold raises_or_passes.
  destruct (before_stray_char l Hl) as (d & Hd & _).
  destruct stray_classes as (Hsp & _).
  destruct (isspace d) eqn:Esp.
  - destruct (while_char_before_stray isspace (lexer_fuel l) Hsp [] l Hl)
      as (r & l1 & E & Hl1 & Hle & Hlt);
      [unfold lexer_fuel; destruct Hl as (_ & -> & _); lia |].
    specialize (Hlt d Hd Esp).
    destruct (before_stray_char l1 Hl1) as (d1 & Hd1 & _).
    rewrite (get_next_token_space l d r l1 d1 Hd Esp E Hd1).
    apply (token_at_before_stray l1 d1 (position l) Hl1 Hd1). lia.
  - rewrite (get_next_token_nonspace l d Hd Esp).
    apply (token_at_before_stray l d (position l) Hl Hd). lia.
Qed.

Lemma calls_raise n l tok l' e :
  get_next_token l = Ret (tok, l') -> calls (S n) l' = Raise e ->
  calls (S (S n)) l = Raise e.
Proof.
  intros H1 H2. change (calls (S (S n)) l)
    with (bind get_next_token
            (fun tok => bind (calls (S n)) (fun toks => ret (tok :: toks)))
            l).
  unfold bind at 1. rewrite H1. unfold bind at 1. rewrite H2. reflexivity.
Qed.

Lemma calls_before_stray m :
  forall l, before t k l -> k - position l <= m ->
    exists n e, n <= m /\ calls (S n) l = Raise e
                /\ (e = InvalidCharacter \/ e = ValueError).
Proof.
  induction m as [| m IH]; intros l Hl Hm;
    destruct (call_before_stray l Hl)
      as [(e & He & Hcase) | (tok & l' & Hcall & Hl' & Hlt)].
  - exists 0, e. split; [lia |]. split; [| exact Hcase].
    cbn [calls]. unfold bind. rewrite He. reflexivity.
  - destruct Hl' as (_ & _ & Hp'). lia.
  - exists 0, e. split; [lia |]. split; [| exact Hcase].
    cbn [calls]. unfold bind. rewrite He. reflexivity.
  - destruct (IH l' Hl') as (n & e & Hn & Hcalls & Hcase).
    { destruct Hl' as (_ & _ & Hp'). lia. }
    exists (S n), e. split; [lia |]. split; [| exact Hcase].
    apply (calls_raise n l tok l' e Hcall Hcalls).
Qed.

(** Lexing [t] raises, at the latest with the call that reaches the stray
    character. *)
Lemma stray_character_raises :
  exists n e, n <= k /\ calls (S n) (Lexer_init t) = Raise e
              /\ (e = InvalidCharacter \/ e = ValueError).
Proof.
  apply calls_before_stray; [| lia].
  rewrite Lexer_init_at_pos. repeat split.
  rewrite position_at_pos. lia.
Qed.

End Stray.

(** * Further properties of the lexer *)

Lemma while_char_advances test fuel acc l c r l' :
  current_char l = Some c -> test c = true ->
  while_char test fuel acc l = Ret (r, l') ->
  position l < position l'.
Proof.
  intros Hc Ht. rewrite while_char_eq, Hc, Ht.
  destruct fuel as [| f]; [discriminate |].
  intros H. apply while_char_keeps in H. destruct H as (_ & Hp & _).
  rewrite position_advance in Hp. lia.
Qed.

Lemma get_string_loop_forward fuel :
  forall acc l r l',
    get_string_loop fuel acc l = Ret (r, l') -> position l <= position l'.
Proof.
  induction fuel as [| fuel IH]; intros acc l r l';
    rewrite get_string_loop_eq;
    destruct (current_char l) as [c |];
    try (destruct (Ascii.eqb c dquote));
    try discriminate;
    try (intros H; injection H as <- <-; lia).
  destruct (Ascii.eqb c backslash).
  - destruct (current_char (advance l)); [| discriminate].
    intros H. apply IH in H. rewrite !position_advance in H. lia.
  - intros H. apply IH in H. rewrite position_advance in H. lia.
Qed.

Lemma alpha_ident_char c :
  isalpha c || Ascii.eqb c "_" = true -> ident_char c = true.
Proof.
  unfold ident_char, isalnum. intros H. apply orb_prop in H.
  destruct H as [-> | ->]; [reflexivity | apply orb_true_r].
Qed.

Lemma token_at_progress c l tok l' :
  current_char l = Some c -> token_at c l = Ret (tok, l') ->
  position l < position l' /\ type tok <> EOF.
Proof.
  intros Hc. unfold token_at, punct.
  destruct (isdigit c) eqn:Edig.
  { unfold get_number, bind.
    destruct (while_char _ _ _ l) as [[r l1] | |] eqn:E; try discriminate.
    apply (while_char_advances _ _ _ _ c) in E;
      [| exact Hc | rewrite Edig; reflexivity].
    destruct (existsb _ r);
      [destruct (py_float r) | destruct (py_int r)];
      try discriminate; intros H; injection H as <- <-;
      (split; [exact E | discriminate]). }
  repeat match goal with
         | |- context [if Ascii.eqb c ?x then _ else _] =>
             destruct (Ascii.eqb c x)
         end;
    try (intros H; injection H as <- <-; rewrite position_advance;
         split; [lia | discriminate]).
  - unfold get_string.
    destruct (get_string_loop _ _ _) as [[r l1] | |] eqn:E; try discriminate.
    apply get_string_loop_forward in E. rewrite position_advance in E.
    intros H. injection H as <- <-. rewrite position_advance.
    split; [lia | discriminate].
  - unfold get_char.
    destruct (current_char (advance l)) as [d |].
    + destruct (Ascii.eqb d backslash).
      * destruct (current_char (advance (advance l))) as [d1 |];
          [destruct (Ascii.eqb d1 "n"); [| destruct (Ascii.eqb d1 "t")] |];
          intros H; injection H as <- <-; rewrite !position_advance;
          (split; [lia | discriminate]).
      * intros H; injection H as <- <-; rewrite !position_advance;
          (split; [lia | discriminate]).
    + intros H; injection H as <- <-; rewrite !position_advance;
        (split; [lia | discriminate]).
  - destruct (isalpha c || Ascii.eqb c "_") eqn:Ealpha; [| discriminate].
    unfold get_identifier, bind.
    destruct (while_char _ _ _ l) as [[r l1] | |] eqn:E; try discriminate.
    apply (while_char_advances _ _ _ _ c) in E;
      [| exact Hc | exact (alpha_ident_char c Ealpha)].
    destruct (existsb _ keywords); intros H; injection H as <- <-;
      (split; [exact E | discriminate]).
Qed.

(** X1.  A call of [get_next_token] comes to an end in every state of the
    lexer: it returns a token or raises, whatever the buffer holds. *)
Theorem lexer_call_terminates (l : Lexer) :
  (exists tok l', get_next_token l = Ret (tok, l'))
  \/ (exists e, get_next_token l = Raise e).
Proof.
  pose proof (get_next_token_total l) as H.
  destruct (get_next_token l) as [[tok l'] | e |]; eauto.
  contradiction.
Qed.

(** X2.  In every state a caller can see, the buffer is the one the lexer
    was made with and [current_char] is the character under the cursor:
    the character at [position] inside the buffer, [None] from the end
    on. *)
Theorem lexer_state_invariant (t : pystr) (l : Lexer) :
  reachable t l ->
  text l = t
  /\ current_char l = nth_error t (position l)
  /\ (current_char l = None <-> length t <= position l).
Proof.
  intros Hr. destruct (reachable_consistent t l Hr) as [Ht Hc].
  unfold consistent in Hc. rewrite Ht in Hc.
  repeat split; try assumption.
  - intros H. apply nth_error_None. congruence.
  - intros H. rewrite Hc. apply nth_error_None, H.
Qed.

(** X2, witness: the lexer after the first token of [x = 1]. *)
Lemma lexer_state_invariant_witness :
  text (at_pos (str "x = 1") 1) = str "x = 1"
  /\ current_char (at_pos (str "x = 1") 1)
     = nth_error (str "x = 1") (position (at_pos (str "x = 1") 1))
  /\ (current_char (at_pos (str "x = 1") 1) = None
      <-> length (str "x = 1") <= position (at_pos (str "x = 1") 1)).
Proof.
  exact (lexer_state_invariant (str "x = 1") (at_pos (str "x = 1") 1)
           (@reach_call (str "x = 1") (Lexer_init (str "x = 1"))
              (identifier_token "x") (at_pos (str "x = 1") 1)
              (@reach_init _) eq_refl)).
Defined.

(** X3.  A call that returns never moves the cursor back; a token other
    than the end of the stream moves it forward by at least one character,
    and the end of the stream is only reported with no character left under
    the cursor. *)
Theorem lexer_progress (l : Lexer) (tok : Token) (l' : Lexer) :
  get_next_token l = Ret (tok, l') ->
  position l <= position l'
  /\ (type tok <> EOF -> position l < position l')
  /\ (type tok = EOF -> current_char l' = None).
Proof.
  destruct (current_char l) as [c |] eqn:Hc.
  - destruct (isspace c) eqn:Hsp.
    + unfold get_next_token. rewrite get_next_token_loop_eq, Hc, Hsp.
      unfold lexer_fuel at 1. unfold skip_whitespace, bind.
      destruct (while_char isspace _ [] l) as [[r l1] | |] eqn:E;
        try discriminate.
      unfold ret. rewrite get_next_token_loop_eq.
      pose proof (while_char_stops _ _ _ _ _ _ E) as Hs.
      apply while_char_keeps in E. destruct E as (_ & Hp & _).
      destruct (current_char l1) as [d |] eqn:Hd.
      * rewrite Hs. intros H.
        destruct (token_at_progress d l1 tok l' Hd H) as [Hlt Hne].
        repeat split; try lia. intros; contradiction.
      * intros H. injection H as <- <-. cbn [type]. repeat split; auto.
        intros Hne. elim Hne. reflexivity.
    + rewrite (get_next_token_nonspace l c Hc Hsp). intros H.
      destruct (token_at_progress c l tok l' Hc H) as [Hlt Hne].
      repeat split; try lia. intros; contradiction.
  - unfold get_next_token. rewrite get_next_token_loop_eq, Hc.
    intros H. injection H as <- <-. cbn [type]. repeat split; auto.
    intros Hne. elim Hne. reflexivity.
Qed.

(** X3, witness: the identifier of [ab = 1] takes the cursor from 0 to 2. *)
Lemma lexer_progress_witness :
  position (Lexer_init (str "ab = 1")) <= position (at_pos (str "ab = 1") 2)
  /\ (type (identifier_token "ab") <> EOF ->
      position (Lexer_init (str "ab = 1"))
      < position (at_pos (str "ab = 1") 2))
  /\ (type (identifier_token "ab") = EOF ->
      current_char (at_pos (str "ab = 1") 2) = None).
Proof.
  exact (lexer_progress (Lexer_init (str "ab = 1")) (identifier_token "ab")
           (at_pos (str "ab = 1") 2) eq_refl).
Defined.

(** X4.  Whitespace in front of a token is of no account: a call with the
    cursor on a run of whitespace behaves as the call with the cursor
    behind that run. *)
Theorem leading_whitespace_skipped (pre ws rest : pystr) :
  forallb isspace ws = true ->
  stops isspace rest ->
  get_next_token (at_pos (pre ++ ws ++ rest) (length pre))
  = get_next_token (at_pos (pre ++ ws ++ rest) (length pre + length ws)).
Proof.
  intros Hws Hstop.
  destruct ws as [| w ws]; [cbn [length]; rewrite Nat.add_0_r; reflexivity |].
  pose proof Hws as Hw. cbn [forallb] in Hw. apply andb_prop in Hw.
  destruct Hw as [Hw _].
  assert (E : while_char isspace
                (lexer_fuel (at_pos (pre ++ (w :: ws) ++ rest) (length pre)))
                [] (at_pos (pre ++ (w :: ws) ++ rest) (length pre))
              = Ret ([] ++ w :: ws,
                     at_pos (pre ++ (w :: ws) ++ rest)
                            (length pre + length (w :: ws)))).
  { apply while_char_run; [exact Hws | exact Hstop |].
    unfold lexer_fuel. rewrite text_at_pos, position_at_pos, !length_app.
    lia. }
  destruct rest as [| d rest].
  - unfold get_next_token at 1.
    rewrite get_next_token_loop_eq, current_char_run, Hw.
    unfold lexer_fuel at 1. unfold skip_whitespace, bind. rewrite E.
    unfold ret. rewrite get_next_token_loop_eq.
    unfold get_next_token. rewrite get_next_token_loop_eq.
    rewrite at_pos_shift, current_char_at_pos_app. reflexivity.
  - simpl in Hstop.
    assert (Hd : current_char (at_pos (pre ++ (w :: ws) ++ d :: rest)
                                      (length pre + length (w :: ws)))
                 = Some d)
      by (rewrite at_pos_shift; apply current_char_at_pos_app).
    rewrite (get_next_token_space _ w _ _ d
               (current_char_run pre w ws (d :: rest)) Hw E Hd).
    rewrite (get_next_token_nonspace _ d Hd Hstop). reflexivity.
Qed.

(** X4, witness: the blanks between [=] and [7]. *)
Lemma leading_whitespace_skipped_witness :
  get_next_token (at_pos (str "x =   7") 3)
  = get_next_token (at_pos (str "x =   7") 6).
Proof.
  exact (leading_whitespace_skipped (str "x =") (str "   ") (str "7")
           eq_refl eq_refl).
Defined.

(** X5.  Each of the nine characters [+ - * / % ( ) = ,] is a token by
    itself wherever a token starts: the call returns the token of its type
    with the character for value, and moves the cursor by one. *)
Theorem one_character_tokens (pre rest : pystr) (c : ascii)
        (ty : token_type) :
  punct_type c = Some ty ->
  get_next_token (at_pos (pre ++ c :: rest) (length pre))
  = Ret (mkToken ty (VStr [c]), at_pos (pre ++ c :: rest) (S (length pre))).
Proof.
  intros Hty.
  assert (Hsp : isspace c = false /\ token_at c = punct ty c).
  { unfold punct_type in Hty.
    repeat match type of Hty with
           | (if Ascii.eqb c ?x then _ else _) = _ =>
               destruct (Ascii.eqb_spec c x) as [-> | _];
               [injection Hty as <-; split; reflexivity |]
           end.
    discriminate. }
  destruct Hsp as [Hsp Hat].
  rewrite (get_next_token_nonspace _ c
             (current_char_at_pos_app pre (c :: rest)) Hsp), Hat.
  unfold punct. rewrite advance_at_pos, text_at_pos, position_at_pos.
  reflexivity.
Qed.

(** X5, witness: the closing parenthesis of [f(x)]. *)
Lemma one_character_tokens_witness :
  get_next_token (at_pos (str "f(x)") 3)
  = Ret (mkToken RPAREN (VStr [")"%char]), at_pos (str "f(x)") 4).
Proof.
  exact (one_character_tokens (str "f(x") [] ")"%char RPAREN eq_refl).
Defined.

Lemma token_at_alpha c :
  isalpha c || Ascii.eqb c "_" = true ->
  isspace c = false /\ token_at c = get_identifier.
Proof.
  ascii_cases c; intros H; try discriminate H; split; reflexivity.
Qed.

(** X6.  A run of letters, digits and underscores that starts with a letter
    or an underscore and ends where the next character is none of these is
    read to its end; it is a keyword token if the run is exactly one of the
    reserved words and an identifier token otherwise, and either way the
    token carries the run as its value. *)
Theorem word_is_keyword_or_identifier (pre run rest : pystr) (c : ascii)
        (tl : pystr) :
  run = c :: tl ->
  isalpha c || Ascii.eqb c "_" = true ->
  forallb ident_char run = true ->
  stops ident_char rest ->
  get_next_token (at_pos (pre ++ run ++ rest) (length pre))
  = Ret (mkToken (if is_keyword run then KEYWORD else IDENTIFIER) (VStr run),
         at_pos (pre ++ run ++ rest) (length pre + length run)).
Proof.
  intros Hrun Hc Hall Hstop.
  destruct (token_at_alpha c Hc) as [Hsp Hat].
  assert (Hcur : current_char (at_pos (pre ++ run ++ rest) (length pre))
                 = Some c)
    by (rewrite Hrun; apply current_char_run).
  rewrite (get_next_token_nonspace _ c Hcur Hsp), Hat.
  unfold get_identifier, bind. fold ident_char.
  rewrite (while_char_run ident_char run pre rest _ [] Hall Hstop).
  - cbn [app]. fold (is_keyword run). destruct (is_keyword run); reflexivity.
  - unfold lexer_fuel. rewrite text_at_pos, position_at_pos, !length_app. lia.
Qed.

(** X6, witness: [if] is a keyword, [iffy] an identifier. *)
Lemma word_is_keyword_or_identifier_witness :
  get_next_token (at_pos (str "if x") 0)
  = Ret (mkToken KEYWORD (VStr (str "if")), at_pos (str "if x") 2)
  /\ get_next_token (at_pos (str "iffy = 1") 0)
     = Ret (mkToken IDENTIFIER (VStr (str "iffy")), at_pos (str "iffy = 1") 4).
Proof.
  split.
  - exact (word_is_keyword_or_identifier [] (str "if") (str " x") "i"
             (str "f") eq_refl eq_refl eq_refl eq_refl).
  - exact (word_is_keyword_or_identifier [] (str "iffy") (str " = 1") "i"
             (str "ffy") eq_refl eq_refl eq_refl eq_refl).
Defined.

(** X7.  A string literal whose body holds no bare double quote and does
    not end inside an escape, closed by a double quote or cut off by the end
    of the buffer, is one string token: its value is the body with [\n] and
    [\t] replaced by newline and tab and every other backslash dropped, and
    the cursor ends behind the closing quote. *)
Theorem string_literal_value (pre body v rest : pystr) :
  decode body = Some v ->
  closes rest ->
  get_next_token (at_pos (pre ++ dquote :: body ++ rest) (length pre))
  = Ret (mkToken STRING (VStr v),
         at_pos (pre ++ dquote :: body ++ rest)
                (S (S (length pre + length body)))).
Proof. apply lex_string. Qed.

(** X7, witness: the literal with body [a\\b] (a doubled backslash). *)
Lemma string_literal_value_witness :
  get_next_token
    (at_pos (str "s = " ++ dquote :: (str "a" ++ [backslash; backslash]
                                          ++ str "b") ++ [dquote]) 4)
  = Ret (mkToken STRING (VStr (str "a" ++ [backslash] ++ str "b")),
         at_pos (str "s = " ++ dquote :: (str "a" ++ [backslash; backslash]
                                               ++ str "b") ++ [dquote]) 10).
Proof.
  exact (string_literal_value (str "s = ")
           (str "a" ++ [backslash; backslash] ++ str "b")
           (str "a" ++ [backslash] ++ str "b") [dquote] eq_refl eq_refl).
Defined.

Lemma decode_encode_char c s :
  decode (encode_char c ++ s) = option_map (cons c) (decode s).
Proof.
  unfold encode_char.
  destruct (Ascii.eqb_spec c newline) as [-> | Hn]; [reflexivity |].
  destruct (Ascii.eqb_spec c tab) as [-> | Ht]; [reflexivity |].
  destruct (Ascii.eqb_spec c dquote) as [-> | Hq]; [reflexivity |].
  destruct (Ascii.eqb_spec c backslash) as [-> | Hb]; [reflexivity |].
  change ([c] ++ s) with (c :: s). cbn [decode].
  destruct (Ascii.eqb_spec c dquote) as [E | _]; [contradiction |].
  destruct (Ascii.eqb_spec c backslash) as [E | _]; [contradiction |].
  reflexivity.
Qed.

Lemma decode_encode v : decode (encode v) = Some v.
Proof.
  induction v as [| c v IH]; [reflexivity |].
  unfold encode in *. cbn [flat_map].
  rewrite decode_encode_char, IH. reflexivity.
Qed.

(** X8.  Every string is the value of a string literal: written between
    double quotes with a backslash in front of each double quote and each
    backslash and with [\n] and [\t] for newline and tab, it is lexed back
    to itself. *)
Theorem string_literal_round_trip (pre v rest : pystr) :
  get_next_token
    (at_pos (pre ++ dquote :: encode v ++ dquote :: rest) (length pre))
  = Ret (mkToken STRING (VStr v),
         at_pos (pre ++ dquote :: encode v ++ dquote :: rest)
                (S (S (length pre + length (encode v))))).
Proof.
  apply lex_string; [apply decode_encode | reflexivity].
Qed.

(** X9.  A char literal yields the character behind the opening quote, or,
    when that is a backslash, the character the escape stands for; the
    cursor ends one character behind the one it took, which is where the
    closing quote is expected, not behind it. *)
Theorem char_literal_value (pre rest : pystr) (c : ascii) :
  (c <> backslash ->
   get_next_token (at_pos (pre ++ squote :: c :: rest) (length pre))
   = Ret (mkToken CHAR (VStr [c]),
          at_pos (pre ++ squote :: c :: rest) (length pre + 2)))
  /\ get_next_token
       (at_pos (pre ++ squote :: backslash :: c :: rest) (length pre))
     = Ret (mkToken CHAR (VStr [escape_char c]),
            at_pos (pre ++ squote :: backslash :: c :: rest) (length pre + 3)).
Proof.
  split; [apply lex_char_plain | apply lex_char_escape].
Qed.

(** X9, witness: the char literal with body [x]. *)
Lemma char_literal_value_witness :
  get_next_token (at_pos (squote :: str "x" ++ [squote]) 0)
  = Ret (mkToken CHAR (VStr (str "x")),
         at_pos (squote :: str "x" ++ [squote]) 2).
Proof.
  exact (proj1 (char_literal_value [] [squote] "x"%char)
           ltac:(discriminate)).
Defined.

Lemma get_string_loop_dangling n :
  forall body v pre fuel acc,
    length body <= n -> decode body = Some v -> length body < fuel ->
    get_string_loop fuel acc
      (at_pos (pre ++ body ++ [backslash]) (length pre))
    = Raise TypeError.
Proof.
  induction n as [| n IH]; intros body v pre fuel acc Hn Hdec Hfuel;
    rewrite get_string_loop_eq, current_char_at_pos_app;
    (destruct fuel as [| fuel]; [lia |]).
  - destruct body; [| simpl in Hn; lia].
    cbn [app hd_error]. change (Ascii.eqb backslash dquote) with false.
    rewrite Ascii.eqb_refl. cbv iota.
    change (pre ++ [backslash]) with (pre ++ backslash :: []).
    rewrite at_pos_step, current_char_at_pos_app. reflexivity.
  - destruct body as [| c body].
    + cbn [app hd_error]. change (Ascii.eqb backslash dquote) with false.
      rewrite Ascii.eqb_refl. cbv iota.
      change (pre ++ [backslash]) with (pre ++ backslash :: []).
      rewrite at_pos_step, current_char_at_pos_app. reflexivity.
    + cbn [app hd_error]. cbn [decode] in Hdec.
      destruct (Ascii.eqb c dquote); [discriminate |].
      destruct (Ascii.eqb c backslash).
      * destruct body as [| c1 body]; [discriminate |].
        destruct (decode body) as [w |] eqn:Hw; [| discriminate].
        change (c :: (c1 :: body) ++ [backslash])
          with (c :: c1 :: body ++ [backslash]).
        rewrite at_pos_step, current_char_at_pos_app. cbn [hd_error].
        rewrite at_pos_step.
        apply (IH body w); [simpl in Hn; lia | exact Hw |].
        simpl in Hfuel. lia.
      * destruct (decode body) as [w |] eqn:Hw; [| discriminate].
        rewrite at_pos_step.
        apply (IH body w); [simpl in Hn; lia | exact Hw |].
        simpl in Hfuel. lia.
Qed.

(** X10.  A string literal that the end of the buffer cuts off right behind
    a backslash raises [TypeError], whatever stands between the opening
    quote and that backslash. *)
Theorem string_cut_in_escape_raises (pre body v : pystr) :
  decode body = Some v ->
  get_next_token
    (at_pos (pre ++ dquote :: body ++ [backslash]) (length pre))
  = Raise TypeError.
Proof.
  intros Hdec.
  rewrite get_next_token_dquote
    by (apply (current_char_at_pos_app pre (dquote :: body ++ [backslash]))).
  unfold get_string. rewrite at_pos_step.
  rewrite (get_string_loop_dangling (length body) body v (pre ++ [dquote]) _ []
             (le_n _) Hdec); [reflexivity |].
  unfold lexer_fuel. rewrite text_at_pos, position_at_pos.
  rewrite !length_app. cbn [length]. rewrite length_app. lia.
Qed.

(** X10, witness: an assignment whose string literal has the body [ab\]
    and no closing quote. *)
Lemma string_cut_in_escape_raises_witness :
  get_next_token
    (at_pos (str "x = " ++ dquote :: str "ab" ++ [backslash]) 4)
  = Raise TypeError.
Proof.
  exact (string_cut_in_escape_raises (str "x = ") (str "ab") (str "ab")
           eq_refl).
Defined.

(** X11.  In a text without quote characters, a character that is neither
    whitespace, nor the start of a token, nor part of a number or a word
    stops the lexing: one of the calls up to the one that reaches it raises,
    with the lexer's error or with the [ValueError] of a number in front of
    it. *)
Theorem stray_character_stops_lexing (t : pystr) (k : nat) (c : ascii) :
  nth_error t k = Some c ->
  stray c = true ->
  forallb no_quote t = true ->
  exists n e,
    n <= k /\ calls (S n) (Lexer_init t) = Raise e
    /\ (e = InvalidCharacter \/ e = ValueError).
Proof. apply stray_character_raises. Qed.

(** X11, witness: the [@] of [x = 1 @ 2]. *)
Lemma stray_character_stops_lexing_witness :
  exists n e,
    n <= 6 /\ calls (S n) (Lexer_init (str "x = 1 @ 2")) = Raise e
    /\ (e = InvalidCharacter \/ e = ValueError).
Proof.
  exact (stray_character_stops_lexing (str "x = 1 @ 2") 6 "@"%char
           eq_refl eq_refl eq_refl).
Defined.

(** X12.  Where a token is to start, behind any whitespace, a character that
    is neither whitespace nor a digit, a letter, an underscore, a quote or
    one of [+ - * / % ( ) = ,] makes the call raise the lexer's error. *)
Theorem unrecognized_character_raises (pre ws rest : pystr) (c : ascii) :
  forallb isspace ws = true ->
  isspace c = false ->
  token_start c = false ->
  get_next_token (at_pos (pre ++ ws ++ c :: rest) (length pre))
  = Raise InvalidCharacter.
Proof. apply lex_unrecognized. Qed.

(** X12, witness: a comparison sign behind a blank. *)
Lemma unrecognized_character_raises_witness :
  get_next_token (at_pos (str "x < 5") 1) = Raise InvalidCharacter.
Proof.
  exact (unrecognized_character_raises (str "x") (str " ") (str " 5")
           "<"%char eq_refl eq_refl eq_refl).
Defined.

(** X13.  A number that holds one of the superscript digits, which
    [isdigit] accepts and the conversions reject, raises [ValueError]. *)
Theorem superscript_digit_raises (pre run rest : pystr) (c : ascii)
        (tl : pystr) :
  run = c :: tl ->
  isdigit c = true ->
  forallb number_char run = true ->
  stops number_char rest ->
  existsb odd_digit run = true ->
  get_next_token (at_pos (pre ++ run ++ rest) (length pre))
  = Raise ValueError.
Proof. apply lex_odd_digit. Qed.

(** X13, witness: a [2] followed by the superscript [2]. *)
Lemma superscript_digit_raises_witness :
  get_next_token (at_pos (str "2" ++ [ascii_of_nat 178]) 0)
  = Raise ValueError.
Proof.
  exact (superscript_digit_raises [] (str "2" ++ [ascii_of_nat 178]) []
           "2"%char [ascii_of_nat 178] eq_refl eq_refl eq_refl I eq_refl).
Defined.

Lemma token_at_ok c l tok l' :
  token_at c l = Ret (tok, l') -> token_ok tok = true.
Proof.
  unfold token_at, punct.
  destruct (isdigit c).
  { unfold get_number, bind.
    destruct (while_char _ _ _ l) as [[r l1] | |]; try discriminate.
    destruct (existsb _ r).
    - destruct (py_float r); try discriminate.
      intros H. injection H as <- <-. reflexivity.
    - unfold py_int. destruct r as [| r0 r1]; [discriminate |].
      destruct (forallb is_decimal (r0 :: r1)) eqn:Hd; [| discriminate].
      destruct (length (r0 :: r1) <=? int_max_str_digits); [| discriminate].
      intros H. injection H as <- <-. unfold token_ok. cbn [type tvalue].
      apply Z.leb_le. apply (fold_decimal_nonneg _ Hd). lia. }
  repeat match goal with
         | |- context [if Ascii.eqb c ?x then _ else _] =>
             destruct (Ascii.eqb_spec c x) as [-> | ?];
             [try (intros H; injection H as <- <-; reflexivity) |]
         end.
  - unfold get_string.
    destruct (get_string_loop _ _ _) as [[r l1] | |]; try discriminate.
    intros H. injection H as <- <-. reflexivity.
  - unfold get_char.
    destruct (current_char (advance l)) as [d |].
    + destruct (Ascii.eqb d backslash).
      * destruct (current_char (advance (advance l))) as [d1 |];
          [destruct (Ascii.eqb d1 "n"); [| destruct (Ascii.eqb d1 "t")] |];
          intros H; injection H as <- <-; reflexivity.
      * intros H; injection H as <- <-; reflexivity.
    + intros H; injection H as <- <-; reflexivity.
  - destruct (isalpha c || Ascii.eqb c "_"); [| discriminate].
    unfold get_identifier, bind.
    destruct (while_char _ _ _ l) as [[r l1] | |]; try discriminate.
    destruct (existsb _ keywords) eqn:Ek; intros H; injection H as <- <-;
      unfold token_ok, is_keyword; cbn [type tvalue]; rewrite Ek; reflexivity.
Qed.

(** X14.  Whatever token a call returns, its value fits its type: an
    integer that is not negative for an integer literal, a float for a
    float literal, the text for a string, a name that is no reserved word
    for an identifier, a reserved word for a keyword, its own character for
    a one-character token, [None] for the end of the stream.  No call
    returns a [BOOLEAN] token: [True] and [False] come out as keywords. *)
Theorem returned_token_fits_type (l : Lexer) (tok : Token) (l' : Lexer) :
  get_next_token l = Ret (tok, l') ->
  token_ok tok = true /\ type tok <> BOOLEAN.
Proof.
  intros H. assert (Hok : token_ok tok = true).
  { revert H. unfold get_next_token. rewrite get_next_token_loop_eq.
    destruct (current_char l) as [c |];
      [| intros H; injection H as <- <-; reflexivity].
    destruct (isspace c); [| apply token_at_ok].
    unfold lexer_fuel at 1. unfold skip_whitespace, bind.
    destruct (while_char isspace _ [] l) as [[r l1] | |] eqn:E;
      try discriminate.
    unfold ret. rewrite get_next_token_loop_eq.
    pose proof (while_char_stops _ _ _ _ _ _ E) as Hs.
    destruct (current_char l1) as [d |];
      [| intros H; injection H as <- <-; reflexivity].
    rewrite Hs. apply token_at_ok. }
  split; [exact Hok |].
  intros Hb. unfold token_ok in Hok. rewrite Hb in Hok.
  destruct (tvalue tok); discriminate.
Qed.

(** X14, witness: the keyword token of [True]. *)
Lemma returned_token_fits_type_witness :
  token_ok (mkToken KEYWORD (VStr (str "True"))) = true
  /\ type (mkToken KEYWORD (VStr (str "True"))) <> BOOLEAN.
Proof.
  exact (returned_token_fits_type (Lexer_init (str "True"))
           (mkToken KEYWORD (VStr (str "True"))) (at_pos (str "True") 4)
           eq_refl).
Defined.

(** * Further properties of the parser *)

Lemma starts_statement_false v :
  starts_statement v = false ->
  value_is v "if" = false /\ value_is v "while" = false
  /\ value_is v "for" = false /\ value_is v "return" = false.
Proof.
  unfold starts_statement. intros H.
  repeat match goal with
         | E : _ || _ = false |- _ =>
             apply orb_false_elim in E; destruct E
         end.
  auto.
Qed.

(** X15.  With the parser on a keyword other than [if], [while], [for] and
    [return], a block never comes to an end, and unless the keyword is [fun]
    neither does the program: [statement] returns [None] and leaves the
    token, so the loop sees it again.  So [elif], [else], [var] and a
    nested [fun] hang the parser instead of being rejected. *)
Theorem unhandled_keyword_hangs (p : Parser) :
  cur_is KEYWORD p = true ->
  starts_statement (tvalue (current_token p)) = false ->
  (forall fuel, block fuel p = Diverge)
  /\ (value_is (tvalue (current_token p)) "fun" = false ->
      forall fuel, program fuel p = Diverge).
Proof.
  intros Hk Hs.
  destruct (starts_statement_false _ Hs) as (Hif & Hwhile & Hfor & Hret).
  split.
  - intros fuel. apply block_stuck_on_keyword; assumption.
  - intros Hfun fuel. apply program_stuck_on_keyword; assumption.
Qed.

(** X15, witness: the parser on the [elif] of [elif x]. *)
Lemma unhandled_keyword_hangs_witness :
  (forall fuel,
      block fuel (mkParser (at_pos (str "elif x") 4)
                           (mkToken KEYWORD (VStr (str "elif"))))
      = Diverge)
  /\ (value_is (VStr (str "elif")) "fun" = false ->
      forall fuel,
        program fuel (mkParser (at_pos (str "elif x") 4)
                               (mkToken KEYWORD (VStr (str "elif"))))
        = Diverge).
Proof.
  exact (unhandled_keyword_hangs
           (mkParser (at_pos (str "elif x") 4)
                     (mkToken KEYWORD (VStr (str "elif"))))
           eq_refl eq_refl).
Defined.

Lemma program_loop_eof f :
  forall nodes p ast p',
    program_loop f nodes p = Ret (ast, p') -> cur_is EOF p' = true.
Proof.
  induction f as [| f IH]; intros nodes p ast p'; [discriminate |].
  cbn [program_loop]. destruct (cur_is EOF p) eqn:E; cbn [negb].
  - intros H. injection H as <- <-. exact E.
  - unfold bind. destruct (cur_keyword "fun" p).
    + destruct (function_definition f p) as [[n p1] | |]; try discriminate.
      apply IH.
    + destruct (statement f p) as [[n p1] | |]; try discriminate.
      apply IH.
Qed.

(** X16.  When [program] returns, the parser is on the end-of-stream token:
    a tree is only handed back for an input read to its end. *)
Theorem program_reads_whole_input (fuel : nat) (p : Parser)
        (ast : list node) (p' : Parser) :
  program fuel p = Ret (ast, p') ->
  type (current_token p') = EOF.
Proof.
  intros H. apply program_loop_eof in H. unfold cur_is, type_eqb in H.
  destruct (token_type_eq_dec (type (current_token p')) EOF);
    [assumption | discriminate].
Qed.

(** X16, witness: the program [x = 1]. *)
Lemma program_reads_whole_input_witness :
  type (current_token (mkParser (at_pos (str "x = 1") 5) (mkToken EOF VNone)))
  = EOF.
Proof.
  exact (program_reads_whole_input 6
           (mkParser (at_pos (str "x = 1") 1) (identifier_token "x"))
           [AssignNode (VariableNode (identifier_token "x"))
                       (punct_token ASSIGN "=")
                       (NumberNode (integer_token 1))]
           (mkParser (at_pos (str "x = 1") 5) (mkToken EOF VNone))
           eq_refl).
Defined.

Ltac through_bind :=
  unfold bind, ret;
  repeat match goal with
         | |- match ?x with _ => _ end = _ -> _ =>
             destruct x as [[? ?] | ? |]; try discriminate
         end.

Lemma bodiless_statement_nodes f p n p' :
  return_statement f p = Ret (n, p')
  \/ function_call f p = Ret (n, p')
  \/ assignment_statement f p = Ret (n, p') ->
  has_body n = false.
Proof.
  intros [H | [H | H]]; revert H.
  - unfold return_statement. through_bind.
    intros H. injection H as <- <-. reflexivity.
  - unfold function_call. through_bind.
    intros H. injection H as <- <-. reflexivity.
  - unfold assignment_statement. through_bind.
    intros H. injection H as <- <-. reflexivity.
Qed.

(** A statement that ends in a block leaves the parser at the end of the
    stream. *)
Lemma statement_body_eof f p n p' :
  statement f p = Ret (n, p') -> has_body n = true -> cur_is EOF p' = true.
Proof.
  destruct f as [| f]; [discriminate |]. cbn [statement].
  destruct (cur_is KEYWORD p).
  - destruct (value_is _ "if").
    { destruct f as [| f]; [discriminate |]. intros H _.
      destruct (if_statement_split f p n p' H) as (c & p1 & b & _ & Hb & _).
      exact (block_loop_eof f [] p1 b p' Hb). }
    destruct (value_is _ "while").
    { destruct f as [| f]; [discriminate |].
      rewrite while_statement_split. unfold bind.
      destruct (condition_header f p) as [[c p1] | |]; try discriminate.
      destruct (block f p1) as [[b p2] | |] eqn:Eb; try discriminate.
      unfold ret. intros H _. injection H as <- <-.
      exact (block_loop_eof f [] p1 b p2 Eb). }
    destruct (value_is _ "for").
    { destruct f as [| f]; [discriminate |].
      rewrite for_statement_split. unfold bind.
      destruct (for_header f p) as [[h p1] | |]; try discriminate.
      destruct (block f p1) as [[b p2] | |] eqn:Eb; try discriminate.
      unfold ret. intros H _. injection H as <- <-.
      exact (block_loop_eof f [] p1 b p2 Eb). }
    destruct (value_is _ "return").
    { intros H Hb.
      rewrite (bodiless_statement_nodes f p n p' (or_introl H)) in Hb.
      discriminate. }
    unfold ret. intros H. injection H as <- <-. discriminate.
  - destruct (cur_is IDENTIFIER p); [| discriminate].
    destruct (match current_char (lexer p) with
              | Some c => Ascii.eqb c "("
              | None => false
              end); intros H Hb.
    + rewrite (bodiless_statement_nodes f p n p' (or_intror (or_introl H)))
        in Hb.
      discriminate.
    + rewrite (bodiless_statement_nodes f p n p' (or_intror (or_intror H)))
        in Hb.
      discriminate.
Qed.

Lemma function_definition_eof f p n p' :
  function_definition f p = Ret (n, p') -> cur_is EOF p' = true.
Proof.
  rewrite function_definition_split. unfold bind.
  destruct (function_header f p) as [[h p1] | |]; try discriminate.
  destruct (block f p1) as [[b p2] | |] eqn:Eb; try discriminate.
  unfold ret. intros H. injection H as <- <-.
  exact (block_loop_eof f [] p1 b p2 Eb).
Qed.

Lemma body_is_last_cons n added :
  (has_body n = true -> added = []) -> body_is_last added ->
  body_is_last (n :: added).
Proof.
  intros Hn Hadded pre m post E Hm.
  destruct pre as [| n0 pre]; cbn [app] in E; injection E as -> ->.
  - exact (Hn Hm).
  - apply (Hadded pre m post eq_refl Hm).
Qed.

Lemma program_loop_at_eof f nodes p ast p' :
  cur_is EOF p = true -> program_loop f nodes p = Ret (ast, p') ->
  ast = nodes.
Proof.
  intros He. destruct f as [| f]; [discriminate |].
  cbn [program_loop]. rewrite He. cbn [negb].
  intros H. injection H as <- <-. reflexivity.
Qed.

Lemma block_loop_at_eof f ss p b p' :
  cur_is EOF p = true -> block_loop f ss p = Ret (b, p') -> b = ss.
Proof.
  intros He. destruct f as [| f]; [discriminate |].
  cbn [block_loop]. rewrite He. cbn [negb].
  intros H. injection H as <- <-. reflexivity.
Qed.

Lemma program_loop_last f :
  forall nodes p ast p',
    program_loop f nodes p = Ret (ast, p') ->
    exists added, ast = nodes ++ added /\ body_is_last added.
Proof.
  induction f as [| f IH]; intros nodes p ast p'; [discriminate |].
  cbn [program_loop]. destruct (cur_is EOF p); cbn [negb].
  - intros H. injection H as <- <-. exists []. rewrite app_nil_r.
    split; [reflexivity |]. intros [| ? ?] ? ? E; discriminate E.
  - unfold bind. destruct (cur_keyword "fun" p).
    + destruct (function_definition f p) as [[n p1] | |] eqn:En;
        try discriminate.
      intros H. pose proof (function_definition_eof f p n p1 En) as He.
      pose proof (program_loop_at_eof f _ p1 ast p' He H) as ->.
      exists [n]. split; [reflexivity |].
      apply body_is_last_cons; [reflexivity |].
      intros [| ? ?] ? ? E; discriminate E.
    + destruct (statement f p) as [[n p1] | |] eqn:En; try discriminate.
      intros H. destruct (IH _ _ _ _ H) as (added & -> & Hlast).
      exists (n :: added). rewrite <- app_assoc. split; [reflexivity |].
      apply body_is_last_cons; [| exact Hlast].
      intros Hb. pose proof (statement_body_eof f p n p1 En Hb) as He.
      pose proof (program_loop_at_eof f _ p1 _ p' He H) as E.
      rewrite <- (app_nil_r (nodes ++ [n])) in E at 2.
      apply app_inv_head in E. exact E.
Qed.

Lemma block_loop_last f :
  forall ss p b p',
    block_loop f ss p = Ret (b, p') ->
    exists added, b = ss ++ added /\ body_is_last added.
Proof.
  induction f as [| f IH]; intros ss p b p'; [discriminate |].
  cbn [block_loop]. destruct (cur_is EOF p); cbn [negb].
  - intros H. injection H as <- <-. exists []. rewrite app_nil_r.
    split; [reflexivity |]. intros [| ? ?] ? ? E; discriminate E.
  - unfold bind.
    destruct (statement f p) as [[n p1] | |] eqn:En; try discriminate.
    intros H. destruct (IH _ _ _ _ H) as (added & -> & Hlast).
    exists (n :: added). rewrite <- app_assoc. split; [reflexivity |].
    apply body_is_last_cons; [| exact Hlast].
    intros Hb. pose proof (statement_body_eof f p n p1 En Hb) as He.
    pose proof (block_loop_at_eof f _ p1 _ p' He H) as E.
    rewrite <- (app_nil_r (ss ++ [n])) in E at 2.
    apply app_inv_head in E. exact E.
Qed.

(** X17.  Nothing follows a node with a body: in the list [program]
    returns, and in the body [block] returns, an [if], a [while], a [for]
    or a function definition can only be the last element. *)
Theorem node_with_body_is_last (fuel : nat) (p p' : Parser)
        (nodes pre post : list node) (n : node) :
  program fuel p = Ret (nodes, p') \/ block fuel p = Ret (nodes, p') ->
  nodes = pre ++ n :: post ->
  has_body n = true ->
  post = [].
Proof.
  intros [H | H] E Hb.
  - destruct (program_loop_last fuel [] p nodes p' H) as (added & -> & Hl).
    exact (Hl pre n post E Hb).
  - destruct (block_loop_last fuel [] p nodes p' H) as (added & -> & Hl).
    exact (Hl pre n post E Hb).
Qed.

(** X17, witness: the [while] of [x = 1 while y z = 2] is the last node of
    the program. *)
Lemma node_with_body_is_last_witness : @nil node = [].
Proof.
  exact (node_with_body_is_last 9
           (mkParser (at_pos (str "x = 1 while y z = 2") 1)
                     (identifier_token "x"))
           (mkParser (at_pos (str "x = 1 while y z = 2") 19)
                     (mkToken EOF VNone))
           [AssignNode (VariableNode (identifier_token "x"))
                       (punct_token ASSIGN "=")
                       (NumberNode (integer_token 1));
            WhileNode (VariableNode (identifier_token "y"))
              [AssignNode (VariableNode (identifier_token "z"))
                          (punct_token ASSIGN "=")
                          (NumberNode (integer_token 2))]]
           [AssignNode (VariableNode (identifier_token "x"))
                       (punct_token ASSIGN "=")
                       (NumberNode (integer_token 1))]
           []
           (WhileNode (VariableNode (identifier_token "y"))
              [AssignNode (VariableNode (identifier_token "z"))
                          (punct_token ASSIGN "=")
                          (NumberNode (integer_token 2))])
           (or_introl eq_refl) eq_refl eq_refl).
Defined.

Lemma expression_nodes f :
  (forall p n p', factor f p = Ret (n, p') -> is_expression n = true)
  /\ (forall p n p', term f p = Ret (n, p') -> is_expression n = true)
  /\ (forall nd p n p',
         is_expression nd = true -> term_loop f nd p = Ret (n, p') ->
         is_expression n = true)
  /\ (forall p n p', expr f p = Ret (n, p') -> is_expression n = true)
  /\ (forall nd p n p',
         is_expression nd = true -> expr_loop f nd p = Ret (n, p') ->
         is_expression n = true).
Proof.
  induction f as [| f (IHfactor & IHterm & IHtl & IHexpr & IHel)];
    [repeat split; intros; discriminate |].
  repeat split.
  - intros p n p'. cbn [factor]. cbv zeta. unfold bind, ret.
    repeat match goal with
           | |- context [if type_eqb ?a ?b then _ else _] =>
               destruct (type_eqb a b) eqn:?
           end;
      try (destruct (eat _ p) as [[u p1] | |]; try discriminate;
           intros H; injection H as <- <-; cbn [is_expression];
           repeat match goal with
                  | E : type_eqb _ _ = true |- _ => rewrite E
                  end;
           rewrite ?orb_true_r; reflexivity).
    + destruct (eat LPAREN p) as [[u p1] | |]; try discriminate.
      destruct (expr f p1) as [[nd p2] | |] eqn:E; try discriminate.
      destruct (eat RPAREN p2) as [[u' p3] | |]; try discriminate.
      intros H. injection H as <- <-. exact (IHexpr _ _ _ E).
    + discriminate.
  - intros p n p'. cbn [term]. unfold bind.
    destruct (factor f p) as [[nd p1] | |] eqn:E; try discriminate.
    apply IHtl. exact (IHfactor _ _ _ E).
  - intros nd p n p' Hnd. cbn [term_loop]. rewrite multiplicative_cur_token.
    destruct (multiplicative (current_token p)) eqn:Hop.
    + cbv zeta. unfold bind at 1.
      rewrite (eat_multiplicative (current_token p) p eq_refl Hop).
      destruct (next_token p) as [[u p1] | |]; try discriminate.
      unfold bind.
      destruct (factor f p1) as [[r p2] | |] eqn:E; try discriminate.
      apply IHtl. cbn [is_expression].
      rewrite Hnd, Hop, (IHfactor _ _ _ E), orb_true_r. reflexivity.
    + unfold ret. intros H. injection H as <- <-. exact Hnd.
  - intros p n p'. cbn [expr]. unfold bind.
    destruct (term f p) as [[nd p1] | |] eqn:E; try discriminate.
    apply IHel. exact (IHterm _ _ _ E).
  - intros nd p n p' Hnd. cbn [expr_loop]. rewrite additive_cur_token.
    destruct (additive (current_token p)) eqn:Hop.
    + cbv zeta. unfold bind at 1.
      rewrite (eat_additive (current_token p) p eq_refl Hop).
      destruct (next_token p) as [[u p1] | |]; try discriminate.
      unfold bind.
      destruct (term f p1) as [[r p2] | |] eqn:E; try discriminate.
      apply IHel. cbn [is_expression].
      rewrite Hnd, Hop, (IHterm _ _ _ E). reflexivity.
    + unfold ret. intros H. injection H as <- <-. exact Hnd.
Qed.

(** X18.  What [expr] returns is an expression tree and nothing else: its
    leaves are number, string, char and variable nodes over a token of the
    matching type, and every inner node is a binary node whose operator is
    one of [+ - * / %].  No unary node, call or statement node occurs in
    it. *)
Theorem expr_returns_expression (fuel : nat) (p : Parser) (n : node)
        (p' : Parser) :
  expr fuel p = Ret (n, p') -> is_expression n = true.
Proof. apply (expression_nodes fuel). Qed.

(** X18, witness: the tree of [a * (b + 1)]. *)
Lemma expr_returns_expression_witness :
  is_expression
    (BinOpNode (VariableNode (identifier_token "a"))
               (punct_token MULTIPLY "*")
               (BinOpNode (VariableNode (identifier_token "b"))
                          (punct_token PLUS "+")
                          (NumberNode (integer_token 1))))
  = true.
Proof.
  exact (expr_returns_expression 9
           (mkParser (at_pos (str "a * (b + 1)") 1) (identifier_token "a"))
           (BinOpNode (VariableNode (identifier_token "a"))
                      (punct_token MULTIPLY "*")
                      (BinOpNode (VariableNode (identifier_token "b"))
                                 (punct_token PLUS "+")
                                 (NumberNode (integer_token 1))))
           (mkParser (at_pos (str "a * (b + 1)") 11) (mkToken EOF VNone))
           eq_refl).
Defined.

Lemma current_char_at_end t : current_char (at_pos t (length t)) = None.
Proof. unfold at_pos. cbn [current_char]. apply nth_error_None. lia. Qed.

Lemma lex_blank ws :
  forallb isspace ws = true ->
  get_next_token (Lexer_init ws)
  = Ret (mkToken EOF VNone, at_pos ws (length ws)).
Proof.
  intros Hws. rewrite Lexer_init_at_pos.
  destruct ws as [| w ws]; [reflexivity |].
  pose proof Hws as Hw. cbn [forallb] in Hw. apply andb_prop in Hw.
  destruct Hw as [Hw _].
  pose proof (skip_whitespace_run [] (w :: ws) [] Hws I) as E.
  cbn [app length Nat.add] in E. rewrite app_nil_r in E.
  unfold get_next_token.
  rewrite get_next_token_loop_eq.
  change (current_char (at_pos (w :: ws) 0)) with (Some w).
  cbv iota. rewrite Hw. unfold lexer_fuel at 1. unfold bind.
  rewrite E, get_next_token_loop_eq.
  change (S (length ws)) with (length (w :: ws)).
  rewrite current_char_at_end. reflexivity.
Qed.

(** X19.  The empty text, and every text of whitespace only, is the empty
    program: the parse returns the empty list. *)
Theorem blank_input_is_empty_program (ws : pystr) (k : nat) :
  forallb isspace ws = true -> parse (S k) ws = Ret [].
Proof.
  intros Hws. unfold parse, Parser_init. rewrite (lex_blank ws Hws).
  reflexivity.
Qed.

(** X19, witness: the empty text, and a blank, a tab and a newline. *)
Lemma blank_input_is_empty_program_witness :
  parse 1 [] = Ret [] /\ parse 1 [" "%char; tab; newline] = Ret [].
Proof.
  split.
  - exact (blank_input_is_empty_program [] 0 eq_refl).
  - exact (blank_input_is_empty_program [" "%char; tab; newline] 0 eq_refl).
Defined.

Lemma factor_rejects f p :
  atom (current_token p) = false ->
  type (current_token p) <> LPAREN ->
  factor (S f) p = Raise InvalidSyntax.
Proof.
  intros Ha Hl. cbn [factor]. cbv zeta. unfold atom in Ha.
  destruct (type (current_token p)); try discriminate Ha;
    try reflexivity.
  contradiction.
Qed.

(** X20.  An expression cannot start with an operator, a closing
    parenthesis, a comma, an equals sign, a keyword or the end of the
    stream: on any token that is neither an atom nor an opening parenthesis
    [expr] raises the parser's error.  In particular there is no unary
    minus. *)
Theorem expression_needs_operand (p : Parser) (k : nat) :
  atom (current_token p) = false ->
  type (current_token p) <> LPAREN ->
  expr (3 + k) p = Raise InvalidSyntax.
Proof.
  intros Ha Hl. cbn [expr term Nat.add]. unfold bind.
  rewrite (factor_rejects k p Ha Hl). reflexivity.
Qed.

(** X20, witness: the parser on the minus of [-1]. *)
Lemma expression_needs_operand_witness :
  expr 3 (mkParser (at_pos (str "-1") 1) (punct_token MINUS "-"))
  = Raise InvalidSyntax.
Proof.
  exact (expression_needs_operand
           (mkParser (at_pos (str "-1") 1) (punct_token MINUS "-")) 0
           eq_refl ltac:(discriminate)).
Defined.

(** X21.  A statement can only start with a keyword or an identifier: with
    the parser on any other token but the end of the stream, [program]
    raises the parser's error, and so does [block]. *)
Theorem statement_needs_keyword_or_identifier (p : Parser) (k : nat) :
  cur_is KEYWORD p = false ->
  cur_is IDENTIFIER p = false ->
  cur_is EOF p = false ->
  program (2 + k) p = Raise InvalidSyntax
  /\ block (2 + k) p = Raise InvalidSyntax.
Proof.
  intros Hk Hi He.
  assert (Hs : statement (S k) p = Raise InvalidSyntax)
    by (cbn [statement]; rewrite Hk, Hi; reflexivity).
  unfold program, block. change (2 + k) with (S (S k)). split.
  - change (program_loop (S (S k)) [] p)
      with ((fun p =>
               if negb (cur_is EOF p) then
                 if cur_keyword "fun" p then
                   (n <- function_definition (S k) ;;
                    program_loop (S k) ([] ++ [n])) p
                 else
                   (n <- statement (S k) ;; program_loop (S k) ([] ++ [n])) p
               else ret [] p) p).
    cbv beta. unfold cur_keyword, bind. rewrite He, Hk, Hs. reflexivity.
  - change (block_loop (S (S k)) [] p)
      with ((fun p =>
               if negb (cur_is EOF p) then
                 (s <- statement (S k) ;; block_loop (S k) ([] ++ [s])) p
               else ret [] p) p).
    cbv beta. unfold bind. rewrite He, Hs. reflexivity.
Qed.

(** X21, witness: a program that starts with a number. *)
Lemma statement_needs_keyword_or_identifier_witness :
  program 2 (mkParser (at_pos (str "1 + 2") 1) (integer_token 1))
  = Raise InvalidSyntax
  /\ block 2 (mkParser (at_pos (str "1 + 2") 1) (integer_token 1))
     = Raise InvalidSyntax.
Proof.
  exact (statement_needs_keyword_or_identifier
           (mkParser (at_pos (str "1 + 2") 1) (integer_token 1)) 0
           eq_refl eq_refl eq_refl).
Defined.

Lemma calls_build n l t l1 ts l' :
  get_next_token l = Ret (t, l1) -> calls n l1 = Ret (ts, l') ->
  calls (S n) l = Ret (t :: ts, l').
Proof.
  intros H1 H2. cbn [calls]. unfold bind at 1. rewrite H1.
  unfold bind. rewrite H2. reflexivity.
Qed.

Lemma calls_nil l ts l' : calls 0 l = Ret (ts, l') -> ts = [] /\ l' = l.
Proof. cbn [calls]. unfold ret. intros H. injection H as <- <-. auto. Qed.

(** X22.  The product binds tighter than the sum, on either side: for atoms
    [a], [b], [c], an operator [+] or [-] and an operator [*], [/] or [%],
    [a + b * c] parses to the sum of [a] and the product, and [a * b + c]
    to the sum of the product and [c]. *)
Theorem product_binds_tighter (a b c plus times stop : Token)
        (l l' : Lexer) (k : nat) :
  atom a = true -> atom b = true -> atom c = true ->
  additive plus = true -> multiplicative times = true ->
  additive stop = false -> multiplicative stop = false ->
  (calls 5 l = Ret ([plus; b; times; c; stop], l') ->
   expr (8 + k) (mkParser l a)
   = Ret (BinOpNode (leaf a) plus (BinOpNode (leaf b) times (leaf c)),
          mkParser l' stop))
  /\ (calls 5 l = Ret ([times; b; plus; c; stop], l') ->
      expr (8 + k) (mkParser l a)
      = Ret (BinOpNode (BinOpNode (leaf a) times (leaf b)) plus (leaf c),
             mkParser l' stop)).
Proof.
  intros Ha Hb Hc Hplus Htimes Hstop Hstop'.
  pose proof (additive_not_multiplicative plus Hplus) as Hplus'.
  split; intros H;
    apply calls_cons in H; destruct H as (l1 & H1 & H);
    apply calls_cons in H; destruct H as (l2 & H2 & H);
    apply calls_cons in H; destruct H as (l3 & H3 & H);
    apply calls_cons in H; destruct H as (l4 & H4 & H);
    apply calls_cons in H; destruct H as (l5 & H5 & H);
    apply calls_nil in H; destruct H as [_ ->].
  - apply (expr_links 5 (mkParser l a) (leaf a) (mkParser l1 plus)
             [(plus, BinOpNode (leaf b) times (leaf c))] (mkParser l5 stop));
      [| | cbn [length]; lia].
    + exact (term_atom 1 l a plus l1 Ha H1 Hplus').
    + apply (@chain_link additive (term 5) (mkParser l1 plus)
               (mkParser l2 b) _ (mkParser l5 stop) [] (mkParser l5 stop)
               Hplus (next_token_ret l1 plus b l2 H2)).
      * apply (term_chain b [(times, c)] l2 l5 stop 5 Hb);
          [cbn [chain_of forallb fst snd]; rewrite Htimes, Hc; reflexivity
          | exact Hstop' | | cbn [length]; lia].
        cbn [chain_tokens flat_map app fst snd length].
        apply (calls_build 2 l2 times l3 _ l5 H3).
        apply (calls_build 1 l3 c l4 _ l5 H4).
        exact (calls_one l4 stop l5 H5).
      * apply chain_end. exact Hstop.
  - apply (expr_links 5 (mkParser l a) (BinOpNode (leaf a) times (leaf b))
             (mkParser l3 plus) [(plus, leaf c)] (mkParser l5 stop));
      [| | cbn [length]; lia].
    + apply (term_chain a [(times, b)] l l3 plus 5 Ha);
        [cbn [chain_of forallb fst snd]; rewrite Htimes, Hb; reflexivity
        | exact Hplus' | | cbn [length]; lia].
      cbn [chain_tokens flat_map app fst snd length].
      apply (calls_build 2 l times l1 _ l3 H1).
      apply (calls_build 1 l1 b l2 _ l3 H2).
      exact (calls_one l2 plus l3 H3).
    + apply (@chain_link additive (term 5) (mkParser l3 plus)
               (mkParser l4 c) _ (mkParser l5 stop) [] (mkParser l5 stop)
               Hplus (next_token_ret l3 plus c l4 H4)).
      * exact (term_atom 1 l4 c stop l5 Hc H5 Hstop').
      * apply chain_end. exact Hstop.
Qed.

(** X22, witness: [1 + 2 * 3] and [1 * 2 + 3]. *)
Lemma product_binds_tighter_witness :
  expr 8 (mkParser (at_pos (str "1 + 2 * 3") 1) (integer_token 1))
  = Ret (BinOpNode (NumberNode (integer_token 1)) (punct_token PLUS "+")
           (BinOpNode (NumberNode (integer_token 2))
                      (punct_token MULTIPLY "*")
                      (NumberNode (integer_token 3))),
         mkParser (at_pos (str "1 + 2 * 3") 9) (mkToken EOF VNone))
  /\ expr 8 (mkParser (at_pos (str "1 * 2 + 3") 1) (integer_token 1))
     = Ret (BinOpNode
              (BinOpNode (NumberNode (integer_token 1))
                         (punct_token MULTIPLY "*")
                         (NumberNode (integer_token 2)))
              (punct_token PLUS "+") (NumberNode (integer_token 3)),
            mkParser (at_pos (str "1 * 2 + 3") 9) (mkToken EOF VNone)).
Proof.
  split.
  - exact (proj1 (product_binds_tighter
                    (integer_token 1) (integer_token 2) (integer_token 3)
                    (punct_token PLUS "+") (punct_token MULTIPLY "*")
                    (mkToken EOF VNone)
                    (at_pos (str "1 + 2 * 3") 1) (at_pos (str "1 + 2 * 3") 9)
                    0 eq_refl eq_refl eq_refl eq_refl eq_refl eq_refl eq_refl)
             eq_refl).
  - exact (proj2 (product_binds_tighter
                    (integer_token 1) (integer_token 2) (integer_token 3)
                    (punct_token PLUS "+") (punct_token MULTIPLY "*")
                    (mkToken EOF VNone)
                    (at_pos (str "1 * 2 + 3") 1) (at_pos (str "1 * 2 + 3") 9)
                    0 eq_refl eq_refl eq_refl eq_refl eq_refl eq_refl eq_refl)
             eq_refl).
Defined.

Lemma comma_no_operator t :
  is_comma t = true -> additive t = false /\ multiplicative t = false.
Proof.
  unfold is_comma, additive, multiplicative.
  destruct (type t); try discriminate; auto.
Qed.

(** [expr] on an atom that no operator follows. *)
Lemma expr_atom f l a t l1 :
  atom a = true -> get_next_token l = Ret (t, l1) ->
  additive t = false -> multiplicative t = false ->
  expr (6 + f) (mkParser l a) = Ret (leaf a, mkParser l1 t).
Proof.
  intros Ha Hn Ht Ht'.
  apply (expr_chain a [] l l1 t (6 + f) Ha eq_refl Ht Ht'
           (calls_one l t l1 Hn)).
  cbn [length]. lia.
Qed.

Lemma argument_list_loop_chain chain :
  forall args t ts l l' stop f,
    chain_of is_comma chain = true ->
    is_comma stop = false ->
    additive stop = false -> multiplicative stop = false ->
    t :: ts = chain_tokens chain ++ [stop] ->
    calls (length ts) l = Ret (ts, l') ->
    length chain + 7 <= f ->
    argument_list_loop f args (mkParser l t)
    = Ret (args ++ map (fun oa => leaf (snd oa)) chain, mkParser l' stop).
Proof.
  induction chain as [| [comma a] chain IH];
    intros args t ts l l' stop f Hchain Hstop Hadd Hmul Hts Hcalls Hf;
    (destruct f as [| f]; [lia |]); cbn [argument_list_loop].
  - cbn [chain_tokens flat_map app] in Hts. injection Hts as -> ->.
    apply calls_nil in Hcalls. destruct Hcalls as [_ ->].
    change (cur_is COMMA (mkParser l stop)) with (is_comma stop).
    rewrite Hstop, app_nil_r. reflexivity.
  - cbn [chain_tokens flat_map app fst snd] in Hts.
    injection Hts as -> ->.
    cbn [chain_of forallb fst snd] in Hchain.
    apply andb_prop in Hchain. destruct Hchain as [Hca Hchain].
    apply andb_prop in Hca. destruct Hca as [Hcomma Ha].
    change (cur_is COMMA (mkParser l comma)) with (is_comma comma).
    rewrite Hcomma. cbn [length] in Hcalls.
    apply calls_cons in Hcalls. destruct Hcalls as (l1 & Hn1 & Hcalls).
    destruct (flat_map (fun oa => [fst oa; snd oa]) chain ++ [stop])
      as [| t2 ts2] eqn:Etail;
      [destruct chain; discriminate Etail |].
    cbn [length] in Hcalls. apply calls_cons in Hcalls.
    destruct Hcalls as (l2 & Hn2 & Hcalls).
    assert (Ht2 : additive t2 = false /\ multiplicative t2 = false).
    { destruct (chain_head is_comma chain stop t2 ts2 Hchain (eq_sym Etail))
        as [H | ->]; [apply comma_no_operator, H | auto]. }
    destruct Ht2 as [Ht2 Ht2'].
    assert (Heat : eat COMMA (mkParser l comma)
                   = Ret (tt, mkParser l1 a)).
    { unfold is_comma, type_eqb in Hcomma.
      destruct (token_type_eq_dec (type comma) COMMA) as [E | _];
        [| discriminate].
      rewrite <- E.
      change (type comma) with (type (current_token (mkParser l comma))).
      rewrite eat_current. apply next_token_ret, Hn1. }
    unfold bind at 1. rewrite Heat. unfold bind at 1.
    cbn [length] in Hf.
    replace f with (6 + (f - 6)) at 1 by lia.
    rewrite (expr_atom (f - 6) l1 a t2 l2 Ha Hn2 Ht2 Ht2').
    rewrite (IH (args ++ [leaf a]) t2 ts2 l2 l' stop f
                Hchain Hstop Hadd Hmul (eq_sym Etail) Hcalls)
      by lia.
    cbn [map snd]. rewrite <- app_assoc. reflexivity.
Qed.

Lemma argument_list_chain a0 chain stop l l' k :
  atom a0 = true ->
  chain_of is_comma chain = true ->
  is_comma stop = false ->
  additive stop = false -> multiplicative stop = false ->
  calls (length (chain_tokens chain ++ [stop])) l
  = Ret (chain_tokens chain ++ [stop], l') ->
  argument_list (length chain + 7 + k) (mkParser l a0)
  = Ret (leaf a0 :: map (fun oa => leaf (snd oa)) chain, mkParser l' stop).
Proof.
  intros Ha Hchain Hstop Hadd Hmul Hcalls.
  unfold argument_list.
  assert (Hrp : cur_is RPAREN (mkParser l a0) = false).
  { unfold cur_is. cbn [current_token]. unfold atom in Ha.
    destruct (type a0); try discriminate Ha; reflexivity. }
  rewrite Hrp. cbn [negb]. unfold bind.
  destruct (chain_tokens chain ++ [stop]) as [| t ts] eqn:Etoks;
    [destruct chain; discriminate Etoks |].
  cbn [length] in Hcalls. apply calls_cons in Hcalls.
  destruct Hcalls as (l1 & Hn1 & Hcalls).
  assert (Ht : additive t = false /\ multiplicative t = false).
  { destruct (chain_head is_comma chain stop t ts Hchain (eq_sym Etoks))
      as [H | ->]; [apply comma_no_operator, H | auto]. }
  destruct Ht as [Ht Ht'].
  replace (length chain + 7 + k) with (6 + (length chain + 1 + k)) at 1
    by lia.
  rewrite (expr_atom _ l a0 t l1 Ha Hn1 Ht Ht').
  apply (argument_list_loop_chain chain [leaf a0] t ts l1 l' stop);
    auto; lia.
Qed.

(** X23.  An argument list keeps its arguments in their order and number:
    with the parser on an atom and the tokens behind it commas each followed
    by an atom, up to a token that is neither comma nor operator,
    [argument_list] returns the leaves of all the atoms from left to right
    and stops on that token.  With the parser on a closing parenthesis it
    returns the empty list and takes nothing. *)
Theorem argument_list_in_order :
  (forall a0 chain stop l l' k,
      atom a0 = true ->
      chain_of is_comma chain = true ->
      is_comma stop = false ->
      additive stop = false -> multiplicative stop = false ->
      calls (length (chain_tokens chain ++ [stop])) l
      = Ret (chain_tokens chain ++ [stop], l') ->
      argument_list (length chain + 7 + k) (mkParser l a0)
      = Ret (leaf a0 :: map (fun oa => leaf (snd oa)) chain,
             mkParser l' stop))
  /\ (forall f p,
         cur_is RPAREN p = true -> argument_list f p = Ret ([], p)).
Proof.
  split.
  - intros a0 chain stop l l' k. apply argument_list_chain.
  - intros f p Hp. unfold argument_list. rewrite Hp. reflexivity.
Qed.

(** X23, witness: the arguments of [f(x, 2, y)], and those of [f()]. *)
Lemma argument_list_in_order_witness :
  argument_list 9 (mkParser (at_pos (str "f(x, 2, y)") 3)
                            (identifier_token "x"))
  = Ret ([VariableNode (identifier_token "x");
          NumberNode (integer_token 2);
          VariableNode (identifier_token "y")],
         mkParser (at_pos (str "f(x, 2, y)") 10) (punct_token RPAREN ")"))
  /\ argument_list 0 (mkParser (at_pos (str "f()") 3)
                               (punct_token RPAREN ")"))
     = Ret ([], mkParser (at_pos (str "f()") 3) (punct_token RPAREN ")")).
Proof.
  split.
  - exact (proj1 argument_list_in_order (identifier_token "x")
             [(punct_token COMMA ",", integer_token 2);
              (punct_token COMMA ",", identifier_token "y")]
             (punct_token RPAREN ")")
             (at_pos (str "f(x, 2, y)") 3) (at_pos (str "f(x, 2, y)") 10) 0
             eq_refl eq_refl eq_refl eq_refl eq_refl eq_refl).
  - exact (proj2 argument_list_in_order 0
             (mkParser (at_pos (str "f()") 3) (punct_token RPAREN ")"))
             eq_refl).
Defined.

Lemma variable_identifier l a t l1 :
  is_identifier a = true -> get_next_token l = Ret (t, l1) ->
  variable (mkParser l a) = Ret (VariableNode a, mkParser l1 t).
Proof.
  intros Ha Hn. unfold variable, bind.
  unfold is_identifier, type_eqb in Ha.
  destruct (token_type_eq_dec (type a) IDENTIFIER) as [E | _];
    [| discriminate].
  rewrite <- E.
  change (type a) with (type (current_token (mkParser l a))).
  rewrite eat_current, (next_token_ret l a t l1 Hn). reflexivity.
Qed.

Lemma variable_rejects p :
  cur_is IDENTIFIER p = false -> variable p = Raise InvalidSyntax.
Proof.
  intros H. unfold variable, bind, eat. unfold cur_is in H. rewrite H.
  reflexivity.
Qed.

Lemma eat_comma l comma t l1 :
  is_comma comma = true -> get_next_token l = Ret (t, l1) ->
  eat COMMA (mkParser l comma) = Ret (tt, mkParser l1 t).
Proof.
  intros Hc Hn. unfold is_comma, type_eqb in Hc.
  destruct (token_type_eq_dec (type comma) COMMA) as [E | _];
    [| discriminate].
  rewrite <- E.
  change (type comma) with (type (current_token (mkParser l comma))).
  rewrite eat_current. apply next_token_ret, Hn.
Qed.

Lemma names_chain_head chain stop t ts :
  names_chain chain = true ->
  t :: ts = chain_tokens chain ++ [stop] ->
  is_comma t = true \/ t = stop.
Proof.
  destruct chain as [| [op a] chain];
    cbn [names_chain forallb chain_tokens flat_map app].
  - intros _ H. injection H as -> _. right. reflexivity.
  - intros H E. injection E as -> _. cbn [fst] in H.
    apply andb_prop in H. destruct H as [H _].
    apply andb_prop in H. left. tauto.
Qed.

Lemma parameter_list_loop_chain chain :
  forall params t ts l l' stop f,
    names_chain chain = true ->
    is_comma stop = false ->
    t :: ts = chain_tokens chain ++ [stop] ->
    calls (length ts) l = Ret (ts, l') ->
    length chain + 1 <= f ->
    parameter_list_loop f params (mkParser l t)
    = Ret (params ++ map (fun oa => tvalue (snd oa)) chain,
           mkParser l' stop).
Proof.
  induction chain as [| [comma a] chain IH];
    intros params t ts l l' stop f Hchain Hstop Hts Hcalls Hf;
    (destruct f as [| f]; [lia |]); cbn [parameter_list_loop].
  - cbn [chain_tokens flat_map app] in Hts. injection Hts as -> ->.
    apply calls_nil in Hcalls. destruct Hcalls as [_ ->].
    change (cur_is COMMA (mkParser l stop)) with (is_comma stop).
    rewrite Hstop, app_nil_r. reflexivity.
  - cbn [chain_tokens flat_map app fst snd] in Hts.
    injection Hts as -> ->.
    cbn [names_chain forallb fst snd] in Hchain.
    apply andb_prop in Hchain. destruct Hchain as [Hca Hchain].
    apply andb_prop in Hca. destruct Hca as [Hcomma Ha].
    change (cur_is COMMA (mkParser l comma)) with (is_comma comma).
    rewrite Hcomma. cbn [length] in Hcalls.
    apply calls_cons in Hcalls. destruct Hcalls as (l1 & Hn1 & Hcalls).
    destruct (flat_map (fun oa => [fst oa; snd oa]) chain ++ [stop])
      as [| t2 ts2] eqn:Etail;
      [destruct chain; discriminate Etail |].
    cbn [length] in Hcalls. apply calls_cons in Hcalls.
    destruct Hcalls as (l2 & Hn2 & Hcalls).
    unfold bind at 1. rewrite (eat_comma l comma a l1 Hcomma Hn1).
    unfold bind at 1. rewrite (variable_identifier l1 a t2 l2 Ha Hn2).
    cbn [name_of length] in *.
    rewrite (IH (params ++ [tvalue a]) t2 ts2 l2 l' stop f
                Hchain Hstop (eq_sym Etail) Hcalls)
      by lia.
    cbn [map snd]. rewrite <- app_assoc. reflexivity.
Qed.

(** X24.  A parameter list keeps its names in their order and number: with
    the parser on an identifier and the tokens behind it commas each
    followed by an identifier, up to a token that is no comma,
    [parameter_list] returns the names from left to right and stops on that
    token.  On a token that is no identifier it returns the empty list and
    takes nothing, and a comma that no identifier follows is a syntax
    error. *)
Theorem parameter_list_in_order :
  (forall a0 chain stop l l' k,
      is_identifier a0 = true ->
      names_chain chain = true ->
      is_comma stop = false ->
      calls (length (chain_tokens chain ++ [stop])) l
      = Ret (chain_tokens chain ++ [stop], l') ->
      parameter_list (length chain + 1 + k) (mkParser l a0)
      = Ret (tvalue a0 :: map (fun oa => tvalue (snd oa)) chain,
             mkParser l' stop))
  /\ (forall f p,
         cur_is IDENTIFIER p = false -> parameter_list f p = Ret ([], p))
  /\ (forall a0 l k comma t l1 l2,
         is_identifier a0 = true ->
         get_next_token l = Ret (comma, l1) -> is_comma comma = true ->
         get_next_token l1 = Ret (t, l2) -> is_identifier t = false ->
         parameter_list (1 + k) (mkParser l a0) = Raise InvalidSyntax).
Proof.
  repeat apply conj.
  - intros a0 chain stop l l' k Ha Hchain Hstop Hcalls.
    assert (Hid : cur_is IDENTIFIER (mkParser l a0) = true) by exact Ha.
    unfold parameter_list. rewrite Hid. unfold bind.
    destruct (chain_tokens chain ++ [stop]) as [| t ts] eqn:Etoks;
      [destruct chain; discriminate Etoks |].
    cbn [length] in Hcalls. apply calls_cons in Hcalls.
    destruct Hcalls as (l1 & Hn1 & Hcalls).
    rewrite (variable_identifier l a0 t l1 Ha Hn1). cbn [name_of].
    apply (parameter_list_loop_chain chain [tvalue a0] t ts l1 l' stop);
      auto; lia.
  - intros f p Hp. unfold parameter_list. rewrite Hp. reflexivity.
  - intros a0 l k comma t l1 l2 Ha Hn1 Hcomma Hn2 Ht.
    assert (Hid : cur_is IDENTIFIER (mkParser l a0) = true) by exact Ha.
    unfold parameter_list. rewrite Hid. unfold bind.
    rewrite (variable_identifier l a0 comma l1 Ha Hn1).
    cbn [parameter_list_loop Nat.add].
    change (cur_is COMMA (mkParser l1 comma)) with (is_comma comma).
    rewrite Hcomma. unfold bind.
    rewrite (eat_comma l1 comma t l2 Hcomma Hn2).
    rewrite (variable_rejects (mkParser l2 t) Ht). reflexivity.
Qed.

(** X24, witness: the parameters of [fun add(a, b)], the empty list of
    [fun f()], and the rejected list of [fun f(a, 1)]. *)
Lemma parameter_list_in_order_witness :
  parameter_list 2 (mkParser (at_pos (str "fun add(a, b)") 9)
                             (identifier_token "a"))
  = Ret ([VStr (str "a"); VStr (str "b")],
         mkParser (at_pos (str "fun add(a, b)") 13)
                  (punct_token RPAREN ")"))
  /\ parameter_list 0 (mkParser (at_pos (str "fun f()") 7)
                                (punct_token RPAREN ")"))
     = Ret ([], mkParser (at_pos (str "fun f()") 7) (punct_token RPAREN ")"))
  /\ parameter_list 1 (mkParser (at_pos (str "fun f(a, 1)") 7)
                                (identifier_token "a"))
     = Raise InvalidSyntax.
Proof.
  repeat apply conj.
  - exact (proj1 parameter_list_in_order (identifier_token "a")
             [(punct_token COMMA ",", identifier_token "b")]
             (punct_token RPAREN ")")
             (at_pos (str "fun add(a, b)") 9)
             (at_pos (str "fun add(a, b)") 13) 0
             eq_refl eq_refl eq_refl eq_refl).
  - exact (proj1 (proj2 parameter_list_in_order) 0
             (mkParser (at_pos (str "fun f()") 7) (punct_token RPAREN ")"))
             eq_refl).
  - exact (proj2 (proj2 parameter_list_in_order) (identifier_token "a")
             (at_pos (str "fun f(a, 1)") 7) 0
             (punct_token COMMA ",") (integer_token 1)
             (at_pos (str "fun f(a, 1)") 8) (at_pos (str "fun f(a, 1)") 10)
             eq_refl eq_refl eq_refl eq_refl eq_refl).
Defined.

Lemma eat_type ty l t t' l1 :
  type t = ty -> get_next_token l = Ret (t', l1) ->
  eat ty (mkParser l t) = Ret (tt, mkParser l1 t').
Proof.
  intros <- Hn.
  change (type t) with (type (current_token (mkParser l t))).
  rewrite eat_current. apply next_token_ret, Hn.
Qed.

Lemma is_identifier_type t : is_identifier t = true -> type t = IDENTIFIER.
Proof.
  unfold is_identifier, type_eqb.
  destruct (token_type_eq_dec (type t) IDENTIFIER); [auto | discriminate].
Qed.

Lemma is_comma_type t : is_comma t = true -> type t = COMMA.
Proof.
  unfold is_comma, type_eqb.
  destruct (token_type_eq_dec (type t) COMMA); [auto | discriminate].
Qed.

Lemma rparen_no_operator t :
  type t = RPAREN ->
  is_comma t = false /\ additive t = false /\ multiplicative t = false.
Proof.
  unfold is_comma, additive, multiplicative. intros ->. auto.
Qed.

(** X25.  The step of a [for] is optional.  On the tokens
    [for ( i = a , b )] with atoms [a] and [b], the header yields the name
    of [i], the leaves of [a] and [b] and [None] for the step; with a
    further [, c] before the closing parenthesis the step is the leaf of
    [c].  Either way the parser is then on the token behind the closing
    parenthesis. *)
Theorem for_header_optional_step (kw lp i asg a c1 b c2 c rp nxt : Token)
        (l l' : Lexer) (k : nat) :
  type kw = KEYWORD -> type lp = LPAREN -> is_identifier i = true ->
  type asg = ASSIGN -> atom a = true -> is_comma c1 = true ->
  atom b = true -> is_comma c2 = true -> atom c = true ->
  type rp = RPAREN ->
  (calls 8 l = Ret ([lp; i; asg; a; c1; b; rp; nxt], l') ->
   for_header (6 + k) (mkParser l kw)
   = Ret ((tvalue i, leaf a, leaf b, NoneNode), mkParser l' nxt))
  /\ (calls 10 l = Ret ([lp; i; asg; a; c1; b; c2; c; rp; nxt], l') ->
      for_header (6 + k) (mkParser l kw)
      = Ret ((tvalue i, leaf a, leaf b, leaf c), mkParser l' nxt)).
Proof.
  intros Hkw Hlp Hi Hasg Ha Hc1 Hb Hc2 Hc Hrp.
  destruct (comma_no_operator c1 Hc1) as [Hc1a Hc1m].
  destruct (comma_no_operator c2 Hc2) as [Hc2a Hc2m].
  destruct (rparen_no_operator rp Hrp) as (Hrpc & Hrpa & Hrpm).
  split; intros H;
    repeat (apply calls_cons in H;
            let l0 := fresh "l" in
            let Hn := fresh "Hn" in
            destruct H as (l0 & Hn & H));
    apply calls_nil in H; destruct H as [_ ->];
    unfold for_header, bind.
  - rewrite (eat_type KEYWORD l kw lp _ Hkw Hn).
    rewrite (eat_type LPAREN _ lp i _ Hlp Hn0).
    rewrite (variable_identifier _ i asg _ Hi Hn1).
    rewrite (eat_type ASSIGN _ asg a _ Hasg Hn2).
    rewrite (expr_atom k _ a c1 _ Ha Hn3 Hc1a Hc1m).
    rewrite (eat_type COMMA _ c1 b _ (is_comma_type c1 Hc1) Hn4).
    rewrite (expr_atom k _ b rp _ Hb Hn5 Hrpa Hrpm).
    change (cur_is COMMA (mkParser l6 rp)) with (is_comma rp).
    rewrite Hrpc. unfold ret.
    rewrite (eat_type RPAREN _ rp nxt _ Hrp Hn6). reflexivity.
  - rewrite (eat_type KEYWORD l kw lp _ Hkw Hn).
    rewrite (eat_type LPAREN _ lp i _ Hlp Hn0).
    rewrite (variable_identifier _ i asg _ Hi Hn1).
    rewrite (eat_type ASSIGN _ asg a _ Hasg Hn2).
    rewrite (expr_atom k _ a c1 _ Ha Hn3 Hc1a Hc1m).
    rewrite (eat_type COMMA _ c1 b _ (is_comma_type c1 Hc1) Hn4).
    rewrite (expr_atom k _ b c2 _ Hb Hn5 Hc2a Hc2m).
    change (cur_is COMMA (mkParser l6 c2)) with (is_comma c2).
    rewrite Hc2. unfold bind.
    rewrite (eat_type COMMA _ c2 c _ (is_comma_type c2 Hc2) Hn6).
    rewrite (expr_atom k _ c rp _ Hc Hn7 Hrpa Hrpm).
    rewrite (eat_type RPAREN _ rp nxt _ Hrp Hn8). reflexivity.
Qed.

(** X25, witness: the headers [for (i = 0, 5)] and [for (i = 0, 5, 2)],
    each in front of [x = 1]. *)
Lemma for_header_optional_step_witness :
  for_header 6 (mkParser (at_pos (str "for (i = 0, 5) x = 1") 3)
                         (mkToken KEYWORD (VStr (str "for"))))
  = Ret ((VStr (str "i"), NumberNode (integer_token 0),
          NumberNode (integer_token 5), NoneNode),
         mkParser (at_pos (str "for (i = 0, 5) x = 1") 16)
                  (identifier_token "x"))
  /\ for_header 6 (mkParser (at_pos (str "for (i = 0, 5, 2) x = 1") 3)
                            (mkToken KEYWORD (VStr (str "for"))))
     = Ret ((VStr (str "i"), NumberNode (integer_token 0),
             NumberNode (integer_token 5), NumberNode (integer_token 2)),
            mkParser (at_pos (str "for (i = 0, 5, 2) x = 1") 19)
                     (identifier_token "x")).
Proof.
  split.
  - exact (proj1 (for_header_optional_step
                    (mkToken KEYWORD (VStr (str "for")))
                    (punct_token LPAREN "(") (identifier_token "i")
                    (punct_token ASSIGN "=") (integer_token 0)
                    (punct_token COMMA ",") (integer_token 5)
                    (punct_token COMMA ",") (integer_token 2)
                    (punct_token RPAREN ")") (identifier_token "x")
                    (at_pos (str "for (i = 0, 5) x = 1") 3)
                    (at_pos (str "for (i = 0, 5) x = 1") 16) 0
                    eq_refl eq_refl eq_refl eq_refl eq_refl eq_refl eq_refl
                    eq_refl eq_refl eq_refl)
             eq_refl).
  - exact (proj2 (for_header_optional_step
                    (mkToken KEYWORD (VStr (str "for")))
                    (punct_token LPAREN "(") (identifier_token "i")
                    (punct_token ASSIGN "=") (integer_token 0)
                    (punct_token COMMA ",") (integer_token 5)
                    (punct_token COMMA ",") (integer_token 2)
                    (punct_token RPAREN ")") (identifier_token "x")
                    (at_pos (str "for (i = 0, 5, 2) x = 1") 3)
                    (at_pos (str "for (i = 0, 5, 2) x = 1") 19) 0
                    eq_refl eq_refl eq_refl eq_refl eq_refl eq_refl eq_refl
                    eq_refl eq_refl eq_refl)
             eq_refl).
Defined.

Lemma eat_rejects ty p :
  cur_is ty p = false -> eat ty p = Raise InvalidSyntax.
Proof. intros H. unfold eat. unfold cur_is in H. rewrite H. reflexivity. Qed.

(** [function_call] up to the closing parenthesis of a list of atoms. *)
Lemma function_call_arguments fn lp a0 chain stop l l1 l2 l3 k :
  is_identifier fn = true -> type lp = LPAREN ->
  atom a0 = true -> chain_of is_comma chain = true ->
  is_comma stop = false ->
  additive stop = false -> multiplicative stop = false ->
  get_next_token l = Ret (lp, l1) ->
  get_next_token l1 = Ret (a0, l2) ->
  calls (length (chain_tokens chain ++ [stop])) l2
  = Ret (chain_tokens chain ++ [stop], l3) ->
  function_call (length chain + 7 + k) (mkParser l fn)
  = (eat RPAREN ;;;
     ret (FunctionCallNode (VariableNode fn)
            (leaf a0 :: map (fun oa => leaf (snd oa)) chain)))
      (mkParser l3 stop).
Proof.
  intros Hfn Hlp Ha Hchain Hstop Hadd Hmul Hn Hn1 Hcalls.
  unfold function_call. unfold bind at 1.
  rewrite (variable_identifier l fn lp l1 Hfn Hn). unfold bind at 1.
  rewrite (eat_type LPAREN l1 lp a0 l2 Hlp Hn1). unfold bind at 1.
  rewrite (argument_list_chain a0 chain stop l2 l3 k
             Ha Hchain Hstop Hadd Hmul Hcalls).
  reflexivity.
Qed.

(** X26.  A call [fn ( a0 , a1 , ... )] over atoms yields the call node of
    the name and the leaves of the arguments in their order, and leaves the
    parser on the token behind the closing parenthesis; [fn ( )] yields the
    call with no argument.  Where the token that ends the arguments is not
    the closing parenthesis, the call raises Invalid syntax. *)
Theorem function_call_node :
  (forall fn lp a0 chain rp nxt l l1 l2 l3 l' k,
      is_identifier fn = true -> type lp = LPAREN ->
      atom a0 = true -> chain_of is_comma chain = true ->
      type rp = RPAREN ->
      get_next_token l = Ret (lp, l1) ->
      get_next_token l1 = Ret (a0, l2) ->
      calls (length (chain_tokens chain ++ [rp])) l2
      = Ret (chain_tokens chain ++ [rp], l3) ->
      get_next_token l3 = Ret (nxt, l') ->
      function_call (length chain + 7 + k) (mkParser l fn)
      = Ret (FunctionCallNode (VariableNode fn)
               (leaf a0 :: map (fun oa => leaf (snd oa)) chain),
             mkParser l' nxt))
  /\ (forall fn lp rp nxt l l1 l2 l' k,
         is_identifier fn = true -> type lp = LPAREN -> type rp = RPAREN ->
         get_next_token l = Ret (lp, l1) ->
         get_next_token l1 = Ret (rp, l2) ->
         get_next_token l2 = Ret (nxt, l') ->
         function_call k (mkParser l fn)
         = Ret (FunctionCallNode (VariableNode fn) [], mkParser l' nxt))
  /\ (forall fn lp a0 chain stop l l1 l2 l3 k,
         is_identifier fn = true -> type lp = LPAREN ->
         atom a0 = true -> chain_of is_comma chain = true ->
         is_comma stop = false ->
         additive stop = false -> multiplicative stop = false ->
         type_eqb (type stop) RPAREN = false ->
         get_next_token l = Ret (lp, l1) ->
         get_next_token l1 = Ret (a0, l2) ->
         calls (length (chain_tokens chain ++ [stop])) l2
         = Ret (chain_tokens chain ++ [stop], l3) ->
         function_call (length chain + 7 + k) (mkParser l fn)
         = Raise InvalidSyntax).
Proof.
  split; [| split].
  - intros fn lp a0 chain rp nxt l l1 l2 l3 l' k
           Hfn Hlp Ha Hchain Hrp Hn Hn1 Hcalls Hn3.
    destruct (rparen_no_operator rp Hrp) as (Hc & Hadd & Hmul).
    rewrite (function_call_arguments fn lp a0 chain rp l l1 l2 l3 k
               Hfn Hlp Ha Hchain Hc Hadd Hmul Hn Hn1 Hcalls).
    unfold bind. rewrite (eat_type RPAREN l3 rp nxt l' Hrp Hn3).
    reflexivity.
  - intros fn lp rp nxt l l1 l2 l' k Hfn Hlp Hrp Hn Hn1 Hn2.
    unfold function_call. unfold bind at 1.
    rewrite (variable_identifier l fn lp l1 Hfn Hn). unfold bind at 1.
    rewrite (eat_type LPAREN l1 lp rp l2 Hlp Hn1). unfold bind at 1.
    unfold argument_list.
    assert (Hcur : cur_is RPAREN (mkParser l2 rp) = true).
    { unfold cur_is, type_eqb. cbn [current_token]. rewrite Hrp.
      destruct (token_type_eq_dec RPAREN RPAREN); [reflexivity | contradiction]. }
    rewrite Hcur. cbn [negb]. unfold ret at 1. unfold bind.
    rewrite (eat_type RPAREN l2 rp nxt l' Hrp Hn2). reflexivity.
  - intros fn lp a0 chain stop l l1 l2 l3 k
           Hfn Hlp Ha Hchain Hc Hadd Hmul Hstop Hn Hn1 Hcalls.
    rewrite (function_call_arguments fn lp a0 chain stop l l1 l2 l3 k
               Hfn Hlp Ha Hchain Hc Hadd Hmul Hn Hn1 Hcalls).
    unfold bind. rewrite (eat_rejects RPAREN (mkParser l3 stop) Hstop).
    reflexivity.
Qed.

(** X26, witness: the calls [f(x, 2)] and [f()], and [f(x, 2 y] where the
    closing parenthesis is missing. *)
Lemma function_call_node_witness :
  function_call 8 (mkParser (at_pos (str "f(x, 2)") 1) (identifier_token "f"))
  = Ret (FunctionCallNode (VariableNode (identifier_token "f"))
           [VariableNode (identifier_token "x");
            NumberNode (integer_token 2)],
         mkParser (at_pos (str "f(x, 2)") 7) (mkToken EOF VNone))
  /\ function_call 0 (mkParser (at_pos (str "f()") 1) (identifier_token "f"))
     = Ret (FunctionCallNode (VariableNode (identifier_token "f")) [],
            mkParser (at_pos (str "f()") 3) (mkToken EOF VNone))
  /\ function_call 8 (mkParser (at_pos (str "f(x, 2 y") 1)
                               (identifier_token "f"))
     = Raise InvalidSyntax.
Proof.
  split; [| split].
  - exact (proj1 function_call_node
             (identifier_token "f") (punct_token LPAREN "(")
             (identifier_token "x")
             [(punct_token COMMA ",", integer_token 2)]
             (punct_token RPAREN ")") (mkToken EOF VNone)
             (at_pos (str "f(x, 2)") 1) (at_pos (str "f(x, 2)") 2)
             (at_pos (str "f(x, 2)") 3) (at_pos (str "f(x, 2)") 7)
             (at_pos (str "f(x, 2)") 7) 0
             eq_refl eq_refl eq_refl eq_refl eq_refl
             eq_refl eq_refl eq_refl eq_refl).
  - exact (proj1 (proj2 function_call_node)
             (identifier_token "f") (punct_token LPAREN "(")
             (punct_token RPAREN ")") (mkToken EOF VNone)
             (at_pos (str "f()") 1) (at_pos (str "f()") 2)
             (at_pos (str "f()") 3) (at_pos (str "f()") 3) 0
             eq_refl eq_refl eq_refl eq_refl eq_refl eq_refl).
  - exact (proj2 (proj2 function_call_node)
             (identifier_token "f") (punct_token LPAREN "(")
             (identifier_token "x")
             [(punct_token COMMA ",", integer_token 2)]
             (identifier_token "y")
             (at_pos (str "f(x, 2 y") 1) (at_pos (str "f(x, 2 y") 2)
             (at_pos (str "f(x, 2 y") 3) (at_pos (str "f(x, 2 y") 8) 0
             eq_refl eq_refl eq_refl eq_refl eq_refl eq_refl eq_refl eq_refl
             eq_refl eq_refl eq_refl).
Defined.

(** ** Statements that start with an identifier *)

Lemma statement_on_identifier f p :
  cur_is IDENTIFIER p = true ->
  statement (S f) p
  = if match current_char (lexer p) with
       | Some c => Ascii.eqb c "("
       | None => false
       end
    then function_call f p
    else assignment_statement f p.
Proof.
  intros Hid. cbn [statement].
  rewrite (cur_is_exclusive IDENTIFIER KEYWORD p Hid) by discriminate.
  rewrite Hid. reflexivity.
Qed.

(** C5.  On an identifier [statement] looks at the character the lexer is
    on.  An opening parenthesis makes it a function call: on
    [fn ( a0 , a1 , ... )] over atoms it returns the call node of [fn] with
    the leaves of the arguments in their order.  Anything else makes it an
    assignment: with the token [=] behind the identifier and an expression
    behind that, it returns the assignment node of the variable, the [=]
    token and the tree of the expression; with another token behind the
    identifier it raises.  The statement [add(5, 3)] parses to the call of
    [add] with the two arguments 5 and 3, [x = 1 + 2] to the assignment of
    the sum to [x]; with a space before the parenthesis the call is taken for
    an assignment and rejected. *)
Theorem identifier_statement_dispatch :
  (forall f p,
      cur_is IDENTIFIER p = true ->
      statement (S f) p
      = if match current_char (lexer p) with
           | Some c => Ascii.eqb c "("
           | None => false
           end
        then function_call f p
        else assignment_statement f p)
  /\ (forall fn lp a0 chain rp nxt l l1 l2 l3 l' k,
         is_identifier fn = true ->
         current_char l = Some "("%char ->
         type lp = LPAREN -> atom a0 = true ->
         chain_of is_comma chain = true -> type rp = RPAREN ->
         get_next_token l = Ret (lp, l1) ->
         get_next_token l1 = Ret (a0, l2) ->
         calls (length (chain_tokens chain ++ [rp])) l2
         = Ret (chain_tokens chain ++ [rp], l3) ->
         get_next_token l3 = Ret (nxt, l') ->
         statement (length chain + 8 + k) (mkParser l fn)
         = Ret (FunctionCallNode (VariableNode fn)
                  (leaf a0 :: map (fun oa => leaf (snd oa)) chain),
                mkParser l' nxt))
  /\ (forall x asg t l l1 l2 f e p',
         is_identifier x = true ->
         current_char l <> Some "("%char ->
         type asg = ASSIGN ->
         get_next_token l = Ret (asg, l1) ->
         get_next_token l1 = Ret (t, l2) ->
         expr f (mkParser l2 t) = Ret (e, p') ->
         statement (S f) (mkParser l x)
         = Ret (AssignNode (VariableNode x) asg e, p'))
  /\ (forall x t l l1 f,
         is_identifier x = true ->
         current_char l <> Some "("%char ->
         type t <> ASSIGN ->
         get_next_token l = Ret (t, l1) ->
         statement (S f) (mkParser l x) = Raise InvalidSyntax)
  /\ (forall k,
        run (statement (5 + k)) (str "add(5, 3)")
        = Ret (FunctionCallNode
                 (VariableNode (identifier_token "add"))
                 [NumberNode (integer_token 5); NumberNode (integer_token 3)]))
  /\ (forall k,
        parse (6 + k) (str "add(5, 3)")
        = Ret [FunctionCallNode
                 (VariableNode (identifier_token "add"))
                 [NumberNode (integer_token 5); NumberNode (integer_token 3)]])
  /\ (forall k,
        parse (8 + k) (str "x = 1 + 2")
        = Ret [AssignNode
                 (VariableNode (identifier_token "x"))
                 (punct_token ASSIGN "=")
                 (BinOpNode (NumberNode (integer_token 1))
                            (punct_token PLUS "+")
                            (NumberNode (integer_token 2)))])
  /\ (forall k, parse (2 + k) (str "add (5, 3)") = Raise InvalidSyntax).
Proof.
  assert (Hdispatch : forall x l,
             is_identifier x = true -> cur_is IDENTIFIER (mkParser l x) = true).
  { intros x l Hx. exact Hx. }
  assert (Hnot : forall l,
             current_char l <> Some "("%char ->
             match current_char l with
             | Some c => Ascii.eqb c "("
             | None => false
             end = false).
  { intros l Hl. destruct (current_char l) as [c |]; [| reflexivity].
    destruct (Ascii.eqb_spec c "(") as [-> | _];
      [contradiction | reflexivity]. }
  repeat apply conj.
  - apply statement_on_identifier.
  - intros fn lp a0 chain rp nxt l l1 l2 l3 l' k
           Hfn Hc Hlp Ha Hchain Hrp Hn Hn1 Hcalls Hn3.
    replace (length chain + 8 + k) with (S (length chain + 7 + k)) by lia.
    rewrite (statement_on_identifier _ _ (Hdispatch fn l Hfn)).
    cbn [lexer]. rewrite Hc. cbn [Ascii.eqb Bool.eqb andb].
    destruct (rparen_no_operator rp Hrp) as (Hcm & Hadd & Hmul).
    rewrite (function_call_arguments fn lp a0 chain rp l l1 l2 l3 k
               Hfn Hlp Ha Hchain Hcm Hadd Hmul Hn Hn1 Hcalls).
    unfold bind. rewrite (eat_type RPAREN l3 rp nxt l' Hrp Hn3).
    reflexivity.
  - intros x asg t l l1 l2 f e p' Hx Hc Hasg Hn Hn1 He.
    rewrite (statement_on_identifier _ _ (Hdispatch x l Hx)).
    cbn [lexer]. rewrite (Hnot l Hc).
    unfold assignment_statement. unfold bind at 1.
    rewrite (variable_identifier l x asg l1 Hx Hn). cbn [current_token].
    unfold bind at 1. rewrite (eat_type ASSIGN l1 asg t l2 Hasg Hn1).
    unfold bind. rewrite He. reflexivity.
  - intros x t l l1 f Hx Hc Ht Hn.
    rewrite (statement_on_identifier _ _ (Hdispatch x l Hx)).
    cbn [lexer]. rewrite (Hnot l Hc).
    unfold assignment_statement. unfold bind at 1.
    rewrite (variable_identifier l x t l1 Hx Hn). cbn [current_token].
    unfold bind at 1. rewrite eat_rejects; [reflexivity |].
    unfold cur_is, type_eqb. cbn [current_token].
    destruct (token_type_eq_dec (type t) ASSIGN); [contradiction | reflexivity].
  - apply (run_from statement 5);
      [intros f' Hle; apply (statement_fuel 5 f' Hle) | reflexivity
      | discriminate].
  - apply parse_from; [reflexivity | discriminate].
  - apply parse_from; [reflexivity | discriminate].
  - apply parse_from; [reflexivity | discriminate].
Qed.

(** C5, witness: the parser in front of [f(x)], of [f(x, 2)] and of
    [x = y]. *)
Lemma identifier_statement_dispatch_witness :
  statement 9 (mkParser (at_pos (str "f(x)") 1) (identifier_token "f"))
  = function_call 8 (mkParser (at_pos (str "f(x)") 1) (identifier_token "f"))
  /\ statement 9 (mkParser (at_pos (str "f(x, 2)") 1) (identifier_token "f"))
     = Ret (FunctionCallNode (VariableNode (identifier_token "f"))
              [VariableNode (identifier_token "x");
               NumberNode (integer_token 2)],
            mkParser (at_pos (str "f(x, 2)") 7) (mkToken EOF VNone))
  /\ statement 7 (mkParser (at_pos (str "x = y") 1) (identifier_token "x"))
     = Ret (AssignNode (VariableNode (identifier_token "x"))
                       (punct_token ASSIGN "=")
                       (VariableNode (identifier_token "y")),
            mkParser (at_pos (str "x = y") 5) (mkToken EOF VNone)).
Proof.
  split; [| split].
  - exact (proj1 identifier_statement_dispatch 8
             (mkParser (at_pos (str "f(x)") 1)
                       (mkToken IDENTIFIER (VStr (str "f"))))
             eq_refl).
  - exact (proj1 (proj2 identifier_statement_dispatch)
             (identifier_token "f") (punct_token LPAREN "(")
             (identifier_token "x")
             [(punct_token COMMA ",", integer_token 2)]
             (punct_token RPAREN ")") (mkToken EOF VNone)
             (at_pos (str "f(x, 2)") 1) (at_pos (str "f(x, 2)") 2)
             (at_pos (str "f(x, 2)") 3) (at_pos (str "f(x, 2)") 7)
             (at_pos (str "f(x, 2)") 7) 0
             eq_refl eq_refl eq_refl eq_refl eq_refl eq_refl
             eq_refl eq_refl eq_refl eq_refl).
  - exact (proj1 (proj2 (proj2 identifier_statement_dispatch))
             (identifier_token "x") (punct_token ASSIGN "=")
             (identifier_token "y")
             (at_pos (str "x = y") 1) (at_pos (str "x = y") 3)
             (at_pos (str "x = y") 5) 6
             (VariableNode (identifier_token "y"))
             (mkParser (at_pos (str "x = y") 5) (mkToken EOF VNone))
             eq_refl ltac:(discriminate) eq_refl eq_refl eq_refl eq_refl).
Defined.
